(** * internal-link: a shallow embedding of the tokenizer, the BM25 ranker,
      the link splice, the analysis, the loading of the corpus and the
      writing of the links.

    Conventions of the embedding.
    - A Go [string] and a Go [[]byte] are both sequences of 8-bit characters,
      [list ascii]; the conversions [string(b)] and [[]byte(s)] copy the bytes
      and are the identity here.  Literals are written [str "text"].
    - A Go [int] is a [Z]; no index of this program comes near 2^63.
    - A Go [map[string]V] is a [gmap (list ascii) V].  The order in which
      [range] visits a map is not fixed by the language: it is the
      operation of the class [GoMapRange], of which only "visits every entry
      once" is known.  [sort.Slice] is the operation of the class [GoSort],
      with the contract of its documentation (a sorted rearrangement, not
      stable).  What is proved for every instance holds whatever the
      runtime does; two instances of each class are given.
    - A Go [float64] is an extended real [float64]: exact arithmetic on the
      finite values, and the IEEE special values for what divisions by zero
      and logarithms of non-positive numbers produce.  Rounding and signed
      zeros are not modelled.
    - [strings.ToLower], [strings.Fields] and [strings.Trim] are modelled on
      ASCII text: bytes above 127 are neither letters nor white space.
    - What the operating system answers is a parameter of the code that
      asks: [os.ReadFile], the calls of [filepath.Walk] and the two calls of
      the cache are functions given to the analysis; the files that
      [ApplyChanges] rewrites are the state of the class [GoFiles].  What
      the program prints is left out. *)

From Stdlib Require Import ZArith Reals Lra Lia Ascii String.
From stdpp Require Import base list gmap strings sorting.

Open Scope Z_scope.

Abbreviation bytes := (list ascii).

(** [str "text"] is the byte sequence of a literal. *)
Definition str (s : string) : bytes := list_ascii_of_string s.

(** ** The Go library functions the program calls *)

Module Go.

(** [s[lo:hi]] on in-range indices (Go panics outside). *)
Definition slice {A} (s : list A) (lo hi : Z) : list A :=
  take (Z.to_nat (hi - lo)) (drop (Z.to_nat lo) s).

(** [s[lo:]] *)
Definition slice_from {A} (s : list A) (lo : Z) : list A :=
  drop (Z.to_nat lo) s.

(** [len(s)] *)
Definition len {A} (s : list A) : Z := Z.of_nat (length s).

(** White space of [strings.Fields] on ASCII text: tab, line feed, vertical
    tab, form feed, carriage return, space. *)
Definition isSpace (c : ascii) : bool :=
  let n := N_of_ascii c in
  ((9 <=? n) && (n <=? 13))%N || (n =? 32)%N.

Definition lower (c : ascii) : ascii :=
  let n := N_of_ascii c in
  if ((65 <=? n) && (n <=? 90))%N then ascii_of_N (n + 32) else c.

(** [strings.ToLower] *)
Definition ToLower (s : bytes) : bytes := map lower s.

(** The scanning loop of [strings.Fields]: [cur] is the field being read. *)
Fixpoint fields_from (cur : bytes) (s : bytes) : list bytes :=
  match s with
  | [] => match cur with [] => [] | _ => [cur] end
  | c :: s' =>
      if isSpace c
      then match cur with
           | [] => fields_from [] s'
           | _ => cur :: fields_from [] s'
           end
      else fields_from (cur ++ [c]) s'
  end.

(** [strings.Fields], [bytes.Fields] *)
Definition Fields (s : bytes) : list bytes := fields_from [] s.

(** [strings.Join], [bytes.Join] *)
Fixpoint Join (elems : list bytes) (sep : bytes) : bytes :=
  match elems with
  | [] => []
  | [e] => e
  | e :: rest => e ++ sep ++ Join rest sep
  end.

Definition inCutset (cutset : bytes) (c : ascii) : bool :=
  bool_decide (c ∈ cutset).

Fixpoint TrimLeft (s cutset : bytes) : bytes :=
  match s with
  | [] => []
  | c :: s' => if inCutset cutset c then TrimLeft s' cutset else s
  end.

Definition TrimRight (s cutset : bytes) : bytes :=
  reverse (TrimLeft (reverse s) cutset).

(** [strings.Trim] *)
Definition Trim (s cutset : bytes) : bytes :=
  TrimRight (TrimLeft s cutset) cutset.

(** [bytes.HasPrefix] *)
Fixpoint HasPrefix (s prefix : bytes) : bool :=
  match prefix, s with
  | [], _ => true
  | _ :: _, [] => false
  | p :: prefix', c :: s' => bool_decide (p = c) && HasPrefix s' prefix'
  end.

(** [strings.HasSuffix] *)
Definition HasSuffix (s suffix : bytes) : bool :=
  (len suffix <=? len s)
  && bool_decide (slice_from s (len s - len suffix) = suffix).

(** [bytes.Index]: the first index of [sep] in [s], or -1. *)
Fixpoint Index (s sep : bytes) : Z :=
  if HasPrefix s sep then 0
  else match s with
       | [] => -1
       | _ :: s' => let r := Index s' sep in if r <? 0 then -1 else r + 1
       end.

(** [bytes.IndexByte] *)
Definition IndexByte (s : bytes) (c : ascii) : Z := Index s [c].

(** [strings.IndexFunc(s, f) == -1]: no character of [s] satisfies [f]. *)
Definition IndexFunc_none (s : bytes) (f : ascii -> bool) : bool :=
  forallb (fun c => negb (f c)) s.

Definition isDigit (c : ascii) : bool :=
  let n := N_of_ascii c in ((48 <=? n) && (n <=? 57))%N.

(** [bytes.ReplaceAll(s, []byte{old}, []byte{new})] for one-byte patterns. *)
Definition ReplaceAll1 (s : bytes) (old new : ascii) : bytes :=
  map (fun c => if bool_decide (c = old) then new else c) s.

(** A field: not empty and free of white space. *)
Definition is_field (w : bytes) : Prop :=
  w <> [] /\ Forall (fun c => isSpace c = false) w.

Lemma fields_from_word (w cur rest : bytes) :
  Forall (fun c => isSpace c = false) w ->
  fields_from cur (w ++ rest) = fields_from (cur ++ w) rest.
Proof.
  intros Hw. revert cur.
  induction Hw as [|c w Hc _ IH]; intros cur; simpl.
  - by rewrite app_nil_r.
  - rewrite Hc, IH. by rewrite <- app_assoc.
Qed.

Lemma fields_from_is_field (cur s : bytes) :
  Forall (fun c => isSpace c = false) cur ->
  Forall is_field (fields_from cur s).
Proof.
  revert cur. induction s as [|c s IH]; intros cur Hcur; simpl.
  - destruct cur as [|c0 cur]; [constructor|].
    constructor; [|constructor]. by split.
  - destruct (isSpace c) eqn:Hc.
    + destruct cur as [|c0 cur]; [by apply IH|].
      constructor; [by split|]. by apply IH.
    + apply IH. apply Forall_app. split; [done|]. by constructor.
Qed.

Lemma Fields_is_field (s : bytes) : Forall is_field (Fields s).
Proof. apply fields_from_is_field. constructor. Qed.

Lemma Join_cons (w w' : bytes) (ws : list bytes) (sep : bytes) :
  Join (w :: w' :: ws) sep = w ++ sep ++ Join (w' :: ws) sep.
Proof. reflexivity. Qed.

Lemma fields_from_space (cur rest : bytes) :
  cur <> [] -> fields_from cur (str " " ++ rest) = cur :: fields_from [] rest.
Proof. intros H. simpl. by destruct cur. Qed.

(** Joining fields with one space and splitting again gives the fields
    back: an n-gram of [n] words has [n] fields. *)
Lemma Fields_Join (ws : list bytes) :
  Forall is_field ws -> Fields (Join ws (str " ")) = ws.
Proof.
  unfold Fields. induction 1 as [|w ws [Hne Hw] Hws IH]; [done|].
  destruct ws as [|w' ws].
  - simpl. pose proof (fields_from_word w [] [] Hw) as E.
    rewrite app_nil_r in E. rewrite E. simpl. by destruct w.
  - rewrite Join_cons, fields_from_word by done.
    rewrite app_nil_l, fields_from_space, IH by done. done.
Qed.

Lemma Forall_slice {A} (P : A -> Prop) (l : list A) lo hi :
  Forall P l -> Forall P (slice l lo hi).
Proof. intros H. unfold slice. by apply Forall_take, Forall_drop. Qed.

Lemma length_slice {A} (l : list A) lo hi :
  0 <= lo -> lo <= hi -> hi <= len l -> len (slice l lo hi) = hi - lo.
Proof.
  unfold slice, len. intros. rewrite length_take, length_drop. lia.
Qed.

(** *** Searching and splitting *)

Lemma HasPrefix_app (s prefix : bytes) :
  HasPrefix s prefix = true <-> exists rest, s = prefix ++ rest.
Proof.
  revert s. induction prefix as [|p prefix IH]; intros s; simpl.
  - split; [intros _; by exists s|intros _; by destruct s].
  - destruct s as [|c s]; simpl; [split; [done|by intros [? ?]]|].
    rewrite andb_true_iff, bool_decide_eq_true, IH. split.
    + intros [-> [rest ->]]. by exists rest.
    + intros [rest [= -> ->]]. split; [done|by exists rest].
Qed.

(** [bytes.Index] returns -1 or an index at which [sep] is found. *)
Lemma Index_found (s sep : bytes) :
  Index s sep = -1
  \/ (0 <= Index s sep
      /\ exists rest, slice_from s (Index s sep) = sep ++ rest).
Proof.
  induction s as [|c s IH]; cbn [Index].
  - destruct (HasPrefix [] sep) eqn:E; [|by left].
    right. split; [done|]. by apply HasPrefix_app.
  - destruct (HasPrefix (c :: s) sep) eqn:E.
    + right. split; [done|]. by apply HasPrefix_app.
    + destruct IH as [->|[Hge [rest Hrest]]]; [by left|].
      destruct (Z.ltb_spec (Index s sep) 0); [lia|].
      right. split; [lia|]. exists rest. unfold slice_from in *.
      replace (Z.to_nat (Index s sep + 1)) with (S (Z.to_nat (Index s sep)))
        by lia. done.
Qed.

Lemma slice_from_prefix (s sep rest : bytes) (i : Z) :
  0 <= i -> slice_from s i = sep ++ rest -> slice s i (i + len sep) = sep.
Proof.
  unfold slice_from, slice, len. intros Hi ->.
  replace (Z.to_nat (i + Z.of_nat (length sep) - i)) with (length sep) by lia.
  by rewrite take_app_length.
Qed.

(** The fields of a text, joined by single spaces, are no longer than the
    text. *)
Lemma fields_from_length (cur s : bytes) :
  foldr (fun w n => len w + 1 + n) 0 (fields_from cur s)
  <= len cur + len s + 1.
Proof.
  revert cur. induction s as [|c s IH]; intros cur; simpl.
  - destruct cur; unfold len; simpl; lia.
  - destruct (isSpace c).
    + destruct cur as [|c0 cur].
      * specialize (IH []). unfold len in *. simpl in *. lia.
      * specialize (IH []). unfold len in *. simpl in *. lia.
    + specialize (IH (cur ++ [c])). unfold len in *.
      rewrite length_app in IH. simpl in *. lia.
Qed.

Lemma Join_length (ws : list bytes) :
  ws <> [] ->
  len (Join ws (str " ")) + 1 = foldr (fun w n => len w + 1 + n) 0 ws.
Proof.
  induction ws as [|w ws IH]; [done|]. intros _. destruct ws as [|w' ws].
  - simpl. lia.
  - rewrite Join_cons. cbn [foldr] in *. rewrite <- IH by done.
    unfold len. rewrite !length_app. change (length (str " ")) with 1%nat.
    lia.
Qed.

Lemma Join_Fields_length (s : bytes) :
  len (Join (Fields s) (str " ")) <= len s.
Proof.
  pose proof (fields_from_length [] s) as Hf. fold (Fields s) in Hf.
  change (len (@nil ascii)) with 0 in Hf.
  destruct (decide (Fields s = [])) as [->|Hne]; [unfold len; simpl; lia|].
  rewrite <- Join_length in Hf by done. lia.
Qed.

(** Joined fields hold no white space but the single spaces between them. *)
Lemma Join_fields_space (ws : list bytes) :
  Forall is_field ws ->
  Forall (fun c => isSpace c = true -> c = " "%char) (Join ws (str " ")).
Proof.
  induction 1 as [|w ws [_ Hw] _ IH]; [constructor|].
  assert (Forall (fun c => isSpace c = true -> c = " "%char) w) as Hw'.
  { eapply Forall_impl; [exact Hw|]. intros c Hc. by rewrite Hc. }
  destruct ws as [|w' ws]; [done|]. rewrite Join_cons.
  apply Forall_app. split; [done|]. by constructor.
Qed.

Lemma lower_lower (c : ascii) : lower (lower c) = lower c.
Proof.
  destruct c as [[] [] [] [] [] [] [] []]; vm_compute; reflexivity.
Qed.

Lemma ToLower_ToLower (s : bytes) : ToLower (ToLower s) = ToLower s.
Proof.
  unfold ToLower. rewrite <- list_fmap_compose. apply list_fmap_ext.
  intros i c _. apply lower_lower.
Qed.

Lemma fields_from_spaces (s : bytes) :
  Forall (fun c => isSpace c = true) s -> fields_from [] s = [].
Proof. induction 1 as [|c s Hc _ IH]; simpl; [done|]. by rewrite Hc. Qed.

End Go.

(** ** What the Go runtime leaves open *)

(** A [less] function that [sort.Slice] can sort by: a strict weak order. *)
Record StrictWeak {A} (less : A -> A -> bool) : Prop := {
  sw_asym : forall x y, less x y = true -> less y x = false;
  sw_negtrans : forall x y z,
    less y x = false -> less z y = false -> less z x = false
}.

(** [sort.Slice(x, less)]: the slice is rearranged so that no element is
    [less] than one before it.  "The sort is not guaranteed to be stable." *)
Class GoSort := {
  sort_Slice : forall {A}, (A -> A -> bool) -> list A -> list A;
  sort_Slice_perm : forall A (less : A -> A -> bool) (l : list A),
    sort_Slice less l ≡ₚ l;
  sort_Slice_sorted : forall A (less : A -> A -> bool) (l : list A),
    StrictWeak less ->
    StronglySorted (fun x y => less y x = false) (sort_Slice less l)
}.

(** [for k, v := range m]: every entry is visited once, in an order the
    language does not fix. *)
Class GoMapRange := {
  range : forall {K} `{Countable K} {V}, gmap K V -> list (K * V);
  range_perm : forall K `{Countable K} V (m : gmap K V),
    range m ≡ₚ map_to_list m
}.

(** Two sorts that meet the contract of [sort.Slice].  The first is the
    insertion sort that Go (1.19 and later) runs on slices of at most twelve
    elements: an element moves left while it is [less] than its
    predecessor, so equal elements keep their order.  The second is a merge
    sort, which does not keep the order of equal elements. *)
Definition notLess {A} (less : A -> A -> bool) : relation A :=
  fun x y => less y x = false.

#[local] Instance notLess_dec {A} (less : A -> A -> bool) x y :
  Decision (notLess less x y).
Proof. unfold notLess. apply _. Defined.

Fixpoint insertSorted {A} (less : A -> A -> bool) (x : A) (l : list A)
  : list A :=
  match l with
  | [] => [x]
  | y :: l' => if less x y then x :: l else y :: insertSorted less x l'
  end.

Definition insertionSort {A} (less : A -> A -> bool) (l : list A) : list A :=
  fold_left (fun acc x => insertSorted less x acc) l [].

Definition mergeSort {A} (less : A -> A -> bool) (l : list A) : list A :=
  merge_sort (notLess less) l.

Lemma insertSorted_perm {A} (less : A -> A -> bool) x (l : list A) :
  insertSorted less x l ≡ₚ x :: l.
Proof.
  induction l as [|y l IH]; simpl; [done|].
  destruct (less x y); [done|]. rewrite IH. apply Permutation_swap.
Qed.

Lemma insertSorted_sorted {A} (less : A -> A -> bool) x (l : list A) :
  StrictWeak less ->
  StronglySorted (notLess less) l ->
  StronglySorted (notLess less) (insertSorted less x l).
Proof.
  intros [Hasym Htrans]. induction 1 as [|y l Hl IH Hy]; simpl.
  - repeat constructor.
  - destruct (less x y) eqn:E.
    + constructor; [by constructor|]. constructor.
      * by apply Hasym.
      * eapply Forall_impl; [exact Hy|]. intros z Hz. unfold notLess in *.
        apply (Htrans x y z); [by apply Hasym|done].
    + constructor; [done|]. rewrite insertSorted_perm. by constructor.
Qed.

Lemma insertionSort_perm {A} (less : A -> A -> bool) (l : list A) :
  insertionSort less l ≡ₚ l.
Proof.
  unfold insertionSort. rewrite <- (app_nil_l l) at 2.
  generalize (@nil A) as acc. induction l as [|x l IH]; intros acc; simpl.
  - by rewrite app_nil_r.
  - rewrite IH, insertSorted_perm. simpl. apply Permutation_middle.
Qed.

Lemma insertionSort_sorted {A} (less : A -> A -> bool) (l : list A) :
  StrictWeak less -> StronglySorted (notLess less) (insertionSort less l).
Proof.
  intros Hsw. unfold insertionSort.
  assert (StronglySorted (notLess less) (@nil A)) as Hacc by constructor.
  revert Hacc. generalize (@nil A) as acc.
  induction l as [|x l IH]; intros acc Hacc; simpl; [done|].
  apply IH. by apply insertSorted_sorted.
Qed.

Lemma mergeSort_sorted {A} (less : A -> A -> bool) (l : list A) :
  StrictWeak less -> StronglySorted (notLess less) (mergeSort less l).
Proof.
  intros [Hasym Htrans]. apply StronglySorted_merge_sort.
  - intros x y z Hxy Hyz. unfold notLess in *. by eapply Htrans.
  - intros x y. unfold notLess. destruct (less y x) eqn:E; [|by left].
    right. by apply Hasym.
Qed.

Definition insertionSortRuntime : GoSort := {|
  sort_Slice := @insertionSort;
  sort_Slice_perm := @insertionSort_perm;
  sort_Slice_sorted := @insertionSort_sorted
|}.

Definition mergeSortRuntime : GoSort := {|
  sort_Slice := @mergeSort;
  sort_Slice_perm := fun A less l => merge_sort_Permutation (notLess less) l;
  sort_Slice_sorted := @mergeSort_sorted
|}.

(** Two visiting orders for [range]: by key encoding, and the reverse. *)
Definition rangeForward : GoMapRange := {|
  range := fun K _ _ V (m : gmap K V) => map_to_list m;
  range_perm := fun K _ _ V m => reflexivity (map_to_list m)
|}.

Definition rangeBackward : GoMapRange := {|
  range := fun K _ _ V (m : gmap K V) => reverse (map_to_list m);
  range_perm := fun K _ _ V m => reverse_Permutation (map_to_list m)
|}.

(** ** pkg/markdown: the tokenizer and the link splice *)

Module markdown.
Import Go.

(** Common English function words to skip. *)
Definition functionWords : list bytes := map str
  [ "a"; "an"; "the";
    "and"; "but"; "or"; "nor"; "for"; "yet"; "so"; "because"; "if";
    "unless"; "while"; "where"; "when"; "whether";
    "i"; "you"; "he"; "she"; "it"; "we"; "they"; "me"; "him"; "her";
    "us"; "them"; "my"; "your"; "his"; "its"; "our"; "their"; "mine";
    "yours"; "hers"; "ours"; "theirs"; "this"; "that"; "these"; "those";
    "who"; "whom"; "whose"; "which"; "what";
    "am"; "is"; "are"; "was"; "were"; "be"; "been"; "being"; "have";
    "has"; "had"; "having"; "do"; "does"; "did"; "doing"; "will";
    "would"; "shall"; "should"; "may"; "might"; "must"; "can"; "could";
    "there"; "here"; "now"; "then"; "today"; "tomorrow"; "yesterday";
    "not"; "no"; "yes"; "okay"; "oh"; "well"; "just"; "very"; "much";
    "many"; "more"; "most"; "some"; "any"; "all"; "both"; "each"; "few";
    "several"; "too"; "rather"; "quite" ]%string.

(** [functionWords[w]]: false for a missing key. *)
Definition isFunctionWord (w : bytes) : bool :=
  bool_decide (w ∈ functionWords).

(** A word's location in the document. *)
Record WordOccurrence := {
  Word : bytes;
  Position : Z;
  Context : bytes
}.

(** goldmark's [text.Segment] and the part of its [ast.Node] tree the walk
    looks at: a node is an [*ast.Text] with its segment, or it is not. *)
Record Segment := { Start : Z; Stop : Z; Padding : Z }.

#[local] Set Warnings "-register-all".
Inductive Node :=
| TextNode (seg : Segment) (children : list Node)
| OtherNode (children : list Node).

Definition children (n : Node) : list Node :=
  match n with TextNode _ c => c | OtherNode c => c end.

(** [Segment.Value(buffer)] *)
Definition Value (seg : Segment) (buffer : bytes) : bytes :=
  if Padding seg =? 0 then slice buffer (Start seg) (Stop seg)
  else replicate (Z.to_nat (Padding seg)) " "%char
         ++ slice buffer (Start seg) (Stop seg).

(** The parser: [md] is goldmark's [Parser().Parse], from content to tree. *)
Record Parser := {
  md : bytes -> Node;
  minNGram : Z;
  maxNGram : Z
}.

Record ParserConfig := { MinNGram : Z; MaxNGram : Z }.

Definition NewParser (goldmark_New : bytes -> Node) (config : ParserConfig)
  : Parser :=
  let minN := if MinNGram config <? 1 then 1 else MinNGram config in
  {| md := goldmark_New; minNGram := minN; maxNGram := MaxNGram config |}.

(** [generateNGrams]: the n-grams of exactly [n] words; the words themselves
    when [n] is out of range. *)
Definition generateNGrams (words : list bytes) (n : Z) : list bytes :=
  if (n <=? 0) || (len words <? n) then words
  else (fun i => Join (slice words i (i + n)) (str " "))
         <$> seqZ 0 (len words - n + 1).

(** [isSignificantWord] *)
Definition isSignificantWord (word : bytes) : bool :=
  if isFunctionWord word then false
  else if IndexFunc_none word (fun r => negb (isDigit r)) then false
  else true.

Definition skipFrontmatter (content : bytes) : bytes * Z :=
  if (3 <? len content)
     && (HasPrefix content (str "---") || HasPrefix content (str "+++"))
  then
    let rest := slice_from content 3 in
    let nl := IndexByte rest "010"%char in
    if negb (nl =? -1) then
      let rest := slice_from rest (nl + 1) in
      let delimiter :=
        if HasPrefix content (str "---") then str "---" else str "+++" in
      let idx := Index rest delimiter in
      if negb (idx =? -1) then
        let closeRest := slice_from rest (idx + 3) in
        let nl := IndexByte closeRest "010"%char in
        if negb (nl =? -1) then
          let skipped := len content - len (slice_from closeRest (nl + 1)) in
          (slice_from closeRest (nl + 1), skipped)
        else (content, 0)
      else (content, 0)
    else (content, 0)
  else (content, 0).

Definition contextSize : Z := 50.

Definition extractContext (content : bytes) (position wordLen : Z) : bytes :=
  let start := position - contextSize in
  let start := if start <? 0 then 0 else start in
  let end_ := position + wordLen + contextSize in
  let end_ := if len content <? end_ then len content else end_ in
  let context := slice content start end_ in
  let context := ReplaceAll1 context "010"%char " "%char in
  let context := Join (Fields context) (str " ") in
  (if 0 <? start then str "..." else [])
    ++ context
    ++ (if end_ <? len content then str "..." else []).

(** The cutset of [strings.Trim]: the characters . , ! ? ( ) [ ] { } and the
    two quotes. *)
Definition trimCutset : bytes := str ".,!?()[]{}" ++ ["034"%char; "'"%char].

(** The loop over [words] of [processTextNodeWithPosition]: [i] is the index
    of [word] in [words], [pos] the search cursor, [sw] and [sp] the slices
    [significantWords] and [significantWordPositions]. *)
Fixpoint scanWords (textContent : bytes) (words : list bytes) (i pos : Z)
    (sw : list bytes) (sp : list Z) : list bytes * list Z :=
  match words with
  | [] => (sw, sp)
  | word :: rest =>
      let normalized := ToLower (Trim word trimCutset) in
      if IndexFunc_none normalized (fun r => negb (isDigit r))
      then scanWords textContent rest (i + 1) pos sw sp
      else if isFunctionWord normalized
      then scanWords textContent rest (i + 1) pos sw sp
      else if len normalized <=? 2
      then scanWords textContent rest (i + 1) pos sw sp
      else
        let wordPos :=
          if i =? 0 then Index textContent word
          else
            let r := Index (slice_from textContent pos) word in
            if negb (r =? -1) then r + pos else r in
        if negb (wordPos =? -1)
        then scanWords textContent rest (i + 1) (wordPos + len word)
               (sw ++ [normalized]) (sp ++ [wordPos])
        else scanWords textContent rest (i + 1) pos sw sp
  end.

(** The unigram branch: one occurrence per significant word of at least
    [minWordLen] bytes. *)
Definition emitUnigrams (content : bytes) (currentPosition frontmatterOffset
    minWordLen : Z) (words sw : list bytes) (sp : list Z)
  : list WordOccurrence :=
  mjoin (imap (fun i word =>
    if minWordLen <=? len word then
      let absPos := frontmatterOffset + currentPosition + sp !!! i in
      let context :=
        extractContext content (currentPosition + sp !!! i)
          (len (words !!! i)) in
      [ {| Word := word; Position := absPos; Context := context |} ]
    else []) sw).

(** The body of the two n-gram loops, at length [n] and start index [i]. *)
Definition ngramAt (content : bytes) (currentPosition frontmatterOffset : Z)
    (words sw : list bytes) (sp : list Z) (n i : Z) : WordOccurrence :=
  let ngramWords := slice sw i (i + n) in
  let ngram := Join ngramWords (str " ") in
  let startPos := sp !!! Z.to_nat i in
  let endWordIdx := i + n - 1 in
  let endPos :=
    sp !!! Z.to_nat endWordIdx + len (words !!! Z.to_nat endWordIdx) in
  let absPos := frontmatterOffset + currentPosition + startPos in
  let context :=
    extractContext content (currentPosition + startPos) (endPos - startPos) in
  {| Word := ngram; Position := absPos; Context := context |}.

(** [for n := minNGram; n <= maxNGram && n <= len(sw); n++]
    [for i := 0; i <= len(sw)-n; i++] *)
Definition emitNGrams (p : Parser) (content : bytes)
    (currentPosition frontmatterOffset : Z) (words sw : list bytes)
    (sp : list Z) : list WordOccurrence :=
  n ← seqZ (minNGram p) (Z.min (maxNGram p) (len sw) - minNGram p + 1);
  i ← seqZ 0 (len sw - n + 1);
  [ngramAt content currentPosition frontmatterOffset words sw sp n i].

(** The occurrences one text node appends to the slice. *)
Definition textNodeOccurrences (p : Parser) (seg : Segment) (content : bytes)
    (currentPosition frontmatterOffset minWordLen : Z)
  : list WordOccurrence :=
  let textContent := Value seg content in
  let words := Fields textContent in
  if len words =? 0 then [] else
  let '(sw, sp) := scanWords textContent words 0 0 [] [] in
  if len sw =? 0 then [] else
  if minNGram p =? 1 then
    emitUnigrams content currentPosition frontmatterOffset minWordLen
      words sw sp
  else if minNGram p <=? len sw then
    emitNGrams p content currentPosition frontmatterOffset words sw sp
  else [].

Definition processTextNodeWithPosition (p : Parser) (seg : Segment)
    (content : bytes) (currentPosition frontmatterOffset minWordLen : Z)
    (occurrences : list WordOccurrence) : list WordOccurrence :=
  occurrences
    ++ textNodeOccurrences p seg content currentPosition frontmatterOffset
         minWordLen.

(** The walk threads the cursor [*currentPosition] and the slice
    [*occurrences]. *)
Fixpoint walkNodesWithPosition (p : Parser) (n : Node) (content : bytes)
    (frontmatterOffset minWordLen : Z) (st : Z * list WordOccurrence)
  : Z * list WordOccurrence :=
  let st :=
    match n with
    | TextNode seg _ =>
        let segmentStart := Start seg in
        (Stop seg,
         processTextNodeWithPosition p seg content segmentStart
           frontmatterOffset minWordLen st.2)
    | OtherNode _ => st
    end in
  fold_left
    (fun st child =>
       walkNodesWithPosition p child content frontmatterOffset minWordLen st)
    (children n) st.

Definition lessPosition (x y : WordOccurrence) : bool :=
  Position x <? Position y.

(** The occurrences in walk order, before they are sorted. *)
Definition walkOccurrences (p : Parser) (content : bytes) (minWordLen : Z)
  : list WordOccurrence :=
  let '(content, frontmatterOffset) := skipFrontmatter content in
  let doc := md p content in
  (walkNodesWithPosition p doc content frontmatterOffset minWordLen
     (0, [])).2.

(** [FindWordOccurrences]; its error result is always [nil]. *)
Definition FindWordOccurrences `{GoSort} (p : Parser) (content : bytes)
    (minWordLen : Z) : list WordOccurrence :=
  sort_Slice lessPosition (walkOccurrences p content minWordLen).

(** [wordFreq[occ.Word]++] *)
Definition incr (wordFreq : gmap bytes Z) (w : bytes) : gmap bytes Z :=
  <[w := default 0 (wordFreq !! w) + 1]> wordFreq.

(** [ParseContent]; its error result is always [nil]. *)
Definition ParseContent `{GoSort} (p : Parser) (content : bytes)
  : gmap bytes Z :=
  let occurrences := FindWordOccurrences p content 1 in
  fold_left (fun wordFreq occ => incr wordFreq (Word occ)) occurrences ∅.

(** The three errors of [InsertLink], with the data of their messages. *)
Inductive InsertError :=
| ErrOutOfRange (position length : Z)
| ErrExceeds (word : bytes) (position length : Z)
| ErrMismatch (position : Z) (actualWord word : bytes).

(** [fmt.Sprintf("[%s](%s)", word, target)] *)
Definition linkText (word target : bytes) : bytes :=
  str "[" ++ word ++ str "](" ++ target ++ str ")".

Definition InsertLink (content word target : bytes) (position : Z)
  : InsertError + bytes :=
  if (position <? 0) || (len content <=? position)
  then inl (ErrOutOfRange position (len content))
  else if len content <? position + len word
  then inl (ErrExceeds word position (len content))
  else
    let actualWord := slice content position (position + len word) in
    if negb (bool_decide (actualWord = word))
    then inl (ErrMismatch position actualWord word)
    else
      let link := linkText word target in
      let result := [] in
      let result := result ++ slice content 0 position in
      let result := result ++ link in
      let result := result ++ slice_from content (position + len word) in
      inr result.

(** *** The walk, one text run at a time *)

(** The text segments of a tree, in the order the walk visits them. *)
Fixpoint textSegments (n : Node) : list Segment :=
  match n with TextNode seg _ => [seg] | OtherNode _ => [] end
    ++ (children n ≫= textSegments).

(** The significant words of one text run. *)
Definition runWords (seg : Segment) (content : bytes) : list bytes :=
  (scanWords (Value seg content) (Fields (Value seg content)) 0 0 [] []).1.

(** Induction on trees, with the hypothesis for every child. *)
Lemma Node_forall_ind (P : Node -> Prop) :
  (forall seg cs, Forall P cs -> P (TextNode seg cs)) ->
  (forall cs, Forall P cs -> P (OtherNode cs)) ->
  forall n, P n.
Proof.
  intros Ht Ho. fix IH 1. intros [seg cs|cs]; [apply Ht|apply Ho];
    induction cs as [|c cs IHcs]; constructor; auto.
Qed.

Lemma walk_children (p : Parser) content off mwl (cs : list Node) :
  Forall (fun n => forall st,
    (walkNodesWithPosition p n content off mwl st).2
    = st.2 ++ (textSegments n ≫= fun seg =>
                 textNodeOccurrences p seg content (Start seg) off mwl)) cs ->
  forall st,
    (fold_left (fun st child =>
       walkNodesWithPosition p child content off mwl st) cs st).2
    = st.2 ++ ((cs ≫= textSegments) ≫= fun seg =>
                 textNodeOccurrences p seg content (Start seg) off mwl).
Proof.
  induction 1 as [|c cs Hc _ IH]; intros st; simpl.
  - by rewrite app_nil_r.
  - rewrite IH, Hc, bind_app, <- app_assoc. done.
Qed.

(** The walk appends, for each text node in turn, the occurrences of that
    node alone. *)
Lemma walk_occurrences (p : Parser) content off mwl (n : Node) st :
  (walkNodesWithPosition p n content off mwl st).2
  = st.2 ++ (textSegments n ≫= fun seg =>
               textNodeOccurrences p seg content (Start seg) off mwl).
Proof.
  revert st. induction n as [seg cs IH|cs IH] using Node_forall_ind;
    intros st; simpl.
  - rewrite (walk_children _ _ _ _ _ IH). simpl.
    unfold processTextNodeWithPosition. by rewrite <- app_assoc.
  - by rewrite (walk_children _ _ _ _ _ IH).
Qed.

Lemma walkOccurrences_runs (p : Parser) (content : bytes) (mwl : Z) :
  walkOccurrences p content mwl
  = textSegments (md p (skipFrontmatter content).1) ≫= fun seg =>
      textNodeOccurrences p seg (skipFrontmatter content).1 (Start seg)
        (skipFrontmatter content).2 mwl.
Proof.
  unfold walkOccurrences. destruct (skipFrontmatter content) as [c off].
  by rewrite walk_occurrences.
Qed.

(** Every significant word has at least three bytes, and as many positions
    are recorded as words. *)
Lemma scanWords_inv (P : bytes -> Prop) tc words :
  (forall w, 2 < len w -> P w) ->
  forall i pos sw sp,
    Forall P sw -> length sw = length sp ->
    Forall P (scanWords tc words i pos sw sp).1
    /\ length (scanWords tc words i pos sw sp).1
       = length (scanWords tc words i pos sw sp).2.
Proof.
  intros HP. induction words as [|word rest IH]; intros i pos sw sp Hsw Hlen;
    simpl; [done|].
  destruct (IndexFunc_none _ _); [by apply IH|].
  destruct (isFunctionWord _); [by apply IH|].
  destruct (Z.leb_spec (len (ToLower (Trim word trimCutset))) 2);
    [by apply IH|].
  destruct (negb _); [|by apply IH].
  apply IH.
  - apply Forall_app. split; [done|]. constructor; [|done]. apply HP. lia.
  - rewrite !length_app. simpl. lia.
Qed.

Lemma runWords_long (seg : Segment) (content : bytes) :
  Forall (fun w => 2 < len w) (runWords seg content).
Proof. by apply (scanWords_inv (fun w => 2 < len w)). Qed.

Lemma imap_guard_words (c : bytes -> bool)
    (mk : nat -> bytes -> WordOccurrence) (sw : list bytes) :
  (forall i w, Word (mk i w) = w) ->
  Word <$> mjoin (imap (fun i w => if c w then [mk i w] else []) sw)
  = filter (fun w => c w = true) sw.
Proof.
  revert mk. induction sw as [|w sw IH]; intros mk Hmk; [done|].
  rewrite imap_cons, filter_cons. simpl. rewrite fmap_app.
  rewrite <- (IH (mk ∘ S)) by (intros; apply Hmk).
  destruct (c w); case_decide; try done. simpl. by rewrite Hmk.
Qed.

Lemma emitUnigrams_words content cur off mwl words sw sp :
  Word <$> emitUnigrams content cur off mwl words sw sp
  = filter (fun w => mwl <= len w) sw.
Proof.
  unfold emitUnigrams.
  rewrite (imap_guard_words (fun w => mwl <=? len w)
    (fun i w => {| Word := w; Position := off + cur + sp !!! i;
                   Context := extractContext content (cur + sp !!! i)
                                (len (words !!! i)) |})) by done.
  apply list_filter_iff. intros w. lia.
Qed.

Lemma emitNGrams_elem p content cur off words sw sp o :
  o ∈ emitNGrams p content cur off words sw sp <->
  exists n i, minNGram p <= n /\ n <= maxNGram p /\ 0 <= i
    /\ i + n <= len sw /\ o = ngramAt content cur off words sw sp n i.
Proof.
  unfold emitNGrams. rewrite list_elem_of_bind. split.
  - intros (n & Ho & Hn). apply list_elem_of_bind in Ho as (i & Ho & Hi).
    apply elem_of_seqZ in Hn, Hi. apply list_elem_of_singleton in Ho.
    exists n, i. repeat split; try done; lia.
  - intros (n & i & ? & ? & ? & ? & ->). exists n. split.
    + apply list_elem_of_bind. exists i. split; [by left|].
      apply elem_of_seqZ. lia.
    + apply elem_of_seqZ. lia.
Qed.

Lemma NewParser_minNGram gm cfg : 1 <= minNGram (NewParser gm cfg).
Proof. unfold NewParser. simpl. case_match; lia. Qed.

(** In unigram mode a run emits its significant words of at least
    [minWordLen] bytes, and nothing else. *)
Lemma run_unigram p seg content cur off mwl :
  minNGram p = 1 ->
  Word <$> textNodeOccurrences p seg content cur off mwl
  = filter (fun w => mwl <= len w) (runWords seg content).
Proof.
  intros Hmin. unfold textNodeOccurrences, runWords.
  destruct (Z.eqb_spec (len (Fields (Value seg content))) 0) as [E|_].
  { destruct (Fields (Value seg content)); [done|]. unfold len in E.
    simpl in E. lia. }
  destruct (scanWords _ _ _ _ _ _) as [sw sp]. simpl.
  destruct (Z.eqb_spec (len sw) 0) as [E|_].
  { destruct sw; [done|]. unfold len in E. simpl in E. lia. }
  rewrite Hmin. simpl. apply emitUnigrams_words.
Qed.

(** In n-gram mode a run emits the n-grams of its significant words, for
    every length from [minNGram] to [maxNGram] and every start index. *)
Lemma run_ngram p seg content cur off mwl w :
  1 < minNGram p ->
  w ∈ Word <$> textNodeOccurrences p seg content cur off mwl <->
  exists n i, minNGram p <= n /\ n <= maxNGram p /\ 0 <= i
    /\ i + n <= len (runWords seg content)
    /\ w = Join (slice (runWords seg content) i (i + n)) (str " ").
Proof.
  intros Hmin. unfold textNodeOccurrences, runWords.
  destruct (Z.eqb_spec (len (Fields (Value seg content))) 0) as [E|_].
  { destruct (Fields (Value seg content)); [|unfold len in E; simpl in E; lia].
    simpl. split; [by intros ?%elem_of_nil|].
    intros (n & i & ? & ? & ? & Hl & _). unfold len in Hl. simpl in Hl. lia. }
  destruct (scanWords _ _ _ _ _ _) as [sw sp]. simpl.
  destruct (Z.eqb_spec (len sw) 0) as [E|_].
  { split; [by intros ?%elem_of_nil|].
    intros (n & i & ? & ? & ? & Hl & _). lia. }
  destruct (Z.eqb_spec (minNGram p) 1) as [?|_]; [lia|].
  destruct (Z.leb_spec (minNGram p) (len sw)).
  - rewrite list_elem_of_fmap. split.
    + intros (o & -> & Ho). apply emitNGrams_elem in Ho
        as (n & i & ? & ? & ? & ? & ->). by exists n, i.
    + intros (n & i & ? & ? & ? & ? & ->).
      exists (ngramAt content cur off (Fields (Value seg content)) sw sp n i).
      split; [done|]. apply emitNGrams_elem. by exists n, i.
  - split; [by intros ?%elem_of_nil|].
    intros (n & i & ? & ? & ? & Hl & _). lia.
Qed.

(** The n-gram loops do not look at [minWordLen]. *)
Lemma run_ngram_minWordLen p seg content cur off mwl mwl' :
  minNGram p <> 1 ->
  textNodeOccurrences p seg content cur off mwl
  = textNodeOccurrences p seg content cur off mwl'.
Proof.
  intros Hmin. unfold textNodeOccurrences.
  destruct (Z.eqb_spec (minNGram p) 1); [done|]. done.
Qed.

Lemma Join_long (ws : list bytes) (sep : bytes) :
  ws <> [] -> Forall (fun w => 2 < len w) ws -> 2 < len (Join ws sep).
Proof.
  intros Hne Hws. destruct Hws as [|w ws Hw _]; [done|].
  destruct ws as [|w' ws]; [done|].
  rewrite Join_cons. unfold len in *. rewrite length_app. lia.
Qed.

(** Every reported term has at least three bytes. *)
Lemma run_words_long gm cfg seg content cur off mwl w :
  w ∈ Word <$> textNodeOccurrences (NewParser gm cfg) seg content cur off mwl
  -> 2 < len w.
Proof.
  pose proof (NewParser_minNGram gm cfg) as Hmin.
  pose proof (runWords_long seg content) as Hlong.
  destruct (decide (minNGram (NewParser gm cfg) = 1)) as [E|E].
  - rewrite run_unigram by done. intros [_ Hw]%list_elem_of_filter.
    by eapply Forall_forall in Hlong.
  - rewrite run_ngram by lia. intros (n & i & ? & ? & ? & ? & ->).
    apply Join_long.
    + intros Hnil. apply (f_equal len) in Hnil.
      rewrite length_slice in Hnil by lia. unfold len in Hnil.
      simpl in Hnil. lia.
    + by apply Forall_slice.
Qed.

Lemma run_minWordLen gm cfg seg content cur off mwl t :
  let p := NewParser gm cfg in
  t ∈ Word <$> textNodeOccurrences p seg content cur off mwl <->
  t ∈ Word <$> textNodeOccurrences p seg content cur off 1
  /\ (minNGram p = 1 -> mwl <= len t).
Proof.
  intros p. destruct (decide (minNGram p = 1)) as [E|E].
  - rewrite !run_unigram by done. rewrite !list_elem_of_filter.
    pose proof (runWords_long seg content) as Hlong.
    rewrite Forall_forall in Hlong. split.
    + intros [? Ht]. specialize (Hlong _ Ht). repeat split; [lia|done|done].
    + intros [[_ Ht] Hm]. split; [by apply Hm|done].
  - rewrite (run_ngram_minWordLen p seg content cur off mwl 1) by done.
    split; [|by intros [? _]]. intros Ht. split; [done|]. by intros ?.
Qed.

Lemma elem_of_fmap_bind {A B C} (f : B -> C) (g : A -> list B) (l : list A)
    (c : C) :
  c ∈ f <$> (l ≫= g) <-> exists a, a ∈ l /\ c ∈ f <$> g a.
Proof.
  rewrite list_elem_of_fmap. split.
  - intros (y & -> & Hy). apply list_elem_of_bind in Hy as (a & Hy & Ha).
    exists a. split; [done|]. apply list_elem_of_fmap. by exists y.
  - intros (a & Ha & Hc). apply list_elem_of_fmap in Hc as (y & -> & Hy).
    exists y. split; [done|]. apply list_elem_of_bind. by exists a.
Qed.

(** *** The sorted result *)

Lemma lessPosition_StrictWeak : StrictWeak lessPosition.
Proof.
  split; unfold lessPosition; intros; lia.
Qed.

Lemma FindWordOccurrences_perm `{GoSort} p content mwl :
  FindWordOccurrences p content mwl ≡ₚ walkOccurrences p content mwl.
Proof. apply sort_Slice_perm. Qed.

(** Whatever [sort.Slice] does with equal positions, the positions of the
    result never decrease. *)
Lemma FindWordOccurrences_sorted `{GoSort} p content mwl :
  StronglySorted Z.le (Position <$> FindWordOccurrences p content mwl).
Proof.
  unfold FindWordOccurrences.
  eapply StronglySorted_fmap;
    [|apply sort_Slice_sorted, lessPosition_StrictWeak].
  unfold lessPosition. intros x y. simpl. lia.
Qed.

Lemma FindWordOccurrences_words `{GoSort} p content mwl t :
  t ∈ Word <$> FindWordOccurrences p content mwl <->
  exists seg, seg ∈ textSegments (md p (skipFrontmatter content).1)
    /\ t ∈ Word <$> textNodeOccurrences p seg (skipFrontmatter content).1
             (Start seg) (skipFrontmatter content).2 mwl.
Proof.
  rewrite FindWordOccurrences_perm, walkOccurrences_runs.
  apply elem_of_fmap_bind.
Qed.

(** *** The frequency table *)

Lemma fold_incr_dom (l : list WordOccurrence) (m0 : gmap bytes Z) :
  dom (fold_left (fun wordFreq occ => incr wordFreq (Word occ)) l m0)
  = dom m0 ∪ list_to_set (Word <$> l).
Proof.
  revert m0. induction l as [|o l IH]; intros m0; simpl.
  - by rewrite (right_id_L ∅ (∪)).
  - rewrite IH. unfold incr. rewrite dom_insert_L.
    rewrite (comm_L (∪) {[Word o]} (dom m0)). by rewrite (assoc_L (∪)).
Qed.

(** The keys of the table are the terms reported with [minWordLen = 1]. *)
Lemma ParseContent_dom `{GoSort} p content t :
  t ∈ dom (ParseContent p content) <->
  t ∈ Word <$> FindWordOccurrences p content 1.
Proof.
  unfold ParseContent. rewrite fold_incr_dom, dom_empty_L.
  by rewrite (left_id_L ∅ (∪)), elem_of_list_to_set.
Qed.

Lemma ParseContent_terms_long `{GoSort} gm cfg content t :
  t ∈ dom (ParseContent (NewParser gm cfg) content) -> 3 <= len t.
Proof.
  rewrite ParseContent_dom, FindWordOccurrences_words.
  intros (seg & _ & Ht). apply run_words_long in Ht. lia.
Qed.

(** A one-line paragraph of plain text, as goldmark parses it: a document
    with one paragraph holding one text node that spans the line. *)
Definition plainParagraph (content : bytes) : Node :=
  OtherNode
    [OtherNode
       [TextNode {| Start := 0; Stop := len content; Padding := 0 |} []]].

(** *** The link splice *)

Lemma slice_split (content : bytes) (lo hi : Z) :
  0 <= lo -> lo <= hi -> hi <= len content ->
  content = slice content 0 lo ++ slice content lo hi ++ slice_from content hi.
Proof.
  unfold slice, slice_from, len. intros Hlo Hhi Hlen.
  rewrite Z.sub_0_r. change (Z.to_nat 0) with 0%nat. rewrite drop_0.
  replace (Z.to_nat hi) with (Z.to_nat lo + Z.to_nat (hi - lo))%nat by lia.
  rewrite <- drop_drop, !take_drop. done.
Qed.

(** C6. [InsertLink] fails when the position is out of bounds, when the word
    would run past the end of the content, or when the bytes at the position
    are not the word; in every other case it succeeds, and the result is the
    content with exactly the span of the word replaced by [[word](target)]:
    the bytes before and after the span are kept as they are. *)
Theorem InsertLink_contract (content word target : bytes) (position : Z) :
  let fails :=
    position < 0 \/ len content <= position
    \/ len content < position + len word
    \/ slice content position (position + len word) <> word in
  (fails -> exists e, InsertLink content word target position = inl e)
  /\ (~ fails ->
      exists before after,
        content = before ++ word ++ after
        /\ len before = position
        /\ InsertLink content word target position
           = inr (before ++ str "[" ++ word ++ str "](" ++ target ++ str ")"
                    ++ after)).
Proof.
  intros fails. unfold InsertLink.
  destruct (position <? 0) eqn:E1; simpl.
  { split; [eauto|]. intros Hn. exfalso. apply Hn. left. lia. }
  destruct (len content <=? position) eqn:E2; simpl.
  { split; [eauto|]. intros Hn. exfalso. apply Hn. right. left. lia. }
  destruct (len content <? position + len word) eqn:E3.
  { split; [eauto|]. intros Hn. exfalso. apply Hn. right. right. left. lia. }
  case_bool_decide as E4; simpl.
  - split.
    + intros [?|[?|[?|?]]]; [lia|lia|lia|done].
    + intros _.
      exists (slice content 0 position),
        (slice_from content (position + len word)).
      split; [|split].
      * pose proof (slice_split content position (position + len word)) as E.
        rewrite E4 in E. apply E; unfold len in *; lia.
      * rewrite length_slice; unfold len in *; lia.
      * unfold linkText. by rewrite <- !app_assoc.
  - split; [eauto|]. intros Hn. exfalso. apply Hn. by repeat right.
Qed.

(** *** The tests of the repository, on the model *)

Definition view (o : WordOccurrence) : bytes * Z := (Word o, Position o).

Example test_single_word_occurrences :
  view <$> @FindWordOccurrences insertionSortRuntime
             (NewParser plainParagraph {| MinNGram := 1; MaxNGram := 1 |})
             (str "This is a test document about testing") 3
  = [(str "test", 10); (str "document", 15); (str "about", 24);
     (str "testing", 30)].
Proof. vm_compute. reflexivity. Qed.

Example test_multiple_ngram_lengths :
  view <$> @FindWordOccurrences insertionSortRuntime
             (NewParser plainParagraph {| MinNGram := 2; MaxNGram := 3 |})
             (str "This is a test document about testing") 3
  = [(str "test document", 10); (str "test document about", 10);
     (str "document about", 15); (str "document about testing", 15);
     (str "about testing", 24)].
Proof. vm_compute. reflexivity. Qed.

Example test_with_frontmatter :
  let nl := ["010"%char] in
  view <$> @FindWordOccurrences insertionSortRuntime
             (NewParser plainParagraph {| MinNGram := 2; MaxNGram := 2 |})
             (str "--- # Test" ++ nl ++ str "title: Test" ++ nl ++ str "---"
                ++ nl ++ str "This is a test document") 3
  = [(str "test document", 37)].
Proof. vm_compute. reflexivity. Qed.

Example test_unigrams_only :
  let table := @ParseContent insertionSortRuntime
                 (NewParser plainParagraph {| MinNGram := 1; MaxNGram := 1 |})
                 (str "This is a simple test document") in
  table !! str "simple" = Some 1 /\ table !! str "test" = Some 1
  /\ table !! str "document" = Some 1 /\ size table = 3%nat.
Proof. vm_compute. done. Qed.

Example test_simple_link_insertion :
  InsertLink (str "This is a test document") (str "test") (str "target.md") 10
  = inr (str "This is a [test](target.md) document").
Proof. vm_compute. reflexivity. Qed.

Example test_invalid_position :
  InsertLink (str "Short text") (str "word") (str "target.md") 20
  = inl (ErrOutOfRange 20 10).
Proof. vm_compute. reflexivity. Qed.

Example test_word_mismatch :
  InsertLink (str "This is a test document") (str "wrong") (str "target.md") 10
  = inl (ErrMismatch 10 (str "test ") (str "wrong")).
Proof. vm_compute. reflexivity. Qed.

(** *** The claims about the tokenizer *)

(** C4, at a content with thirteen occurrences.  The walk generates the
    bigrams of the run before its trigrams, and [sort.Slice] is then free to
    return the occurrences of one position in either order: under a sort
    that meets its contract the trigram at position 6 comes before the
    bigram at position 6, so the shorter n-gram is not always first. *)
Theorem FindWordOccurrences_tie_order_not_kept :
  let p := NewParser plainParagraph {| MinNGram := 2; MaxNGram := 3 |} in
  let content :=
    str "alpha bravo charlie delta echoes foxtrot golfing hotels" in
  length (walkOccurrences p content 3) = 13%nat
  /\ view <$> take 2 (walkOccurrences p content 3)
     = [(str "alpha bravo", 0); (str "bravo charlie", 6)]
  /\ view <$> take 4 (@FindWordOccurrences mergeSortRuntime p content 3)
     = [(str "alpha bravo", 0); (str "alpha bravo charlie", 0);
        (str "bravo charlie delta", 6); (str "bravo charlie", 6)].
Proof. vm_compute. done. Qed.

(** C5, as the claim states it, fails in unigram mode: with the range
    [1, 2] the run "alpha bravo charlie" has three significant words, 2 is a
    length of the range, and the bigram "alpha bravo" is not emitted. *)
Lemma ngram_range_not_covered_in_unigram_mode :
  let p := NewParser plainParagraph {| MinNGram := 1; MaxNGram := 2 |} in
  let text := str "alpha bravo charlie" in
  let seg := {| Start := 0; Stop := 19; Padding := 0 |} in
  runWords seg text = [str "alpha"; str "bravo"; str "charlie"]
  /\ (minNGram p <= 2 /\ 2 <= maxNGram p)
  /\ Join (slice (runWords seg text) 0 2) (str " ") = str "alpha bravo"
  /\ Word <$> textNodeOccurrences p seg text 0 0 1
     = [str "alpha"; str "bravo"; str "charlie"]
  /\ str "alpha bravo"
       ∉ Word <$> @FindWordOccurrences insertionSortRuntime p text 1.
Proof.
  repeat split; try (vm_compute; congruence).
  apply (bool_decide_unpack _). vm_compute. done.
Qed.

(** C5, as the code has it.  The occurrences of a document are those of its
    text runs, each run taken alone.  With [minNGram = 1] a run emits its
    significant words of at least [minWordLen] bytes and no longer n-gram,
    whatever [maxNGram] is.  With [minNGram > 1] a run emits exactly the
    n-grams of its significant words for every length from [minNGram] to
    [maxNGram] and every start index: no unigram, and nothing when the run
    has fewer than [minNGram] significant words. *)
Theorem ngram_generation `{GoSort} gm cfg content mwl :
  let p := NewParser gm cfg in
  let body := (skipFrontmatter content).1 in
  let off := (skipFrontmatter content).2 in
  FindWordOccurrences p content mwl
    ≡ₚ (textSegments (md p body) ≫= fun seg =>
          textNodeOccurrences p seg body (Start seg) off mwl)
  /\ (minNGram p = 1 \/ 1 < minNGram p)
  /\ forall seg text cur off,
       let sw := runWords seg text in
       let emitted := Word <$> textNodeOccurrences p seg text cur off mwl in
       (minNGram p = 1 -> emitted = filter (fun w => mwl <= len w) sw)
       /\ (1 < minNGram p ->
           forall w, w ∈ emitted <->
             exists n i, minNGram p <= n /\ n <= maxNGram p /\ 0 <= i
               /\ i + n <= len sw
               /\ w = Join (slice sw i (i + n)) (str " ")).
Proof.
  intros p body off. split; [|split].
  - rewrite FindWordOccurrences_perm. by rewrite walkOccurrences_runs.
  - pose proof (NewParser_minNGram gm cfg) as Hmin. fold p in Hmin. lia.
  - intros seg text cur off' sw emitted. split.
    + intros Hmin. by apply run_unigram.
    + intros Hmin w. by apply run_ngram.
Qed.

(** C8, as the claim states it, fails: no content has a term of at most two
    bytes in its frequency table. *)
Lemma no_short_term_in_table :
  ~ exists (S : GoSort) gm cfg content t,
      t ∈ dom (ParseContent (NewParser gm cfg) content)
      /\ len t <= 2
      /\ forall mwl,
           t ∉ Word <$> FindWordOccurrences (NewParser gm cfg) content mwl.
Proof.
  intros (S & gm & cfg & content & t & Ht & Hshort & _).
  apply ParseContent_terms_long in Ht. lia.
Qed.

(** The one difference between the two paths: a floor above three bytes. *)
Example minWordLen_above_three :
  let p := NewParser plainParagraph {| MinNGram := 1; MaxNGram := 1 |} in
  let content := str "This is a test document" in
  str "test" ∈ dom (@ParseContent insertionSortRuntime p content)
  /\ Word <$> @FindWordOccurrences insertionSortRuntime p content 5
     = [str "document"].
Proof.
  split; [|vm_compute; reflexivity].
  apply ParseContent_dom. apply (bool_decide_unpack _). vm_compute. done.
Qed.

(** C8, as the code has it.  Words of at most two bytes are dropped before
    either path sees them: every term of the frequency table has at least
    three bytes.  The terms [FindWordOccurrences] reports are the terms of
    the table, except that in unigram mode those shorter than [minWordLen]
    are left out; so the two differ only for [minWordLen > 3]. *)
Theorem short_words_dropped_on_both_paths `{GoSort} gm cfg content :
  let p := NewParser gm cfg in
  (forall t, t ∈ dom (ParseContent p content) -> 3 <= len t)
  /\ (forall mwl t,
        t ∈ Word <$> FindWordOccurrences p content mwl <->
        t ∈ dom (ParseContent p content)
        /\ (minNGram p = 1 -> mwl <= len t)).
Proof.
  intros p. split.
  - intros t. apply ParseContent_terms_long.
  - intros mwl t. rewrite ParseContent_dom, !FindWordOccurrences_words.
    split.
    + intros (seg & Hseg & Ht). apply run_minWordLen in Ht as [Ht Hm].
      split; [by exists seg|done].
    + intros [(seg & Hseg & Ht) Hm]. exists seg. split; [done|].
      by apply run_minWordLen.
Qed.

(** *** The helpers of the package *)

Lemma slice_one {A} (l : list A) (i : nat) (x : A) :
  l !! i = Some x -> slice l (Z.of_nat i) (Z.of_nat i + 1) = [x].
Proof.
  intros Hx. unfold slice. rewrite Nat2Z.id.
  replace (Z.to_nat (Z.of_nat i + 1 - Z.of_nat i)) with 1%nat by lia.
  by rewrite (drop_S _ _ _ Hx).
Qed.

Lemma bind_ext_elem {A B} (f g : A -> list B) (l : list A) :
  (forall x, x ∈ l -> f x = g x) -> l ≫= f = l ≫= g.
Proof.
  induction l as [|x l IH]; intros Hfg; [done|]. rewrite !bind_cons.
  rewrite Hfg by left. f_equal. apply IH. intros y Hy. apply Hfg. by right.
Qed.

Lemma fmap_bind_elem {A B C} (f : B -> C) (g : A -> list B) (l : list A) :
  f <$> (l ≫= g) = l ≫= fun x => f <$> g x.
Proof.
  induction l as [|x l IH]; [done|]. rewrite !bind_cons.
  by rewrite fmap_app, IH.
Qed.

(** X1. [generateNGrams] returns its input unchanged when [n] is not
    positive or exceeds the number of words; otherwise it returns
    [len(words) - n + 1] terms, the one at index [i] being the words
    [i .. i+n-1] joined by single spaces; at [n = 1] these are the words
    themselves. *)
Theorem generateNGrams_spec (words : list bytes) (n : Z) :
  (n <= 0 \/ len words < n -> generateNGrams words n = words)
  /\ (0 < n <= len words ->
      len (generateNGrams words n) = len words - n + 1
      /\ forall i, 0 <= i <= len words - n ->
           generateNGrams words n !! Z.to_nat i
           = Some (Join (slice words i (i + n)) (str " ")))
  /\ generateNGrams words 1 = words.
Proof.
  unfold generateNGrams. split; [|split].
  - intros Hn.
    destruct (Z.leb_spec n 0); destruct (Z.ltb_spec (len words) n);
      try done; lia.
  - intros Hn.
    destruct (Z.leb_spec n 0); destruct (Z.ltb_spec (len words) n);
      try lia. simpl. split.
    + unfold len at 1. rewrite length_fmap, length_seqZ. lia.
    + intros i Hi. rewrite list_lookup_fmap, lookup_seqZ_lt by lia.
      simpl. do 3 f_equal; lia.
  - destruct (Z.ltb_spec (len words) 1); [done|]. simpl.
    apply list_eq. intros i. rewrite list_lookup_fmap.
    destruct (words !! i) as [w|] eqn:Hw.
    + apply lookup_lt_Some in Hw as Hlt. unfold len.
      rewrite lookup_seqZ_lt by lia. simpl. rewrite Z.add_0_l.
      by rewrite (slice_one _ _ _ Hw).
    + apply lookup_ge_None in Hw. unfold len.
      rewrite lookup_seqZ_ge by lia. done.
Qed.

(** The words the scanning loop keeps are normalized words that passed its
    three tests. *)
Lemma scanWords_kept (P : bytes -> Prop) tc words :
  (forall word, word ∈ words ->
     let normalized := ToLower (Trim word trimCutset) in
     IndexFunc_none normalized (fun r => negb (isDigit r)) = false ->
     isFunctionWord normalized = false ->
     2 < len normalized -> P normalized) ->
  forall i pos sw sp,
    Forall P sw -> Forall P (scanWords tc words i pos sw sp).1.
Proof.
  induction words as [|word rest IH]; intros HP i pos sw sp Hsw;
    simpl; [done|].
  specialize (IH (fun w Hw => HP w (list_elem_of_further _ _ _ Hw))).
  specialize (HP word (list_elem_of_here _ _)). simpl in HP.
  destruct (IndexFunc_none (ToLower (Trim word trimCutset)) _) eqn:E1;
    [by apply IH|].
  destruct (isFunctionWord (ToLower (Trim word trimCutset))) eqn:E2;
    [by apply IH|].
  destruct (Z.leb_spec (len (ToLower (Trim word trimCutset))) 2);
    [by apply IH|].
  destruct (negb _); [|by apply IH].
  apply IH. apply Forall_app. split; [done|].
  constructor; [|done]. apply HP; [done|done|lia].
Qed.

(** X2. Every word the tokenizer keeps from a text run is significant in
    the sense of [isSignificantWord], has at least three bytes and is in
    lower case. *)
Theorem runWords_significant (seg : Segment) (content : bytes) :
  Forall (fun w => isSignificantWord w = true /\ 3 <= len w /\ ToLower w = w)
    (runWords seg content).
Proof.
  unfold runWords. apply scanWords_kept; [|constructor].
  intros word _ normalized Hdigits Hfunction Hlen.
  unfold isSignificantWord. rewrite Hfunction, Hdigits.
  repeat split; [lia|]. apply ToLower_ToLower.
Qed.

(** X3. In n-gram mode the terms of a text run are those of
    [generateNGrams] on its significant words, for the lengths from
    [minNGram] to the smaller of [maxNGram] and the number of significant
    words, in this order. *)
Theorem ngram_terms_generateNGrams p seg content cur off mwl :
  1 < minNGram p ->
  Word <$> textNodeOccurrences p seg content cur off mwl
  = seqZ (minNGram p)
      (Z.min (maxNGram p) (len (runWords seg content)) - minNGram p + 1)
    ≫= generateNGrams (runWords seg content).
Proof.
  intros Hmin. unfold textNodeOccurrences, runWords.
  assert (forall k, k < minNGram p ->
    seqZ (minNGram p) (Z.min (maxNGram p) k - minNGram p + 1) = [])
    as Hnone.
  { intros k Hk. apply length_zero_iff_nil. rewrite length_seqZ. lia. }
  destruct (Z.eqb_spec (len (Fields (Value seg content))) 0) as [E|_].
  { destruct (Fields (Value seg content)); [|unfold len in E; simpl in E; lia].
    simpl. rewrite Hnone; [done|]. change (len []) with 0. lia. }
  destruct (scanWords _ _ _ _ _ _) as [sw sp]. simpl.
  destruct (Z.eqb_spec (len sw) 0) as [E|_].
  { rewrite Hnone; [done|lia]. }
  destruct (Z.eqb_spec (minNGram p) 1) as [?|_]; [lia|].
  destruct (Z.leb_spec (minNGram p) (len sw)); [|by rewrite Hnone].
  unfold emitNGrams. rewrite fmap_bind_elem. apply bind_ext_elem.
  intros n Hn. apply elem_of_seqZ in Hn. unfold generateNGrams.
  destruct (Z.leb_spec n 0); [lia|].
  destruct (Z.ltb_spec (len sw) n); [lia|]. simpl.
  rewrite fmap_bind_elem. generalize (seqZ 0 (len sw - n + 1)).
  intros l. induction l as [|i l IH]; [done|].
  rewrite bind_cons, fmap_cons, IH. done.
Qed.

Lemma ngram_terms_generateNGrams_witness :
  let p := NewParser plainParagraph {| MinNGram := 2; MaxNGram := 3 |} in
  let content := str "This is a test document about testing" in
  let seg := {| Start := 0; Stop := len content; Padding := 0 |} in
  1 < minNGram p
  /\ Word <$> textNodeOccurrences p seg content 0 0 3
     = seqZ (minNGram p)
         (Z.min (maxNGram p) (len (runWords seg content)) - minNGram p + 1)
       ≫= generateNGrams (runWords seg content).
Proof.
  intros p content seg. split; [vm_compute; reflexivity|].
  apply (ngram_terms_generateNGrams p seg content 0 0 3).
  vm_compute. reflexivity.
Defined.

(** *** Front matter *)


Lemma IndexByte_found (s : bytes) (c : ascii) :
  IndexByte s c <> -1 ->
  0 <= IndexByte s c /\ s !! Z.to_nat (IndexByte s c) = Some c.
Proof.
  unfold IndexByte. intros Hne.
  destruct (Index_found s [c]) as [?|[Hge [rest Hrest]]]; [done|].
  split; [done|]. unfold slice_from in Hrest.
  rewrite <- (Nat.add_0_r (Z.to_nat _)), <- lookup_drop, Hrest. done.
Qed.

(** X4. [skipFrontmatter] returns a suffix of the content together with the
    number of bytes before it; without a leading [---] or [+++] it returns
    the content and 0; and when it skips anything, the skipped part ends
    with a line feed. *)
Theorem skipFrontmatter_spec (content : bytes) :
  let rest := (skipFrontmatter content).1 in
  let skipped := (skipFrontmatter content).2 in
  0 <= skipped <= len content
  /\ rest = slice_from content skipped
  /\ len rest = len content - skipped
  /\ (HasPrefix content (str "---") = false ->
      HasPrefix content (str "+++") = false ->
      rest = content /\ skipped = 0)
  /\ (0 < skipped ->
      content !! Z.to_nat (skipped - 1) = Some "010"%char).
Proof.
  assert (forall c : bytes,
    0 <= 0 <= len c /\ c = slice_from c 0 /\ len c = len c - 0
    /\ (HasPrefix c (str "---") = false -> HasPrefix c (str "+++") = false ->
        c = c /\ 0 = 0)
    /\ (0 < 0 -> c !! Z.to_nat (0 - 1) = Some "010"%char)) as Hsame.
  { intros c. unfold len. repeat split; try done; lia. }
  cbv zeta. unfold skipFrontmatter.
  destruct (3 <? len content); [|apply Hsame]. cbn [andb].
  destruct (HasPrefix content (str "---") || HasPrefix content (str "+++"))
    eqn:Hpre; [|apply Hsame].
  set (rest1 := slice_from content 3).
  destruct (Z.eqb_spec (IndexByte rest1 "010"%char) (-1)) as [|Hnl1];
    [apply Hsame|]. cbn [negb].
  set (rest2 := slice_from rest1 (IndexByte rest1 "010"%char + 1)).
  set (delimiter := if HasPrefix content (str "---") then _ else _).
  destruct (Z.eqb_spec (Index rest2 delimiter) (-1)) as [|Hidx];
    [apply Hsame|]. cbn [negb].
  set (closeRest := slice_from rest2 (Index rest2 delimiter + 3)).
  destruct (Z.eqb_spec (IndexByte closeRest "010"%char) (-1)) as [|Hnl2];
    [apply Hsame|]. cbn [negb fst snd].
  destruct (IndexByte_found _ _ Hnl2) as [Hge Hlf].
  set (nl := IndexByte closeRest "010"%char) in *.
  assert (exists k, closeRest = drop k content) as [k Hk].
  { unfold closeRest, rest2, rest1, slice_from. rewrite !drop_drop. eauto. }
  rewrite Hk in Hlf. rewrite lookup_drop in Hlf.
  apply lookup_lt_Some in Hlf as Hlt.
  assert (slice_from closeRest (nl + 1) = drop (k + Z.to_nat nl + 1) content)
    as Hrest.
  { unfold slice_from. rewrite Hk, drop_drop. f_equal. lia. }
  rewrite Hrest. unfold len, slice_from. rewrite length_drop.
  split; [lia|]. split; [f_equal; lia|]. split; [lia|]. split.
  - intros H1 H2. by rewrite H1, H2 in Hpre.
  - intros _. rewrite <- Hlf. f_equal. lia.
Qed.

(** *** The context of an occurrence *)

(** X5. The context of an occurrence is at most the word, [contextSize]
    bytes on either side and two ellipses long; its only white space is
    single spaces; and when the window covers the whole content it is the
    content with its white space collapsed, without ellipses. *)
Theorem extractContext_bounds (content : bytes) (position wordLen : Z) :
  0 <= wordLen ->
  len (extractContext content position wordLen)
    <= wordLen + 2 * contextSize + 6
  /\ Forall (fun c => isSpace c = true -> c = " "%char)
       (extractContext content position wordLen)
  /\ (0 <= position <= contextSize ->
      len content <= position + wordLen + contextSize ->
      extractContext content position wordLen
      = Join (Fields (ReplaceAll1 content "010"%char " "%char)) (str " ")).
Proof.
  intros Hw. unfold extractContext, contextSize.
  set (start := if position - 50 <? 0 then 0 else position - 50).
  set (end_ := if len content <? position + wordLen + 50 then len content
               else position + wordLen + 50).
  set (context := ReplaceAll1 (slice content start end_) _ _).
  assert (len context <= wordLen + 100) as Hctx.
  { unfold context, ReplaceAll1, slice, len.
    rewrite length_map, length_take. subst start end_.
    destruct (Z.ltb_spec (position - 50) 0);
      destruct (Z.ltb_spec (len content) (position + wordLen + 50));
      unfold len in *; lia. }
  pose proof (Join_Fields_length context) as Hjoin.
  assert (forall c : bool, len (if c then str "..." else []) <= 3) as Hdots.
  { intros []; unfold len; simpl; lia. }
  split; [|split].
  - pose proof (Hdots (0 <? start)). pose proof (Hdots (end_ <? len content)).
    unfold len in *. rewrite !length_app. lia.
  - assert (forall c : bool,
      Forall (fun c => isSpace c = true -> c = " "%char)
        (if c then str "..." else [])) as Hnosp.
    { intros []; [|constructor]. repeat constructor; by vm_compute. }
    rewrite !Forall_app. repeat split; [apply Hnosp| |apply Hnosp].
    apply Join_fields_space, Fields_is_field.
  - intros Hpos Hend.
    assert (start = 0) as Hs.
    { subst start. destruct (Z.ltb_spec (position - 50) 0); lia. }
    assert (end_ = len content) as He.
    { subst end_.
      destruct (Z.ltb_spec (len content) (position + wordLen + 50)); lia. }
    subst context. rewrite Hs, He, !Z.ltb_irrefl, app_nil_l, app_nil_r.
    unfold slice, len. by rewrite Z.sub_0_r, Nat2Z.id, drop_0, firstn_all.
Qed.

Lemma extractContext_bounds_witness :
  0 <= 4
  /\ len (extractContext (str "This is a test document") 10 4) <= 4 + 100 + 6.
Proof.
  split; [lia|].
  apply (extractContext_bounds (str "This is a test document") 10 4). lia.
Defined.

(** *** Content without words *)

Lemma bind_all_nil {A B} (f : A -> list B) (l : list A) :
  (forall x, f x = []) -> l ≫= f = [].
Proof.
  intros Hf. induction l as [|x l IH]; [done|].
  by rewrite bind_cons, Hf, IH.
Qed.

(** X6. A content of white space only, the empty content included, has no
    occurrences and an empty frequency table, whatever the parser makes of
    it. *)
Theorem whitespace_only_content `{GoSort} (p : Parser) (content : bytes)
    (minWordLen : Z) :
  Forall (fun c => isSpace c = true) content ->
  FindWordOccurrences p content minWordLen = []
  /\ ParseContent p content = ∅.
Proof.
  intros Hsp.
  assert (forall pre, pre = str "---" \/ pre = str "+++" ->
    HasPrefix content pre = false) as Hpre.
  { intros pre Hp. destruct Hsp as [|c s Hc _]; [by destruct Hp as [->| ->]|].
    destruct Hp as [->| ->]; simpl; case_bool_decide; subst; done. }
  assert (skipFrontmatter content = (content, 0)) as Hskip.
  { unfold skipFrontmatter. rewrite !Hpre by auto.
    by rewrite andb_false_r. }
  assert (forall mwl, FindWordOccurrences p content mwl = []) as Hnone.
  { intros mwl. apply Permutation_nil_r.
    rewrite FindWordOccurrences_perm, walkOccurrences_runs, Hskip. simpl.
    rewrite bind_all_nil; [done|]. intros seg. unfold textNodeOccurrences.
    assert (Fields (Value seg content) = []) as ->; [|done].
    apply fields_from_spaces. unfold Value.
    destruct (Padding seg =? 0); [by apply Forall_slice|].
    apply Forall_app. split; [|by apply Forall_slice].
    apply Forall_replicate. by vm_compute. }
  split; [apply Hnone|]. unfold ParseContent. by rewrite Hnone.
Qed.

Lemma whitespace_only_content_witness :
  let content := str "  " ++ ["010"%char; "009"%char] in
  Forall (fun c => isSpace c = true) content
  /\ @FindWordOccurrences mergeSortRuntime
       (NewParser plainParagraph {| MinNGram := 1; MaxNGram := 1 |}) content 3
     = [].
Proof.
  intros content.
  assert (Forall (fun c => isSpace c = true) content) as Hsp
    by (repeat constructor).
  split; [exact Hsp|].
  apply (@whitespace_only_content mergeSortRuntime
           (NewParser plainParagraph {| MinNGram := 1; MaxNGram := 1 |})
           content 3 Hsp).
Defined.

(** *** The counts of the table *)

Lemma fold_incr_lookup (l : list WordOccurrence) (m0 : gmap bytes Z)
    (t : bytes) :
  fold_left (fun wordFreq occ => incr wordFreq (Word occ)) l m0 !! t
  = let n := len (filter (fun o => Word o = t) l) in
    if n =? 0 then m0 !! t else Some (default 0 (m0 !! t) + n).
Proof.
  revert m0. induction l as [|o l IH]; intros m0; [done|].
  cbn [fold_left]. rewrite IH. cbv zeta. rewrite filter_cons. unfold incr.
  destruct (decide (Word o = t)) as [E|Hne]; [|by rewrite lookup_insert_ne].
  unfold len. rewrite length_cons.
  generalize (length (filter (fun o0 => Word o0 = t) l)). intros n.
  rewrite E, lookup_insert_eq. generalize (default 0 (m0 !! t)). intros d.
  change (default 0 (Some (d + 1))) with (d + 1).
  destruct (Z.eqb_spec (Z.of_nat n) 0);
    destruct (Z.eqb_spec (Z.of_nat (S n)) 0); try lia; f_equal; lia.
Qed.

(** X7. The frequency table maps a term to the number of its occurrences
    that [FindWordOccurrences] reports at [minWordLen = 1], and holds no
    term that has none: no count of the table is below 1. *)
Theorem ParseContent_counts `{GoSort} (p : Parser) (content t : bytes) :
  ParseContent p content !! t
  = let n := len (filter (fun o => Word o = t)
                    (FindWordOccurrences p content 1)) in
    if n =? 0 then None else Some n.
Proof.
  unfold ParseContent. rewrite fold_incr_lookup. cbv zeta.
  rewrite lookup_empty. simpl. by rewrite Z.add_0_l.
Qed.

Lemma ParseContent_positive `{GoSort} (p : Parser) (content t : bytes) n :
  ParseContent p content !! t = Some n -> 1 <= n.
Proof.
  unfold ParseContent. rewrite fold_incr_lookup, lookup_empty. cbv zeta.
  cbn [default].
  generalize (filter (fun o => Word o = t) (FindWordOccurrences p content 1)).
  intros l. destruct (Z.eqb_spec (len l) 0); [done|]. intros [= <-].
  unfold len in *. lia.
Qed.

(** *** Where a word is found *)

(** [located tc w q]: the kept word [w] is the normalized form of a field
    of the run's text [tc] that occurs at byte [q] of [tc]. *)
Definition located (tc w : bytes) (q : Z) : Prop :=
  exists raw, raw ∈ Fields tc /\ w = ToLower (Trim raw trimCutset)
    /\ 0 <= q /\ slice tc q (q + len raw) = raw.

Lemma Index_slice (s sep : bytes) :
  Index s sep <> -1 ->
  0 <= Index s sep
  /\ exists rest, slice_from s (Index s sep) = sep ++ rest.
Proof. intros Hne. by destruct (Index_found s sep) as [?|?]. Qed.

Lemma scanWords_located (tc : bytes) (words : list bytes) :
  Forall (fun w => w ∈ Fields tc) words ->
  forall i pos sw sp,
    0 <= i -> 0 <= pos -> (i = 0 -> pos = 0) ->
    Forall2 (located tc) sw sp -> StronglySorted Z.lt sp ->
    Forall (fun q => q < pos) sp ->
    Forall2 (located tc) (scanWords tc words i pos sw sp).1
      (scanWords tc words i pos sw sp).2
    /\ StronglySorted Z.lt (scanWords tc words i pos sw sp).2.
Proof.
  induction 1 as [|word rest Hword _ IH];
    intros i pos sw sp Hi Hpos H0 Hloc Hsorted Hbelow; [done|].
  assert (forall r : list bytes * list Z,
    r = scanWords tc rest (i + 1) pos sw sp ->
    Forall2 (located tc) r.1 r.2 /\ StronglySorted Z.lt r.2) as Hskip.
  { intros r ->. apply IH; try done; lia. }
  cbn [scanWords]. cbv zeta.
  destruct (IndexFunc_none (ToLower (Trim word trimCutset)) _);
    [by apply Hskip|].
  destruct (isFunctionWord (ToLower (Trim word trimCutset)));
    [by apply Hskip|].
  destruct (len (ToLower (Trim word trimCutset)) <=? 2); [by apply Hskip|].
  set (wordPos := if i =? 0 then _ else _).
  destruct (Z.eqb_spec wordPos (-1)) as [|Hfound]; [by apply Hskip|].
  cbn [negb].
  assert (0 < len word) as Hlen.
  { pose proof (Fields_is_field tc) as Hf. rewrite Forall_forall in Hf.
    destruct (Hf _ Hword) as [Hne _]. unfold len.
    destruct word; [done|]. simpl. lia. }
  assert (pos <= wordPos /\ slice tc wordPos (wordPos + len word) = word)
    as [Hge Hat].
  { subst wordPos. destruct (Z.eqb_spec i 0) as [Hi0|_].
    - destruct (Index_slice tc word Hfound) as [? [tl Htl]].
      split; [specialize (H0 Hi0); lia|].
      by apply (slice_from_prefix _ _ tl).
    - destruct (Z.eqb_spec (Index (slice_from tc pos) word) (-1))
        as [E|Hne]; [done|]. cbn [negb] in *.
      destruct (Index_slice _ word Hne) as [? [tl Htl]].
      split; [lia|]. apply (slice_from_prefix _ _ tl); [lia|].
      rewrite <- Htl. unfold slice_from in *. rewrite drop_drop.
      f_equal. lia. }
  apply IH; try lia.
  - apply Forall2_app; [done|]. constructor; [|constructor].
    exists word. repeat split; try done. lia.
  - apply StronglySorted_app_2; [|done|repeat constructor].
    intros q1 q2 Hq1 ->%list_elem_of_singleton.
    rewrite Forall_forall in Hbelow. specialize (Hbelow _ Hq1). lia.
  - apply Forall_app. split; [|constructor; [lia|constructor]].
    eapply Forall_impl; [exact Hbelow|]. intros q Hq. simpl in Hq. lia.
Qed.

(** X8. The positions recorded for the significant words of a text run
    increase strictly, and each is a byte offset of the run at which the
    raw field occurs whose normalized form is the recorded word. *)
Theorem run_positions (seg : Segment) (content : bytes) :
  let tc := Value seg content in
  let r := scanWords tc (Fields tc) 0 0 [] [] in
  Forall2 (located tc) r.1 r.2 /\ StronglySorted Z.lt r.2.
Proof.
  intros tc r. subst r. apply scanWords_located; try done.
  - by apply Forall_forall.
  - constructor.
Qed.







(** *** Links, one after another *)

Lemma InsertLink_inv (content word target : bytes) (position : Z)
    (result : bytes) :
  InsertLink content word target position = inr result ->
  exists before after,
    content = before ++ word ++ after /\ len before = position
    /\ word ++ after <> []
    /\ result = before ++ linkText word target ++ after.
Proof.
  unfold InsertLink.
  destruct (Z.ltb_spec position 0); [done|].
  destruct (Z.leb_spec (len content) position); [done|]. cbn [orb].
  destruct (Z.ltb_spec (len content) (position + len word)); [done|].
  case_bool_decide as Hword; [|done]. cbn [negb]. intros [= <-].
  exists (slice content 0 position),
    (slice_from content (position + len word)).
  pose proof (slice_split content position (position + len word)) as E.
  rewrite Hword in E.
  assert (len (slice content 0 position) = position) as Hlen.
  { rewrite length_slice; unfold len in *; lia. }
  split; [apply E; unfold len in *; lia|]. split; [done|]. split.
  - intros Hnil. rewrite E in H0 by (unfold len in *; lia).
    rewrite Hnil, app_nil_r in H0. lia.
  - by rewrite <- app_assoc.
Qed.

Lemma InsertLink_at (before word after target : bytes) :
  word ++ after <> [] ->
  InsertLink (before ++ word ++ after) word target (len before)
  = inr (before ++ linkText word target ++ after).
Proof.
  intros Hne. unfold InsertLink.
  assert (0 < len (word ++ after)) as Hpos.
  { unfold len. destruct (word ++ after); [done|]. simpl. lia. }
  unfold len in *. rewrite !length_app in *.
  destruct (Z.ltb_spec (Z.of_nat (length before)) 0); [lia|].
  destruct (Z.leb_spec
    (Z.of_nat (length before + (length word + length after)))
    (Z.of_nat (length before))); [lia|]. cbn [orb].
  destruct (Z.ltb_spec
    (Z.of_nat (length before + (length word + length after)))
    (Z.of_nat (length before) + Z.of_nat (length word))); [lia|].
  unfold slice, slice_from.
  replace (Z.to_nat (Z.of_nat (length before) + Z.of_nat (length word)
                     - Z.of_nat (length before)))
    with (length word) by lia.
  replace (Z.to_nat (Z.of_nat (length before) + Z.of_nat (length word)))
    with (length before + length word)%nat by lia.
  rewrite Z.sub_0_r, !Nat2Z.id, drop_0, drop_app_length, !take_app_length.
  rewrite bool_decide_true by done. cbn [negb].
  rewrite <- drop_drop, drop_app_length, drop_app_length.
  by rewrite app_nil_l, <- app_assoc.
Qed.

(** X10. After a successful [InsertLink] the result is longer than the
    content by the target and four bytes and holds the link at the position;
    inserting again at the same position, for a word that is not empty and
    does not start with an opening bracket, fails: the word is no longer
    there. *)
Theorem InsertLink_result (content word target : bytes) (position : Z)
    (result : bytes) :
  InsertLink content word target position = inr result ->
  len result = len content + len target + 4
  /\ slice result position (position + len (linkText word target))
     = linkText word target
  /\ (word <> [] -> head word <> Some "["%char ->
      forall target',
        InsertLink result word target' position
        = inl (ErrMismatch position
                 (slice result position (position + len word)) word)).
Proof.
  intros (before & after & -> & <- & Hne & ->)%InsertLink_inv.
  unfold linkText, len. split; [|split].
  - rewrite !length_app. simpl. lia.
  - unfold slice. rewrite Nat2Z.id, drop_app_length.
    replace (Z.to_nat _) with
      (length (str "[" ++ word ++ str "](" ++ target ++ str ")")) by lia.
    by rewrite take_app_length.
  - intros Hword Hhead target'. unfold InsertLink, len.
    rewrite !length_app. cbn [length str list_ascii_of_string].
    destruct (Z.ltb_spec (Z.of_nat (length before)) 0); [lia|].
    match goal with |- context [?a <=? ?b] =>
      destruct (Z.leb_spec a b); [lia|] end. cbn [orb].
    match goal with |- context [?a <? ?b + ?c] =>
      destruct (Z.ltb_spec a (b + c)); [lia|] end.
    rewrite bool_decide_false; [done|].
    unfold slice. rewrite Nat2Z.id, drop_app_length.
    destruct word as [|c word]; [done|]. simpl in Hhead.
    replace (Z.to_nat _) with (S (length word))
      by (cbn [length]; lia).
    simpl. intros [= <- _]. done.
Qed.

Lemma InsertLink_result_witness :
  let content := str "This is a test document" in
  let result := str "This is a [test](target.md) document" in
  InsertLink content (str "test") (str "target.md") 10 = inr result
  /\ len result = len content + len (str "target.md") + 4.
Proof.
  intros content result.
  assert (InsertLink content (str "test") (str "target.md") 10 = inr result)
    as Hok by (vm_compute; reflexivity).
  split; [exact Hok|].
  apply (InsertLink_result content (str "test") (str "target.md") 10 result
           Hok).
Defined.

(** Two spans of one content that do not overlap, and the two results of
    linking one of them. *)
Lemma InsertLink_spans (content w1 t1 w2 t2 : bytes) (p1 p2 : Z)
    (r1 r2 : bytes) :
  InsertLink content w1 t1 p1 = inr r1 ->
  InsertLink content w2 t2 p2 = inr r2 ->
  p1 + len w1 <= p2 ->
  exists b m a,
    len b = p1 /\ len (b ++ w1 ++ m) = p2 /\ w2 ++ a <> []
    /\ r1 = b ++ linkText w1 t1 ++ m ++ w2 ++ a
    /\ r2 = b ++ w1 ++ m ++ linkText w2 t2 ++ a.
Proof.
  intros (b1 & a1 & Hc1 & <- & Hne1 & ->)%InsertLink_inv.
  intros (b2 & a2 & Hc2 & <- & Hne2 & ->)%InsertLink_inv Hle.
  assert (exists m, b2 = b1 ++ w1 ++ m /\ a1 = m ++ w2 ++ a2) as (m & -> & ->).
  { rewrite Hc1, (app_assoc b1 w1 a1) in Hc2.
    apply app_eq_inv in Hc2 as [(k & Hk1 & Hk2)|(k & Hk1 & Hk2)].
    - apply (f_equal length) in Hk1 as Hlen. rewrite !length_app in Hlen.
      unfold len in Hle. destruct k; [|simpl in Hlen; lia].
      rewrite app_nil_r in Hk1. rewrite app_nil_l in Hk2.
      exists []. by rewrite app_nil_r, app_nil_l, <- Hk1, Hk2.
    - exists k. by rewrite Hk1, <- app_assoc. }
  exists b1, m, a2. repeat split; try done. by rewrite <- !app_assoc.
Qed.

(** X11. Two links whose spans do not overlap can be inserted in either
    order with the same result, but not at the same positions: after the
    later one the earlier position still holds; after the earlier one the
    later word has moved right by the length of the first target and four
    bytes, and an insertion at its old position, if it succeeds at all,
    gives another result. *)
Theorem InsertLink_twice (content w1 t1 w2 t2 : bytes) (p1 p2 : Z)
    (r1 r2 : bytes) :
  InsertLink content w1 t1 p1 = inr r1 ->
  InsertLink content w2 t2 p2 = inr r2 ->
  p1 + len w1 <= p2 ->
  exists r,
    InsertLink r2 w1 t1 p1 = inr r
    /\ InsertLink r1 w2 t2 (p2 + len t1 + 4) = inr r
    /\ (w2 <> [] -> head w2 <> Some "["%char ->
        forall r', InsertLink r1 w2 t2 p2 = inr r' -> r' <> r).
Proof.
  intros H1 H2 Hle.
  destruct (InsertLink_spans _ _ _ _ _ _ _ _ _ H1 H2 Hle)
    as (b & m & a & <- & <- & Hne & -> & ->). clear H1 H2 Hle.
  exists (b ++ linkText w1 t1 ++ m ++ linkText w2 t2 ++ a).
  split; [|split].
  - apply InsertLink_at. unfold linkText. intros Hnil%(f_equal length).
    rewrite !length_app in Hnil. simpl in Hnil. lia.
  - replace (len (b ++ w1 ++ m) + len t1 + 4)
      with (len (b ++ linkText w1 t1 ++ m)).
    2:{ unfold linkText, len. rewrite !length_app. simpl. lia. }
    replace (b ++ linkText w1 t1 ++ m ++ w2 ++ a)
      with ((b ++ linkText w1 t1 ++ m) ++ w2 ++ a)
      by (by rewrite <- !app_assoc).
    rewrite InsertLink_at by done. by rewrite <- !app_assoc.
  - intros Hw2 Hhead r' (b' & a' & Hr1 & Hlen & _ & ->)%InsertLink_inv Heq.
    apply (f_equal (fun l => l !! length b')) in Heq.
    rewrite (lookup_app_r b' _ (length b')), Nat.sub_diag in Heq by lia.
    replace (b ++ linkText w1 t1 ++ m ++ linkText w2 t2 ++ a)
      with ((b ++ linkText w1 t1 ++ m) ++ linkText w2 t2 ++ a) in Heq
      by (by rewrite <- !app_assoc).
    assert (length b' < length (b ++ linkText w1 t1 ++ m))%nat as Hlt.
    { unfold len, linkText in *. rewrite !length_app in *. simpl. lia. }
    rewrite (lookup_app_l (b ++ linkText w1 t1 ++ m)) in Heq by lia.
    apply (f_equal (fun l => l !! length b')) in Hr1.
    replace (b ++ linkText w1 t1 ++ m ++ w2 ++ a)
      with ((b ++ linkText w1 t1 ++ m) ++ w2 ++ a) in Hr1
      by (by rewrite <- !app_assoc).
    rewrite (lookup_app_l (b ++ linkText w1 t1 ++ m)) in Hr1 by lia.
    rewrite (lookup_app_r b' _ (length b')), Nat.sub_diag in Hr1 by lia.
    rewrite <- Heq in Hr1. destruct w2 as [|c w2]; [done|].
    simpl in *. congruence.
Qed.

Lemma InsertLink_twice_witness :
  let content := str "This is a test document" in
  InsertLink content (str "test") (str "a.md") 10
    = inr (str "This is a [test](a.md) document")
  /\ InsertLink content (str "document") (str "b.md") 15
    = inr (str "This is a test [document](b.md)")
  /\ 10 + len (str "test") <= 15
  /\ exists r,
       InsertLink (str "This is a test [document](b.md)") (str "test")
         (str "a.md") 10 = inr r
       /\ InsertLink (str "This is a [test](a.md) document") (str "document")
            (str "b.md") (15 + len (str "a.md") + 4) = inr r
       /\ (str "document" <> [] -> head (str "document") <> Some "["%char ->
           forall r',
             InsertLink (str "This is a [test](a.md) document")
               (str "document") (str "b.md") 15 = inr r' -> r' <> r).
Proof.
  intros content.
  assert (InsertLink content (str "test") (str "a.md") 10
          = inr (str "This is a [test](a.md) document")) as H1
    by (vm_compute; reflexivity).
  assert (InsertLink content (str "document") (str "b.md") 15
          = inr (str "This is a test [document](b.md)")) as H2
    by (vm_compute; reflexivity).
  assert (10 + len (str "test") <= 15) as H3 by (vm_compute; discriminate).
  repeat split; try done.
  apply (InsertLink_twice content _ _ _ _ _ _ _ _ H1 H2 H3).
Defined.

(** *** The order of the result *)

Lemma NoDup_fmap_elem {A B} (f : A -> B) (l : list A) (x y : A) :
  NoDup (f <$> l) -> x ∈ l -> y ∈ l -> f x = f y -> x = y.
Proof.
  intros Hnd [i Hi]%list_elem_of_lookup [j Hj]%list_elem_of_lookup Hf.
  assert (i = j) as ->; [|congruence].
  apply (NoDup_lookup _ i j (f x) Hnd); rewrite list_lookup_fmap.
  - by rewrite Hi.
  - by rewrite Hj, Hf.
Qed.

(** X12. [FindWordOccurrences] returns the occurrences of the walk,
    rearranged so that positions never decrease; when no two occurrences
    share a position the result is the same under every [sort.Slice]. *)
Theorem FindWordOccurrences_order (R1 R2 : GoSort) (p : Parser)
    (content : bytes) (minWordLen : Z) :
  StronglySorted Z.le
    (Position <$> @FindWordOccurrences R1 p content minWordLen)
  /\ @FindWordOccurrences R1 p content minWordLen
     ≡ₚ walkOccurrences p content minWordLen
  /\ (NoDup (Position <$> walkOccurrences p content minWordLen) ->
      @FindWordOccurrences R1 p content minWordLen
      = @FindWordOccurrences R2 p content minWordLen).
Proof.
  split; [apply FindWordOccurrences_sorted|].
  split; [apply FindWordOccurrences_perm|]. intros Hnd.
  apply (StronglySorted_unique_strong
           (fun x y => lessPosition y x = false)).
  - intros x1 x2 Hx1 Hx2 H12 H21.
    rewrite (@FindWordOccurrences_perm R1) in Hx1.
    rewrite (@FindWordOccurrences_perm R2) in Hx2.
    apply (NoDup_fmap_elem Position _ _ _ Hnd Hx1 Hx2).
    unfold lessPosition in *. lia.
  - apply sort_Slice_sorted, lessPosition_StrictWeak.
  - apply sort_Slice_sorted, lessPosition_StrictWeak.
  - by rewrite !FindWordOccurrences_perm.
Qed.

End markdown.

(** ** float64 *)

Module F64.

Inductive float64 :=
| Fin (r : R)
| PInf
| NInf
| NaN.

(** [float64(n)] *)
Definition of_int (n : Z) : float64 := Fin (IZR n).

Definition add (x y : float64) : float64 :=
  match x, y with
  | NaN, _ | _, NaN => NaN
  | Fin a, Fin c => Fin (a + c)
  | PInf, NInf | NInf, PInf => NaN
  | PInf, _ | _, PInf => PInf
  | NInf, _ | _, NInf => NInf
  end.

Definition neg (x : float64) : float64 :=
  match x with
  | Fin a => Fin (- a)
  | PInf => NInf
  | NInf => PInf
  | NaN => NaN
  end.

Definition sub (x y : float64) : float64 := add x (neg y).

(** An infinity times or over a finite value: zero gives [NaN] in a product
    and keeps the sign in a quotient; a negative value flips the sign. *)
Definition signed (a : R) (inf : float64) : float64 :=
  if Rlt_dec a 0 then neg inf else inf.

Definition mul (x y : float64) : float64 :=
  match x, y with
  | NaN, _ | _, NaN => NaN
  | Fin a, Fin c => Fin (a * c)
  | Fin a, inf | inf, Fin a => if Req_dec_T a 0 then NaN else signed a inf
  | PInf, PInf | NInf, NInf => PInf
  | PInf, NInf | NInf, PInf => NInf
  end.

Definition div (x y : float64) : float64 :=
  match x, y with
  | NaN, _ | _, NaN => NaN
  | Fin a, Fin c =>
      if Req_dec_T c 0
      then if Req_dec_T a 0 then NaN else signed a PInf
      else Fin (a / c)
  | Fin _, _ => Fin 0
  | inf, Fin c => signed c inf
  | _, _ => NaN
  end.

(** [math.Log] *)
Definition Log (x : float64) : float64 :=
  match x with
  | Fin a =>
      if Req_dec_T a 0 then NInf
      else if Rlt_dec a 0 then NaN else Fin (ln a)
  | PInf => PInf
  | NInf | NaN => NaN
  end.

(** [x > y] and [x >= y]: false as soon as one side is [NaN]. *)
Definition gt (x y : float64) : bool :=
  match x, y with
  | NaN, _ | _, NaN => false
  | Fin a, Fin c => if Rlt_dec c a then true else false
  | PInf, PInf | NInf, _ | Fin _, PInf => false
  | PInf, _ | Fin _, NInf => true
  end.

Definition ge (x y : float64) : bool :=
  match x, y with
  | NaN, _ | _, NaN => false
  | Fin a, Fin c => if Rle_dec c a then true else false
  | PInf, _ | _, NInf => true
  | _, _ => false
  end.

Lemma add_Fin (a c : R) : add (Fin a) (Fin c) = Fin (a + c).
Proof. reflexivity. Qed.

Lemma sub_Fin (a c : R) : sub (Fin a) (Fin c) = Fin (a - c).
Proof. reflexivity. Qed.

Lemma mul_Fin (a c : R) : mul (Fin a) (Fin c) = Fin (a * c).
Proof. reflexivity. Qed.

Lemma div_Fin (a c : R) : c <> 0%R -> div (Fin a) (Fin c) = Fin (a / c).
Proof. intros Hc. unfold div. by destruct (Req_dec_T c 0). Qed.

Lemma Log_Fin (a : R) : (0 < a)%R -> Log (Fin a) = Fin (ln a).
Proof.
  intros Ha. unfold Log.
  destruct (Req_dec_T a 0); [lra|]. destruct (Rlt_dec a 0); [lra|done].
Qed.

Lemma ge_not_NaN (x m : float64) : ge x m = true -> x <> NaN.
Proof. by destruct x. Qed.

Lemma gt_irrefl (x : float64) : gt x x = false.
Proof.
  destruct x as [a| | |]; simpl; try done.
  destruct (Rlt_dec a a); [lra|done].
Qed.

Lemma gt_asym (x y : float64) : gt x y = true -> gt y x = false.
Proof.
  destruct x as [a| | |], y as [c| | |]; simpl; try done.
  destruct (Rlt_dec c a), (Rlt_dec a c); try done. lra.
Qed.

(** Without [NaN] in the middle, "not greater than" is transitive. *)
Lemma gt_negtrans (x y z : float64) :
  y <> NaN -> gt x y = false -> gt y z = false -> gt x z = false.
Proof.
  destruct x as [a| | |], y as [c| | |], z as [e| | |]; simpl; try done.
  destruct (Rlt_dec c a), (Rlt_dec e c), (Rlt_dec e a); try done. lra.
Qed.

#[global] Arguments add : simpl never.
#[global] Arguments sub : simpl never.
#[global] Arguments mul : simpl never.
#[global] Arguments div : simpl never.
#[global] Arguments Log : simpl never.

End F64.

(** ** pkg/scorer: the BM25 ranker *)

Module scorer.
Import Go F64.

(** A markdown document with its content and metadata. *)
Record Document := {
  Path : bytes;
  Content : bytes;
  WordFreq : gmap bytes Z
}.

(** A suggested internal link.  The field [Score] of the source is
    [LinkScore] here, [Score] being the method below. *)
Record LinkSuggestion := {
  SourcePath : bytes;
  TargetPath : bytes;
  LinkScore : float64;
  Context : bytes;
  WordToLink : bytes;
  Position : Z
}.

(** The scorer keeps pointers to documents that nothing changes once they
    are processed: they are held by value. *)
Record BM25Scorer := {
  k1 : float64;
  b : float64;
  docs : list Document;
  avgdl : float64;
  idf : gmap bytes float64;
  maxNGram : Z
}.

Definition NewBM25Scorer (maxNGram : Z) : BM25Scorer := {|
  k1 := Fin 1.2;
  b := Fin 0.75;
  docs := [];
  avgdl := Fin 0;
  idf := ∅;
  maxNGram := maxNGram
|}.

Definition min (a b : Z) : Z := if a <? b then a else b.

(** [docCount]: one is added for each document that has the term. *)
Definition docCount (ds : list Document) (term : bytes) : float64 :=
  fold_left
    (fun docCount d =>
       match WordFreq d !! term with
       | Some _ => add docCount (Fin 1)
       | None => docCount
       end)
    ds (Fin 0).

(** The body of the loop over terms: a term with a cached value is skipped. *)
Definition idfStep (ds : list Document) (N : float64)
    (idf : gmap bytes float64) (term : bytes) : gmap bytes float64 :=
  match idf !! term with
  | Some _ => idf
  | None =>
      let docCount := docCount ds term in
      <[term := Log (add (Fin 1)
                       (div (add (sub N docCount) (Fin 0.5))
                            (add docCount (Fin 0.5))))]> idf
  end.

Definition calculateIDF `{GoMapRange} (s : BM25Scorer) : BM25Scorer :=
  let N := of_int (len (docs s)) in
  let idf :=
    fold_left
      (fun idf doc =>
         fold_left (fun idf kv => idfStep (docs s) N idf kv.1)
           (range (WordFreq doc)) idf)
      (docs s) (idf s) in
  {| k1 := k1 s; b := b s; docs := docs s; avgdl := avgdl s; idf := idf;
     maxNGram := maxNGram s |}.

(** [len(d.WordFreq)] *)
Definition tableLen (d : Document) : Z := Z.of_nat (size (WordFreq d)).

(** [ProcessDocument]; its error result is always [nil]. *)
Definition ProcessDocument `{GoMapRange} (s : BM25Scorer) (doc : Document)
  : BM25Scorer :=
  let docs := docs s ++ [doc] in
  let totalLength :=
    fold_left (fun totalLength d => totalLength + tableLen d) docs 0 in
  let avgdl := div (of_int totalLength) (of_int (len docs)) in
  calculateIDF
    {| k1 := k1 s; b := b s; docs := docs; avgdl := avgdl; idf := idf s;
       maxNGram := maxNGram s |}.

(** The n-grams of the query: [allQueryTerms]. *)
Definition queryNGrams (queryTerms : list bytes) (maxNGram : Z)
  : list bytes :=
  let ngramLimit := min (len queryTerms) maxNGram in
  n ← seqZ 1 ngramLimit;
  i ← seqZ 0 (len queryTerms - n + 1);
  [Join (slice queryTerms i (i + n)) (str " ")].

(** The body of the loop over [allQueryTerms], on [score] and [hasMatch]. *)
Definition scoreStep (s : BM25Scorer) (doc : Document) (docLen : float64)
    (st : float64 * bool) (term : bytes) : float64 * bool :=
  match WordFreq doc !! term with
  | None => st
  | Some termFreq =>
      match idf s !! term with
      | None => st
      | Some idf =>
          let numerator := mul (of_int termFreq) (add (k1 s) (Fin 1)) in
          let denominator :=
            add (of_int termFreq)
              (mul (k1 s)
                 (add (sub (Fin 1) (b s))
                    (div (mul (b s) docLen) (avgdl s)))) in
          let termLength := of_int (len (Fields term)) in
          let lengthBoost :=
            add (Fin 1) (mul (Fin 0.5) (sub termLength (Fin 1))) in
          (add st.1 (mul (div (mul idf numerator) denominator) lengthBoost),
           true)
      end
  end.

Definition Score (s : BM25Scorer) (query : bytes) (doc : Document)
  : float64 :=
  let docLen := of_int (tableLen doc) in
  let queryTerms := Fields (ToLower query) in
  let allQueryTerms := queryNGrams queryTerms (maxNGram s) in
  let '(score, hasMatch) :=
    fold_left (scoreStep s doc docLen) allQueryTerms (Fin 0, false) in
  if negb hasMatch then Fin 0 else score.

(** The corpus after a sequence of [ProcessDocument] calls. *)
Definition processAll `{GoMapRange} (s : BM25Scorer) (ds : list Document)
  : BM25Scorer :=
  fold_left ProcessDocument ds s.

(** *** The corpus statistics *)

(** [df]: the number of documents whose table has the term. *)
Definition df (ds : list Document) (term : bytes) : Z :=
  len (filter (fun d => is_Some (WordFreq d !! term)) ds).

(** The sum of the distinct-term counts of the documents. *)
Definition totalLength (ds : list Document) : Z :=
  foldr Z.add 0 (tableLen <$> ds).

(** The value [calculateIDF] stores for a term it has not seen before. *)
Definition newIDF (ds : list Document) (term : bytes) : float64 :=
  Log (add (Fin 1)
         (div (add (sub (of_int (len ds)) (docCount ds term)) (Fin 0.5))
              (add (docCount ds term) (Fin 0.5)))).

Lemma df_app ds1 ds2 t : df (ds1 ++ ds2) t = df ds1 t + df ds2 t.
Proof. unfold df, len. rewrite filter_app, length_app. lia. Qed.

Lemma df_range ds t : 0 <= df ds t <= len ds.
Proof.
  unfold df, len. pose proof (length_filter
    (fun d => is_Some (WordFreq d !! t)) ds). lia.
Qed.

Lemma df_pos ds t :
  0 < df ds t <-> exists d, d ∈ ds /\ is_Some (WordFreq d !! t).
Proof.
  unfold df, len. split.
  - intros Hpos.
    destruct (filter (fun d => is_Some (WordFreq d !! t)) ds) as [|d l] eqn:E;
      [simpl in Hpos; lia|].
    assert (d ∈ filter (fun d => is_Some (WordFreq d !! t)) ds) as Hd
      by (rewrite E; left).
    apply list_elem_of_filter in Hd as [? ?]. by exists d.
  - intros (d & Hd & Ht).
    assert (d ∈ filter (fun d => is_Some (WordFreq d !! t)) ds) as Hin
      by by apply list_elem_of_filter.
    destruct (filter _ ds); [by apply elem_of_nil in Hin|]. simpl. lia.
Qed.

Lemma docCount_df ds t : docCount ds t = Fin (IZR (df ds t)).
Proof.
  unfold docCount. change (Fin 0) with (Fin (IZR 0)).
  rewrite <- (Z.add_0_l (df ds t)). generalize 0 as k.
  induction ds as [|d ds IH]; intros k.
  - simpl. by rewrite Z.add_0_r.
  - change (d :: ds) with ([d] ++ ds). rewrite df_app, Z.add_assoc. simpl.
    destruct (WordFreq d !! t) eqn:E.
    + rewrite add_Fin, <- plus_IZR, IH. do 3 f_equal. unfold df, len.
      rewrite filter_cons_True by (rewrite E; eauto). simpl. lia.
    + rewrite IH. do 3 f_equal. unfold df, len.
      rewrite filter_cons_False by (rewrite E; by intros [? ?]). simpl. lia.
Qed.

(** The stored value, as a real number. *)
Lemma newIDF_real ds t :
  let N := IZR (len ds) in
  let n := IZR (df ds t) in
  newIDF ds t = Fin (ln (1 + (N - n + 0.5) / (n + 0.5)))
  /\ (0 < ln (1 + (N - n + 0.5) / (n + 0.5)))%R.
Proof.
  intros N n. pose proof (df_range ds t) as [H0 HN].
  apply IZR_le in H0, HN. fold N n in H0, HN.
  assert (0 < (N - n + 0.5) / (n + 0.5))%R as Hx
    by (apply Rdiv_lt_0_compat; lra).
  split.
  - unfold newIDF. rewrite docCount_df. fold n. unfold of_int. fold N.
    rewrite sub_Fin, !add_Fin, div_Fin, add_Fin, Log_Fin by lra. done.
  - rewrite <- ln_1. apply ln_increasing; lra.
Qed.

Lemma fold_idfStep ds (terms : list bytes) idf0 t :
  fold_left (idfStep ds (of_int (len ds))) terms idf0 !! t
  = match idf0 !! t with
    | Some v => Some v
    | None => if bool_decide (t ∈ terms) then Some (newIDF ds t) else None
    end.
Proof.
  revert idf0. induction terms as [|x terms IH]; intros idf0.
  - simpl. by destruct (idf0 !! t).
  - simpl. rewrite IH. clear IH. unfold idfStep.
    destruct (idf0 !! x) eqn:Ex.
    + destruct (idf0 !! t) eqn:Et; [done|].
      rewrite (bool_decide_ext (t ∈ terms) (t ∈ x :: terms)); [done|].
      rewrite elem_of_cons.
      split; [tauto|]. intros [->|?]; [congruence|done].
    + fold (newIDF ds x). destruct (decide (t = x)) as [->|Hne].
      * rewrite lookup_insert_eq, Ex. rewrite bool_decide_eq_true_2; [done|].
        by left.
      * rewrite lookup_insert_ne by done. destruct (idf0 !! t); [done|].
        rewrite (bool_decide_ext (t ∈ terms) (t ∈ x :: terms)); [done|].
        rewrite elem_of_cons. tauto.
Qed.

Lemma fold_left_fst {A B C} (f : A -> B -> A) (l : list (B * C)) (a : A) :
  fold_left (fun a kv => f a kv.1) l a = fold_left f (l.*1) a.
Proof.
  revert a. induction l as [|x l IH]; intros a; simpl; [done|apply IH].
Qed.

Lemma fold_left_bind_fst {A B C D} (f : A -> C -> A) (g : B -> list (C * D))
    (l : list B) (a : A) :
  fold_left (fun a x => fold_left (fun a kv => f a kv.1) (g x) a) l a
  = fold_left f (l ≫= fun x => (g x).*1) a.
Proof.
  revert a. induction l as [|x l IH]; intros a; simpl; [done|].
  by rewrite fold_left_app, fold_left_fst, IH.
Qed.

Lemma range_keys `{GoMapRange} {V} (m : gmap bytes V) (t : bytes) :
  t ∈ (range m).*1 <-> is_Some (m !! t).
Proof.
  rewrite range_perm. rewrite list_elem_of_fmap. split.
  - intros ([k v] & -> & Hkv). apply elem_of_map_to_list in Hkv. eauto.
  - intros [v Hv]. exists (t, v). split; [done|].
    by apply elem_of_map_to_list.
Qed.

(** What one call leaves in the IDF map: a cached value is kept, and a term
    of some document that has no value gets [newIDF]. *)
Lemma ProcessDocument_idf `{GoMapRange} s doc t :
  idf (ProcessDocument s doc) !! t
  = match idf s !! t with
    | Some v => Some v
    | None =>
        if bool_decide (0 < df (docs s ++ [doc]) t)
        then Some (newIDF (docs s ++ [doc]) t) else None
    end.
Proof.
  unfold ProcessDocument, calculateIDF. simpl.
  rewrite (fold_left_bind_fst (idfStep _ _) (fun d => range (WordFreq d))).
  rewrite fold_idfStep. destruct (idf s !! t); [done|].
  rewrite (bool_decide_ext _ (0 < df (docs s ++ [doc]) t)); [done|].
  rewrite df_pos, list_elem_of_bind.
  split; intros (d & ? & ?); exists d; split; try done; by apply range_keys.
Qed.

Lemma fold_totalLength ds k :
  fold_left (fun totalLength d => totalLength + tableLen d) ds k
  = k + totalLength ds.
Proof.
  revert k. induction ds as [|d ds IH]; intros k; cbn [fold_left].
  - unfold totalLength. simpl. lia.
  - rewrite IH. change (totalLength (d :: ds))
      with (tableLen d + totalLength ds). lia.
Qed.

Lemma ProcessDocument_avgdl `{GoMapRange} s doc :
  avgdl (ProcessDocument s doc)
  = Fin (IZR (totalLength (docs s ++ [doc])) / IZR (len (docs s ++ [doc]))).
Proof.
  unfold ProcessDocument, calculateIDF. simpl.
  rewrite fold_totalLength, Z.add_0_l. unfold of_int. apply div_Fin.
  apply not_0_IZR. unfold len. rewrite length_app. simpl. lia.
Qed.

Lemma ProcessDocument_fields `{GoMapRange} s doc :
  docs (ProcessDocument s doc) = docs s ++ [doc]
  /\ k1 (ProcessDocument s doc) = k1 s
  /\ b (ProcessDocument s doc) = b s
  /\ maxNGram (ProcessDocument s doc) = maxNGram s.
Proof. done. Qed.

Lemma processAll_snoc `{GoMapRange} s ds doc :
  processAll s (ds ++ [doc]) = ProcessDocument (processAll s ds) doc.
Proof. unfold processAll. by rewrite fold_left_app. Qed.

Lemma processAll_fields `{GoMapRange} s ds :
  docs (processAll s ds) = docs s ++ ds
  /\ k1 (processAll s ds) = k1 s
  /\ b (processAll s ds) = b s
  /\ maxNGram (processAll s ds) = maxNGram s.
Proof.
  induction ds as [|doc ds IH] using rev_ind.
  - simpl. by rewrite app_nil_r.
  - rewrite processAll_snoc.
    destruct IH as (Hd & Hk & Hb & Hm),
      (ProcessDocument_fields (processAll s ds) doc) as (Hd' & Hk' & Hb' & Hm').
    rewrite Hd', Hk', Hb', Hm', Hd, Hk, Hb, Hm. by rewrite app_assoc.
Qed.

(** A cached value survives every later call. *)
Lemma idf_cached `{GoMapRange} s later t v :
  idf s !! t = Some v -> idf (processAll s later) !! t = Some v.
Proof.
  intros Hv. induction later as [|doc later IH] using rev_ind; [done|].
  by rewrite processAll_snoc, ProcessDocument_idf, IH.
Qed.

(** C2. One call of [ProcessDocument] appends the document, sets the
    average length to the mean of the distinct-term counts of all documents
    processed so far, keeps every cached IDF value, and gives each term of a
    processed document that has no value yet the value
    [ln (1 + (N - df + 0.5) / (df + 0.5))], with [N] the number of documents
    processed so far and [df] the number of them whose table has the term.
    The values in the map after the call stay what they are through every
    later sequence of calls. *)
Theorem ProcessDocument_spec `{GoMapRange} s doc :
  let s' := ProcessDocument s doc in
  let N := len (docs s') in
  docs s' = docs s ++ [doc]
  /\ avgdl s' = Fin (IZR (totalLength (docs s')) / IZR N)
  /\ (forall t,
        idf s' !! t
        = match idf s !! t with
          | Some v => Some v
          | None =>
              let n := df (docs s') t in
              if bool_decide (1 <= n)
              then Some (Fin (ln (1 + (IZR N - IZR n + 0.5) / (IZR n + 0.5))))
              else None
          end)
  /\ (forall later t v,
        idf s' !! t = Some v -> idf (processAll s' later) !! t = Some v).
Proof.
  intros s' N. split; [done|]. split; [apply ProcessDocument_avgdl|].
  split; [|intros later t v; apply idf_cached].
  intros t. unfold s'. rewrite ProcessDocument_idf.
  destruct (idf s !! t); [done|]. simpl.
  rewrite (bool_decide_ext (0 < df (docs s ++ [doc]) t)
             (1 <= df (docs s ++ [doc]) t)) by lia.
  case_bool_decide; [|done]. f_equal.
  apply (newIDF_real (docs s ++ [doc]) t).
Qed.

(** *** The score as a sum *)

(** The sum of a slice of floats, added from the left as [score +=] does. *)
Definition fsum (l : list float64) : float64 := fold_left add l (Fin 0).

(** The BM25 term of the specification, with the length boost. *)
Definition termScore (k1 b : float64) (idf : float64) (tf : Z)
    (docLen avgDocLen : float64) (termWordCount : Z) : float64 :=
  mul
    (div (mul idf (mul (of_int tf) (add k1 (Fin 1))))
       (add (of_int tf)
          (mul k1 (add (sub (Fin 1) b) (div (mul b docLen) avgDocLen)))))
    (add (Fin 1) (mul (Fin 0.5) (sub (of_int termWordCount) (Fin 1)))).

(** What a term adds to the score: nothing unless the document's table and
    the IDF map both have it. *)
Definition contribution (s : BM25Scorer) (doc : Document) (term : bytes)
  : option float64 :=
  match WordFreq doc !! term, idf s !! term with
  | Some tf, Some v =>
      Some (termScore (k1 s) (b s) v tf (of_int (tableLen doc)) (avgdl s)
              (len (Fields term)))
  | _, _ => None
  end.

Lemma scoreStep_contribution s doc st term :
  scoreStep s doc (of_int (tableLen doc)) st term
  = match contribution s doc term with
    | Some c => (add st.1 c, true)
    | None => st
    end.
Proof.
  unfold scoreStep, contribution.
  destruct (WordFreq doc !! term); [|done]. by destruct (idf s !! term).
Qed.

Lemma fold_scoreStep s doc (terms : list bytes) (acc : float64) (h : bool) :
  fold_left (scoreStep s doc (of_int (tableLen doc))) terms (acc, h)
  = (fold_left add (omap (contribution s doc) terms) acc,
     match omap (contribution s doc) terms with [] => h | _ => true end).
Proof.
  revert acc h. induction terms as [|x terms IH]; intros acc h; [done|].
  cbn [fold_left omap list_omap]. rewrite scoreStep_contribution.
  destruct (contribution s doc x) as [c|]; [|apply IH].
  rewrite IH. cbn [fold_left fst]. f_equal.
  by destruct (omap (contribution s doc) terms).
Qed.

Lemma Score_sum s query doc :
  Score s query doc
  = fsum (omap (contribution s doc)
            (queryNGrams (Fields (ToLower query)) (maxNGram s))).
Proof.
  unfold Score. rewrite fold_scoreStep. unfold fsum.
  by destruct (omap (contribution s doc) _).
Qed.

Lemma no_contribution s doc (terms : list bytes) :
  Forall (fun term => WordFreq doc !! term = None \/ idf s !! term = None)
    terms ->
  omap (contribution s doc) terms = [].
Proof.
  induction 1 as [|t terms Ht _ IH]; [done|].
  cbn [omap list_omap].
  replace (contribution s doc t) with (@None float64); [done|].
  unfold contribution. destruct Ht as [-> | ->]; [done|].
  by destruct (WordFreq doc !! t).
Qed.

(** *** The score of the specification *)

(** The contiguous n-grams of exactly [n] words. *)
Definition ngramsOfLength (words : list bytes) (n : Z) : list bytes :=
  (fun i => Join (slice words i (i + n)) (str " "))
    <$> seqZ 0 (len words - n + 1).

(** Every n-gram of length 1 up to min(word count, max n-gram), each with
    its number of words. *)
Definition specTerms (words : list bytes) (maxNGram : Z)
  : list (Z * bytes) :=
  n ← seqZ 1 (Z.min (len words) maxNGram);
  (fun term => (n, term)) <$> ngramsOfLength words n.

(** The sum of the specification: over the generated terms present in the
    document's table and in the IDF map, the BM25 term with [k1 = 1.2],
    [b = 0.75], the distinct-term count as document length and the boost
    of the term's word count. *)
Definition specScore (s : BM25Scorer) (query : bytes) (doc : Document)
  : float64 :=
  fsum (omap
    (fun nt : Z * bytes =>
       match WordFreq doc !! nt.2, idf s !! nt.2 with
       | Some tf, Some v =>
           Some (termScore (Fin 1.2) (Fin 0.75) v tf
                   (of_int (Z.of_nat (size (WordFreq doc)))) (avgdl s) nt.1)
       | _, _ => None
       end)
    (specTerms (Fields (ToLower query)) (maxNGram s))).

Lemma min_Zmin a c : min a c = Z.min a c.
Proof. unfold min. destruct (Z.ltb_spec a c); lia. Qed.

Lemma bind_singleton_fmap {A B} (f : A -> B) (l : list A) :
  (l ≫= fun x => [f x]) = f <$> l.
Proof. induction l as [|x l IH]; [done|]. simpl. by f_equal. Qed.

Lemma fmap_bind_list {A B C} (f : B -> C) (g : A -> list B) (l : list A) :
  f <$> (l ≫= g) = l ≫= fun x => f <$> g x.
Proof.
  induction l as [|x l IH]; [done|]. simpl. rewrite fmap_app. by f_equal.
Qed.

Lemma queryNGrams_specTerms words maxN :
  queryNGrams words maxN = (specTerms words maxN).*2.
Proof.
  unfold queryNGrams, specTerms. rewrite fmap_bind_list, min_Zmin.
  apply list_bind_ext; [|done]. intros n.
  rewrite bind_singleton_fmap. unfold ngramsOfLength.
  rewrite <- !list_fmap_compose. by apply list_fmap_ext.
Qed.

(** A generated n-gram of [n] words splits back into [n] fields. *)
Lemma specTerms_wordCount words maxN n term :
  Forall is_field words ->
  (n, term) ∈ specTerms words maxN -> len (Fields term) = n.
Proof.
  intros Hw. unfold specTerms, ngramsOfLength.
  intros (n' & Hin & Hn)%list_elem_of_bind.
  apply list_elem_of_fmap in Hin as (t & [= -> ->] & Hin).
  apply list_elem_of_fmap in Hin as (i & -> & Hi).
  apply elem_of_seqZ in Hn, Hi.
  rewrite Fields_Join by by apply Forall_slice.
  rewrite length_slice; lia.
Qed.

Lemma omap_snd_ext {A B C} (f : B -> option C) (g : A * B -> option C)
    (l : list (A * B)) :
  (forall x, x ∈ l -> f x.2 = g x) -> omap f (l.*2) = omap g l.
Proof.
  induction l as [|x l IH]; intros Hfg; [done|].
  cbn [fmap list_fmap omap list_omap].
  rewrite (Hfg x) by left. rewrite IH; [done|].
  intros y Hy. apply Hfg. by right.
Qed.

(** The BM25 term as a real number, where no division is by zero. *)
Lemma termScore_real (v : R) (tf : Z) (dl a : R) (n : Z) :
  a <> 0%R ->
  (IZR tf + 1.2 * (1 - 0.75 + 0.75 * dl / a))%R <> 0%R ->
  termScore (Fin 1.2) (Fin 0.75) (Fin v) tf (Fin dl) (Fin a) n
  = Fin (v * (IZR tf * (1.2 + 1))
           / (IZR tf + 1.2 * (1 - 0.75 + 0.75 * dl / a))
           * (1 + 0.5 * (IZR n - 1))).
Proof.
  intros Ha Hden. unfold termScore, of_int.
  rewrite !mul_Fin, !add_Fin, !sub_Fin, (div_Fin _ a) by done.
  rewrite !add_Fin, !mul_Fin, !add_Fin, div_Fin by done.
  by rewrite !mul_Fin.
Qed.

(** C1. After any sequence of [ProcessDocument] calls on a new scorer,
    [Score] is the sum of the specification: the query is lowercased and
    split at white space, every contiguous n-gram of 1 up to
    min(word count, max n-gram) words is generated, and each generated term
    that the document's table and the IDF map both have adds
    [idf * (tf*(k1+1)) / (tf + k1*(1 - b + b*docLen/avgDocLen))
     * (1 + 0.5*(termWordCount - 1))] with [k1 = 1.2], [b = 0.75] and
    [docLen] the number of distinct terms of the document; the other terms
    add nothing.  The second part gives the term as a real number. *)
Theorem Score_formula `{GoMapRange} maxN ds query doc :
  let s := processAll (NewBM25Scorer maxN) ds in
  Score s query doc = specScore s query doc
  /\ forall (v : R) (tf : Z) (dl a : R) (n : Z),
       a <> 0%R ->
       (IZR tf + 1.2 * (1 - 0.75 + 0.75 * dl / a))%R <> 0%R ->
       termScore (Fin 1.2) (Fin 0.75) (Fin v) tf (Fin dl) (Fin a) n
       = Fin (v * (IZR tf * (1.2 + 1))
                / (IZR tf + 1.2 * (1 - 0.75 + 0.75 * dl / a))
                * (1 + 0.5 * (IZR n - 1))).
Proof.
  intros s. split; [|apply termScore_real].
  rewrite Score_sum. unfold specScore. f_equal.
  rewrite queryNGrams_specTerms. apply omap_snd_ext. intros [n t] Hnt.
  unfold contribution. cbn [fst snd].
  destruct (processAll_fields (NewBM25Scorer maxN) ds) as (_ & Hk & Hb & _).
  fold s in Hk, Hb. cbn [k1 b NewBM25Scorer] in Hk, Hb. rewrite Hk, Hb.
  rewrite (specTerms_wordCount _ _ _ _ (Fields_is_field _) Hnt). done.
Qed.

(** *** What holds of every corpus *)

(** The state of a scorer made by [NewBM25Scorer] and fed documents: the two
    constants, a positive finite value for every cached term, each cached
    term in some processed table, and the average length of the corpus. *)
Definition corpusOK (s : BM25Scorer) : Prop :=
  k1 s = Fin 1.2
  /\ b s = Fin 0.75
  /\ (forall t v, idf s !! t = Some v ->
        (exists r, v = Fin r /\ (0 < r)%R) /\ 0 < df (docs s) t)
  /\ (docs s <> [] ->
      avgdl s = Fin (IZR (totalLength (docs s)) / IZR (len (docs s)))).

Lemma corpusOK_new maxN : corpusOK (NewBM25Scorer maxN).
Proof.
  repeat split; try done; intros t v Hv; by rewrite lookup_empty in Hv.
Qed.

Lemma corpusOK_step `{GoMapRange} s doc :
  corpusOK s -> corpusOK (ProcessDocument s doc).
Proof.
  intros (Hk & Hb & Hidf & _). split; [done|]. split; [done|]. split.
  - intros t v. rewrite ProcessDocument_idf.
    change (docs (ProcessDocument s doc)) with (docs s ++ [doc]).
    destruct (idf s !! t) as [v0|] eqn:E.
    + intros [= <-]. destruct (Hidf _ _ E) as [Hv Hdf]. split; [done|].
      rewrite df_app. pose proof (df_range [doc] t). lia.
    + case_bool_decide as Hdf; [|done]. intros [= <-]. split; [|done].
      destruct (newIDF_real (docs s ++ [doc]) t) as [-> Hpos]. eauto.
  - intros _. apply ProcessDocument_avgdl.
Qed.

Lemma corpusOK_processAll `{GoMapRange} maxN ds :
  corpusOK (processAll (NewBM25Scorer maxN) ds).
Proof.
  induction ds as [|doc ds IH] using rev_ind; [apply corpusOK_new|].
  rewrite processAll_snoc. by apply corpusOK_step.
Qed.

Lemma tableLen_nonneg d : 0 <= tableLen d.
Proof. unfold tableLen. lia. Qed.

Lemma tableLen_pos d t : is_Some (WordFreq d !! t) -> 1 <= tableLen d.
Proof.
  intros [tf Ht]. unfold tableLen.
  assert (size (WordFreq d) <> 0%nat); [|lia].
  apply map_size_ne_0_lookup. eauto.
Qed.

Lemma totalLength_elem d ds : d ∈ ds -> tableLen d <= totalLength ds.
Proof.
  induction 1 as [d ds|d d' ds _ IH];
    change (totalLength (?x :: ds)) with (tableLen x + totalLength ds).
  - assert (0 <= totalLength ds); [|lia].
    clear. induction ds as [|d ds IH]; [done|].
    change (totalLength (d :: ds)) with (tableLen d + totalLength ds).
    pose proof (tableLen_nonneg d). lia.
  - pose proof (tableLen_nonneg d'). lia.
Qed.

(** A corpus with a cached term has a positive average length. *)
Lemma corpusOK_avgdl s t v :
  corpusOK s -> idf s !! t = Some v ->
  exists a, avgdl s = Fin a /\ (0 < a)%R.
Proof.
  intros (_ & _ & Hidf & Havg) Hv. destruct (Hidf _ _ Hv) as [_ Hdf].
  apply df_pos in Hdf as (d & Hd & Ht).
  assert (docs s <> []) as Hne by (intros E; rewrite E in Hd; inversion Hd).
  eexists. split; [by apply Havg|].
  pose proof (tableLen_pos _ _ Ht). pose proof (totalLength_elem _ _ Hd).
  assert (1 <= len (docs s)).
  { unfold len. destruct (docs s); [done|]. simpl. lia. }
  apply Rdiv_lt_0_compat; apply IZR_lt; lia.
Qed.

(** A finite value that is not negative. *)
Definition nonneg (c : float64) : Prop := exists r, c = Fin r /\ (0 <= r)%R.

(** A finite value that is positive. *)
Definition positive (c : float64) : Prop := exists r, c = Fin r /\ (0 < r)%R.

(** The sign of what a term adds, in a corpus, for a count that is not
    negative. *)
Lemma contribution_sign s doc t c tf :
  corpusOK s ->
  WordFreq doc !! t = Some tf -> 0 <= tf ->
  contribution s doc t = Some c ->
  nonneg c /\ (1 <= tf -> positive c).
Proof.
  intros Hs Htf Hpos. unfold contribution. rewrite Htf.
  destruct (idf s !! t) as [v|] eqn:Hv; [|done]. intros [= <-].
  destruct (corpusOK_avgdl _ _ _ Hs Hv) as (a & -> & Ha).
  destruct Hs as (-> & -> & Hidf & _).
  destruct (Hidf _ _ Hv) as [(r & -> & Hr) _].
  set (dl := IZR (tableLen doc)). set (n := IZR (len (Fields t))).
  assert (0 <= dl)%R by (apply IZR_le, tableLen_nonneg).
  assert (0 <= n)%R by (apply IZR_le; unfold len; lia).
  assert (0 <= IZR tf)%R by by apply IZR_le.
  assert (0 <= 0.75 * dl / a)%R
    by (apply Rle_mult_inv_pos; [apply Rmult_le_pos; lra|done]).
  set (D := (IZR tf + 1.2 * (1 - 0.75 + 0.75 * dl / a))%R).
  assert (0 < D)%R by (unfold D; lra).
  unfold of_int. rewrite termScore_real by (unfold D, dl in *; lra).
  fold dl n D.
  assert (0 < 1 + 0.5 * (n - 1))%R by lra.
  split.
  - eexists. split; [done|]. apply Rmult_le_pos; [|lra].
    apply Rle_mult_inv_pos; [|done]. apply Rmult_le_pos; lra.
  - intros Htf1. apply IZR_le in Htf1.
    eexists. split; [done|]. apply Rmult_lt_0_compat; [|done].
    apply Rlt_mult_inv_pos; [|done]. apply Rmult_lt_0_compat; lra.
Qed.

(** A sum of finite values that are not negative is finite and not
    negative, and positive when one of them is. *)
Lemma fold_add_sign (l : list float64) (acc : R) :
  Forall nonneg l ->
  exists r, fold_left add l (Fin acc) = Fin r /\ (acc <= r)%R
    /\ (Exists positive l -> (acc < r)%R).
Proof.
  intros Hl. revert acc. induction Hl as [|c l (x & -> & Hx) _ IH];
    intros acc.
  - exists acc. repeat split; [lra|]. by intros ?%Exists_nil.
  - cbn [fold_left]. rewrite add_Fin.
    destruct (IH (acc + x)%R) as (r & -> & Hr & Hex).
    exists r. split; [done|]. split; [lra|].
    intros [(y & [= <-] & Hy)|Hex']%Exists_cons; [lra|].
    specialize (Hex Hex'). lra.
Qed.

Lemma Score_sign `{GoMapRange} maxN ds query doc :
  let s := processAll (NewBM25Scorer maxN) ds in
  map_Forall (fun _ tf => 0 <= tf) (WordFreq doc) ->
  nonneg (Score s query doc)
  /\ ((exists term tf,
         term ∈ queryNGrams (Fields (ToLower query)) (maxNGram s)
         /\ WordFreq doc !! term = Some tf /\ 1 <= tf
         /\ is_Some (idf s !! term)) ->
      positive (Score s query doc)).
Proof.
  intros s Hdoc. pose proof (corpusOK_processAll maxN ds) as Hs. fold s in Hs.
  rewrite Score_sum.
  set (terms := queryNGrams (Fields (ToLower query)) (maxNGram s)).
  assert (Forall nonneg (omap (contribution s doc) terms)) as Hall.
  { apply Forall_forall. intros c (t & _ & Hc)%list_elem_of_omap.
    destruct (WordFreq doc !! t) as [tf|] eqn:Htf;
      [|unfold contribution in Hc; by rewrite Htf in Hc].
    destruct (contribution_sign s doc t c tf) as [Hn _]; try done.
    by apply (Hdoc t). }
  destruct (fold_add_sign _ 0 Hall) as (r & Hr & Hge & Hgt).
  unfold fsum. rewrite Hr. split; [by exists r|].
  intros (t & tf & Ht & Htf & Hpos & [v Hv]). exists r. split; [done|].
  apply Hgt. apply Exists_exists.
  pose (contribution s doc t) as c.
  assert (is_Some c) as [cv Hc]
    by (unfold c, contribution; rewrite Htf, Hv; eauto).
  exists cv. split.
  - apply list_elem_of_omap. by exists t.
  - destruct (contribution_sign s doc t cv tf) as [_ Hp]; try done;
      [by apply (Hdoc t)|by apply Hp].
Qed.

Lemma idf_empty_corpus `{GoMapRange} maxN ds t :
  Forall (fun d => WordFreq d = ∅) ds ->
  idf (processAll (NewBM25Scorer maxN) ds) !! t = None.
Proof.
  intros Hempty.
  destruct (idf (processAll (NewBM25Scorer maxN) ds) !! t) as [v|] eqn:Hv;
    [|done].
  destruct (corpusOK_processAll maxN ds) as (_ & _ & Hidf & _).
  destruct (Hidf _ _ Hv) as [_ Hdf]. apply df_pos in Hdf as (d & Hd & Ht).
  destruct (processAll_fields (NewBM25Scorer maxN) ds) as (Hdocs & _).
  rewrite Hdocs in Hd. simpl in Hd. rewrite Forall_forall in Hempty.
  rewrite (Hempty _ Hd), lookup_empty in Ht. by destruct Ht.
Qed.

(** *** The claims about the ranker *)

(** The two documents of the repository's scorer test. *)
Definition doc1 : Document := {|
  Path := str "doc1.md";
  Content := str "This is a test document about Go programming";
  WordFreq := list_to_map
    [(str "test", 1); (str "document", 1); (str "test document", 1);
     (str "document go", 1); (str "go", 1); (str "programming", 1);
     (str "go programming", 1)]
|}.

Definition doc2 : Document := {|
  Path := str "doc2.md";
  Content := str "Another document about programming languages";
  WordFreq := list_to_map
    [(str "another", 1); (str "document", 1); (str "programming", 1);
     (str "languages", 1); (str "another document", 1);
     (str "document programming", 1); (str "programming languages", 1)]
|}.

(** Every term of a processed document has a cached value. *)
Lemma idf_defined `{GoMapRange} maxN ds t :
  0 < df ds t -> is_Some (idf (processAll (NewBM25Scorer maxN) ds) !! t).
Proof.
  destruct ds as [|doc ds _] using rev_ind; [by unfold df|].
  intros Hdf. rewrite processAll_snoc, ProcessDocument_idf.
  destruct (idf _ !! t); [eauto|].
  destruct (processAll_fields (NewBM25Scorer maxN) ds) as (-> & _).
  simpl. rewrite bool_decide_eq_true_2 by done. eauto.
Qed.

(** Evaluate the lookups in concrete tables. *)
Ltac eval_lookup :=
  repeat match goal with
  | |- context [WordFreq ?d !! ?t] =>
      let v := eval vm_compute in (WordFreq d !! t) in
      replace (WordFreq d !! t) with v by (vm_compute; reflexivity)
  end.

Lemma test_idf t :
  0 < df [doc1; doc2] t ->
  exists r,
    idf (@processAll rangeForward (NewBM25Scorer 3) [doc1; doc2]) !! t
    = Some (Fin r) /\ (0 < r)%R.
Proof.
  intros Hdf.
  destruct (@idf_defined rangeForward 3 [doc1; doc2] t Hdf) as [v Hv].
  destruct (@corpusOK_processAll rangeForward 3 [doc1; doc2])
    as (_ & _ & Hidf & _).
  destruct (Hidf _ _ Hv) as [(r & -> & Hr) _]. eauto.
Qed.

(** The repository's scorer test: the document with the exact bigram ranks
    above the other one, and a query without a match scores zero. *)
Example test_BM25Scorer :
  let s := @processAll rangeForward (NewBM25Scorer 3) [doc1; doc2] in
  gt (Score s (str "programming languages") doc2)
     (Score s (str "programming languages") doc1) = true
  /\ gt (Score s (str "test document") doc1)
        (Score s (str "test document") doc2) = true
  /\ Score s (str "nonexistent") doc1 = Fin 0.
Proof.
  intros s.
  destruct (test_idf (str "programming")) as (r1 & H1 & Hr1);
    [by vm_compute|].
  destruct (test_idf (str "languages")) as (r2 & H2 & Hr2);
    [by vm_compute|].
  destruct (test_idf (str "programming languages")) as (r3 & H3 & Hr3);
    [by vm_compute|].
  destruct (test_idf (str "test")) as (r4 & H4 & Hr4); [by vm_compute|].
  destruct (test_idf (str "document")) as (r5 & H5 & Hr5); [by vm_compute|].
  destruct (test_idf (str "test document")) as (r6 & H6 & Hr6);
    [by vm_compute|].
  fold s in H1, H2, H3, H4, H5, H6.
  pose proof (@corpusOK_processAll rangeForward 3 [doc1; doc2])
    as (Hk & Hb & _ & Havg).
  fold s in Hk, Hb, Havg.
  destruct (@processAll_fields rangeForward (NewBM25Scorer 3) [doc1; doc2])
    as (Hdocs & _ & _ & Hmax).
  fold s in Hdocs, Hmax.
  change (docs (NewBM25Scorer 3) ++ [doc1; doc2]) with [doc1; doc2] in Hdocs.
  change (maxNGram (NewBM25Scorer 3)) with 3 in Hmax.
  rewrite Hdocs in Havg. specialize (Havg ltac:(done)).
  replace (totalLength [doc1; doc2]) with 14 in Havg
    by (vm_compute; reflexivity).
  change (len [doc1; doc2]) with 2 in Havg.
  rewrite !Score_sum, Hmax.
  replace (queryNGrams (Fields (ToLower (str "programming languages"))) 3)
    with [str "programming"; str "languages"; str "programming languages"]
    by (vm_compute; reflexivity).
  replace (queryNGrams (Fields (ToLower (str "test document"))) 3)
    with [str "test"; str "document"; str "test document"]
    by (vm_compute; reflexivity).
  replace (queryNGrams (Fields (ToLower (str "nonexistent"))) 3)
    with [str "nonexistent"] by (vm_compute; reflexivity).
  cbn [omap list_omap]. unfold contribution. eval_lookup.
  rewrite H1, H2, H3, H4, H5, H6, Hk, Hb, Havg.
  replace (tableLen doc1) with 7 by (vm_compute; reflexivity).
  replace (tableLen doc2) with 7 by (vm_compute; reflexivity).
  replace (len (Fields (str "programming"))) with 1
    by (vm_compute; reflexivity).
  replace (len (Fields (str "languages"))) with 1
    by (vm_compute; reflexivity).
  replace (len (Fields (str "programming languages"))) with 2
    by (vm_compute; reflexivity).
  replace (len (Fields (str "test"))) with 1 by (vm_compute; reflexivity).
  replace (len (Fields (str "document"))) with 1
    by (vm_compute; reflexivity).
  replace (len (Fields (str "test document"))) with 2
    by (vm_compute; reflexivity).
  unfold of_int, fsum.
  rewrite !termScore_real by lra. cbn [fold_left]. rewrite !add_Fin.
  simpl. repeat split.
  - destruct (Rlt_dec _ _) as [|Hn]; [done|]. exfalso. apply Hn. lra.
  - destruct (Rlt_dec _ _) as [|Hn]; [done|]. exfalso. apply Hn. lra.
Qed.

(** The repository's test of an empty document. *)
Example test_BM25ScorerEmpty :
  let emptyDoc :=
    {| Path := str "empty.md"; Content := []; WordFreq := ∅ |} in
  Score (@ProcessDocument rangeForward (NewBM25Scorer 3) emptyDoc)
    (str "test") emptyDoc = Fin 0.
Proof.
  intros emptyDoc. rewrite Score_sum, no_contribution; [done|].
  apply Forall_forall. intros t _. left. apply lookup_empty.
Qed.

(** C3. When no generated query term is in both the document's table and
    the IDF map, the score is exactly zero. *)
Theorem Score_no_match s query doc :
  Forall (fun term => WordFreq doc !! term = None \/ idf s !! term = None)
    (queryNGrams (Fields (ToLower query)) (maxNGram s)) ->
  Score s query doc = Fin 0.
Proof.
  intros Hnone. rewrite Score_sum.
  by rewrite (no_contribution s doc _ Hnone).
Qed.

(** The test "non-existent terms" of the repository. *)
Lemma Score_no_match_witness :
  Score (@processAll rangeForward (NewBM25Scorer 3) [doc1; doc2])
    (str "nonexistent") doc1 = Fin 0.
Proof.
  apply Score_no_match.
  destruct (@processAll_fields rangeForward (NewBM25Scorer 3) [doc1; doc2])
    as (_ & _ & _ & ->).
  change (Forall
    (fun term => WordFreq doc1 !! term = None
       \/ idf (@processAll rangeForward (NewBM25Scorer 3) [doc1; doc2])
            !! term = None)
    [str "nonexistent"]).
  constructor; [|constructor]. left. vm_compute. reflexivity.
Defined.

(** C7, as the claim states it, fails for a table with a negative count:
    after a document whose count of "a" is -1 has been processed, the query
    "a" scores that document below zero. *)
Lemma Score_negative_for_negative_count :
  let doc := {| Path := str "d.md"; Content := str "a";
                WordFreq := {[ str "a" := -1 ]} |} in
  let s := @ProcessDocument rangeForward (NewBM25Scorer 3) doc in
  exists r, Score s (str "a") doc = Fin r /\ (r < 0)%R.
Proof.
  intros doc s.
  pose proof (@corpusOK_step rangeForward _ doc (corpusOK_new 3)) as Hs.
  fold s in Hs. destruct Hs as (Hk & Hb & Hidf & _).
  assert (exists r0, idf s !! str "a" = Some (Fin r0) /\ (0 < r0)%R)
    as (r0 & Hv & Hr0).
  { unfold s. rewrite ProcessDocument_idf.
    change (idf (NewBM25Scorer 3) !! str "a") with (@None float64).
    rewrite bool_decide_eq_true_2 by (vm_compute; reflexivity).
    destruct (newIDF_real (docs (NewBM25Scorer 3) ++ [doc]) (str "a"))
      as [-> Hpos]. eauto. }
  assert (avgdl s = Fin (1 / 1)) as Havg by apply ProcessDocument_avgdl.
  rewrite Score_sum.
  change (queryNGrams (Fields (ToLower (str "a"))) (maxNGram s))
    with [str "a"].
  cbn [omap list_omap]. unfold contribution.
  change (WordFreq doc !! str "a") with (Some (-1)).
  rewrite Hv, Hk, Hb, Havg.
  change (len (Fields (str "a"))) with 1.
  change (tableLen doc) with 1. unfold of_int, fsum.
  rewrite termScore_real by lra. cbn [fold_left]. rewrite add_Fin.
  eexists. split; [done|]. lra.
Qed.

(** C7, as the code has it.  For a document whose counts are not negative,
    [Score] is a finite number that is not negative, in every corpus: no
    infinity and no NaN.  In a corpus of empty documents, where the average
    length is zero, the score is zero for every document. *)
Theorem Score_finite_nonneg `{GoMapRange} maxN ds query doc :
  let s := processAll (NewBM25Scorer maxN) ds in
  (map_Forall (fun _ tf => 0 <= tf) (WordFreq doc) ->
   exists r, Score s query doc = Fin r /\ (0 <= r)%R)
  /\ (Forall (fun d => WordFreq d = ∅) ds -> Score s query doc = Fin 0).
Proof.
  intros s. split.
  - intros Hdoc. by apply Score_sign.
  - intros Hempty. rewrite Score_sum, no_contribution; [done|].
    apply Forall_forall. intros t _. right. by apply idf_empty_corpus.
Qed.

Lemma Score_finite_nonneg_witness :
  exists r,
    Score (@processAll rangeForward (NewBM25Scorer 3) [doc1; doc2])
      (str "programming languages") doc2 = Fin r /\ (0 <= r)%R.
Proof.
  apply (@Score_finite_nonneg rangeForward 3 [doc1; doc2]).
  apply (bool_decide_unpack _). vm_compute. reflexivity.
Defined.

(** C10, as the claim states it, fails for a count of zero: after a document
    whose count of "a" is 0 has been processed, the term "a" is in the
    document's table and in the IDF map, and the query "a" scores the
    document zero. *)
Lemma Score_zero_for_zero_count :
  let doc := {| Path := str "d.md"; Content := str "a";
                WordFreq := {[ str "a" := 0 ]} |} in
  let s := @ProcessDocument rangeForward (NewBM25Scorer 3) doc in
  str "a" ∈ queryNGrams (Fields (ToLower (str "a"))) (maxNGram s)
  /\ is_Some (WordFreq doc !! str "a")
  /\ is_Some (idf s !! str "a")
  /\ Score s (str "a") doc = Fin 0.
Proof.
  intros doc s.
  pose proof (@corpusOK_step rangeForward _ doc (corpusOK_new 3)) as Hs.
  fold s in Hs. destruct Hs as (Hk & Hb & Hidf & _).
  assert (exists r0, idf s !! str "a" = Some (Fin r0) /\ (0 < r0)%R)
    as (r0 & Hv & Hr0).
  { unfold s. rewrite ProcessDocument_idf.
    change (idf (NewBM25Scorer 3) !! str "a") with (@None float64).
    rewrite bool_decide_eq_true_2 by (vm_compute; reflexivity).
    destruct (newIDF_real (docs (NewBM25Scorer 3) ++ [doc]) (str "a"))
      as [-> Hpos]. eauto. }
  assert (avgdl s = Fin (1 / 1)) as Havg by apply ProcessDocument_avgdl.
  change (queryNGrams (Fields (ToLower (str "a"))) (maxNGram s))
    with [str "a"].
  split; [by left|]. split; [by exists 0|]. split; [by rewrite Hv|].
  rewrite Score_sum.
  change (queryNGrams (Fields (ToLower (str "a"))) (maxNGram s))
    with [str "a"].
  cbn [omap list_omap]. unfold contribution.
  change (WordFreq doc !! str "a") with (Some 0).
  rewrite Hv, Hk, Hb, Havg.
  change (len (Fields (str "a"))) with 1.
  change (tableLen doc) with 1. unfold of_int, fsum.
  rewrite termScore_real by lra. cbn [fold_left]. rewrite add_Fin.
  f_equal. lra.
Qed.

(** C10, as the code has it.  In every corpus each cached IDF value is a
    positive finite number.  For a document without negative counts,
    [Score] is positive as soon as one generated query term is in the IDF
    map and has a positive count in the document's table. *)
Theorem idf_positive_Score_positive `{GoMapRange} maxN ds :
  let s := processAll (NewBM25Scorer maxN) ds in
  (forall t v, idf s !! t = Some v -> exists r, v = Fin r /\ (0 < r)%R)
  /\ forall query doc,
       map_Forall (fun _ tf => 0 <= tf) (WordFreq doc) ->
       (exists term tf,
          term ∈ queryNGrams (Fields (ToLower query)) (maxNGram s)
          /\ WordFreq doc !! term = Some tf /\ 1 <= tf
          /\ is_Some (idf s !! term)) ->
       exists r, Score s query doc = Fin r /\ (0 < r)%R.
Proof.
  intros s. split.
  - intros t v Hv.
    destruct (corpusOK_processAll maxN ds) as (_ & _ & Hidf & _).
    by destruct (Hidf _ _ Hv).
  - intros query doc Hdoc Hterm. by apply Score_sign.
Qed.

(** *** More on the corpus statistics *)

(** The index, from 0, of the first document whose table has the term. *)
Definition firstWith (ds : list Document) (term : bytes) : option nat :=
  fst <$> list_find (fun d => is_Some (WordFreq d !! term)) ds.

Lemma df_none ds t :
  list_find (fun d => is_Some (WordFreq d !! t)) ds = None -> df ds t = 0.
Proof.
  intros Hnone%list_find_None. unfold df.
  induction Hnone as [|d ds Hd _ IH]; [done|].
  by rewrite filter_cons_False.
Qed.

(** X13. The IDF map of a scorer fed a sequence of documents has a value
    for exactly the terms of their tables, and the value of a term is
    [ln (1 + (N - 1 + 0.5) / (1 + 0.5))] with [N] the number of documents
    processed when the first one with the term came in: it is computed at
    document frequency 1 and later documents with the term do not change
    it. *)
Theorem idf_first_document `{GoMapRange} (maxN : Z) (ds : list Document)
    (t : bytes) :
  idf (processAll (NewBM25Scorer maxN) ds) !! t
  = (fun k => Fin (ln (1 + (IZR (Z.of_nat k + 1) - 1 + 0.5) / (1 + 0.5))))
      <$> firstWith ds t.
Proof.
  induction ds as [|doc ds IH] using rev_ind; [done|].
  rewrite processAll_snoc, ProcessDocument_idf, IH.
  destruct (processAll_fields (NewBM25Scorer maxN) ds) as (-> & _).
  cbn [docs NewBM25Scorer app]. unfold firstWith.
  destruct (list_find _ ds) as [[k d]|] eqn:E.
  - by rewrite (list_find_app_l _ _ _ _ _ E).
  - rewrite list_find_app_r by done. cbn [fmap option_fmap option_map].
    assert (df (ds ++ [doc]) t = df [doc] t) as Hdf
      by (rewrite df_app, (df_none _ _ E); lia).
    destruct (newIDF_real (ds ++ [doc]) t) as [Hnew _].
    rewrite Hnew, Hdf. clear Hnew. unfold df. cbn [list_find].
    destruct (decide (is_Some (WordFreq doc !! t))) as [Hin|Hout].
    + rewrite filter_cons_True by done. simpl.
      unfold len. rewrite length_app. simpl.
      replace (Z.of_nat (length ds + 1)) with (Z.of_nat (length ds) + 1)
        by lia. done.
    + rewrite filter_cons_False by done. done.
Qed.

(** X14. The state of the scorer does not depend on the order in which the
    runtime visits the terms of a table: two runtimes give the same state
    after the same documents. *)
Theorem processAll_order_independent (R1 R2 : GoMapRange) (s : BM25Scorer)
    (ds : list Document) :
  @processAll R1 s ds = @processAll R2 s ds.
Proof.
  revert s. induction ds as [|doc ds IH]; intros s; [done|].
  unfold processAll in *. cbn [fold_left].
  assert (@ProcessDocument R1 s doc = @ProcessDocument R2 s doc) as ->;
    [|apply IH].
  assert (idf (@ProcessDocument R1 s doc) = idf (@ProcessDocument R2 s doc))
    as Hidf.
  { apply map_eq. intros t.
    by rewrite (@ProcessDocument_idf R1), (@ProcessDocument_idf R2). }
  unfold ProcessDocument, calculateIDF in *. cbn [idf docs] in *.
  by rewrite Hidf.
Qed.

(** *** More on the score *)

Lemma lower_space (c : ascii) : isSpace (lower c) = isSpace c.
Proof.
  destruct c as [[] [] [] [] [] [] [] []]; vm_compute; reflexivity.
Qed.

Lemma fields_from_ToLower (cur s : bytes) :
  fields_from (ToLower cur) (ToLower s) = ToLower <$> fields_from cur s.
Proof.
  revert cur. induction s as [|c s IH]; intros cur; simpl.
  - by destruct cur.
  - rewrite lower_space. destruct (isSpace c).
    + destruct cur; [apply (IH [])|]. simpl. f_equal. apply (IH []).
    + rewrite <- IH. unfold ToLower. by rewrite map_app.
Qed.

Lemma Fields_ToLower (s : bytes) :
  Fields (ToLower s) = ToLower <$> Fields s.
Proof. apply (fields_from_ToLower [] s). Qed.

Lemma ToLower_Join (ws : list bytes) :
  ToLower (Join ws (str " ")) = Join (ToLower <$> ws) (str " ").
Proof.
  induction ws as [|w ws IH]; [done|]. destruct ws as [|w' ws]; [done|].
  rewrite Join_cons. unfold ToLower at 1. rewrite !map_app.
  fold (ToLower w) (ToLower (Join (w' :: ws) (str " "))). by rewrite IH.
Qed.

(** X15. [Score] looks at the query through its lower-case fields only:
    the query in lower case with its white space collapsed has the same
    score, and so has the query in any other case. *)
Theorem Score_normalized_query (s : BM25Scorer) (query : bytes)
    (doc : Document) :
  Score s (Join (Fields (ToLower query)) (str " ")) doc = Score s query doc
  /\ Score s (ToLower query) doc = Score s query doc.
Proof.
  assert (forall q q', Fields (ToLower q) = Fields (ToLower q') ->
    Score s q doc = Score s q' doc) as Hsame.
  { intros q q' E. unfold Score. by rewrite E. }
  split; apply Hsame; [|by rewrite ToLower_ToLower].
  rewrite ToLower_Join, (Fields_ToLower query), <- list_fmap_compose.
  rewrite (list_fmap_ext (ToLower ∘ ToLower) ToLower (Fields query))
    by (intros; apply ToLower_ToLower).
  apply Fields_Join.
  pose proof (Fields_is_field query) as Hf.
  induction Hf as [|w ws [Hne Hw] _ IH]; constructor; [|done].
  split; [by destruct w|]. unfold ToLower. apply Forall_map.
  eapply Forall_impl; [exact Hw|]. intros c Hc. by rewrite lower_space.
Qed.

(** X16. A query without words, and any query when [maxNGram] is below 1,
    has score 0 for every document. *)
Theorem Score_no_terms (s : BM25Scorer) (query : bytes) (doc : Document) :
  Forall (fun c => isSpace c = true) query \/ maxNGram s < 1 ->
  Score s query doc = Fin 0.
Proof.
  intros Hnone. unfold Score.
  assert (queryNGrams (Fields (ToLower query)) (maxNGram s) = []) as ->;
    [|done].
  unfold queryNGrams. cbv zeta. rewrite min_Zmin.
  assert (Z.min (len (Fields (ToLower query))) (maxNGram s) <= 0) as Hlim.
  { destruct Hnone as [Hsp|Hmax]; [|lia].
    assert (Fields (ToLower query) = []) as ->; [|unfold len; simpl; lia].
    apply fields_from_spaces. unfold ToLower. apply Forall_map.
    eapply Forall_impl; [exact Hsp|]. intros c Hc. by rewrite lower_space. }
  assert (seqZ 1 (Z.min (len (Fields (ToLower query))) (maxNGram s)) = [])
    as ->; [|done].
  apply length_zero_iff_nil. rewrite length_seqZ. lia.
Qed.

Lemma Score_no_terms_witness :
  let doc := {| Path := str "a.md"; Content := []; WordFreq := ∅ |} in
  (Forall (fun c => isSpace c = true) (str "  ") \/ 3 < 1)
  /\ Score (NewBM25Scorer 3) (str "  ") doc = Fin 0.
Proof.
  intros doc.
  assert (Forall (fun c => isSpace c = true) (str "  ")
          \/ maxNGram (NewBM25Scorer 3) < 1) as Hnone
    by (left; repeat constructor).
  split; [exact Hnone|].
  apply (Score_no_terms (NewBM25Scorer 3) (str "  ") doc Hnone).
Defined.

(** X17. However often a term occurs in a document, what it adds to the
    score is at most its IDF times [k1 + 1] times the length boost; the
    counts only have to be not negative. *)
Theorem term_score_saturates `{GoMapRange} (maxN : Z) (ds : list Document)
    (doc : Document) (t : bytes) (tf : Z) :
  let s := processAll (NewBM25Scorer maxN) ds in
  WordFreq doc !! t = Some tf -> 0 <= tf ->
  match contribution s doc t with
  | None => idf s !! t = None
  | Some c =>
      exists r x,
        idf s !! t = Some (Fin r) /\ c = Fin x
        /\ (0 <= x
            <= r * (1.2 + 1) * (1 + 0.5 * (IZR (len (Fields t)) - 1)))%R
  end.
Proof.
  intros s Htf Hpos. pose proof (corpusOK_processAll maxN ds) as Hs.
  fold s in Hs. unfold contribution. rewrite Htf.
  destruct (idf s !! t) as [v|] eqn:Hv; [|done].
  destruct (corpusOK_avgdl _ _ _ Hs Hv) as (a & -> & Ha).
  destruct Hs as (-> & -> & Hidf & _).
  destruct (Hidf _ _ Hv) as [(r & -> & Hr) _].
  set (dl := IZR (tableLen doc)). set (n := IZR (len (Fields t))).
  assert (0 <= dl)%R by (apply IZR_le, tableLen_nonneg).
  assert (0 <= n)%R by (apply IZR_le; unfold len; lia).
  assert (0 <= IZR tf)%R by by apply IZR_le.
  assert (0 <= 0.75 * dl / a)%R
    by (apply Rle_mult_inv_pos; [apply Rmult_le_pos; lra|done]).
  set (K := (1.2 * (1 - 0.75 + 0.75 * dl / a))%R).
  assert (0 < K)%R by (unfold K; lra).
  unfold of_int. rewrite termScore_real by (unfold K, dl in *; lra).
  fold dl n K. exists r. eexists. split; [done|]. split; [done|].
  assert (0 < 1 + 0.5 * (n - 1))%R by lra.
  assert (0 <= r * (IZR tf * (1.2 + 1)) / (IZR tf + K) <= r * (1.2 + 1))%R
    as [Hlo Hhi].
  { split.
    - apply Rle_mult_inv_pos; [|lra]. apply Rmult_le_pos; lra.
    - apply Rmult_le_reg_r with (IZR tf + K)%R; [lra|].
      unfold Rdiv. rewrite Rmult_assoc, Rinv_l by lra.
      assert (0 <= r * K)%R by (apply Rmult_le_pos; lra). nra. }
  split.
  - apply Rmult_le_pos; lra.
  - apply Rmult_le_compat_r; lra.
Qed.

Lemma term_score_saturates_witness :
  let s := @processAll rangeForward (NewBM25Scorer 3) [doc1; doc2] in
  WordFreq doc2 !! str "document" = Some 1 /\ 0 <= 1
  /\ match contribution s doc2 (str "document") with
     | None => idf s !! str "document" = None
     | Some c =>
         exists r x,
           idf s !! str "document" = Some (Fin r) /\ c = Fin x
           /\ (0 <= x
               <= r * (1.2 + 1)
                  * (1 + 0.5 * (IZR (len (Fields (str "document"))) - 1)))%R
     end.
Proof.
  intros s.
  assert (WordFreq doc2 !! str "document" = Some 1) as Htf
    by (vm_compute; reflexivity).
  split; [exact Htf|]. split; [lia|].
  apply (@term_score_saturates rangeForward 3 [doc1; doc2] doc2
           (str "document") 1 Htf). lia.
Defined.

End scorer.

(** ** pkg/cache: the name of a cache file *)

Module cache.
Import Go.

(** The digits of the verb [%x]. *)
Definition hexDigit (n : N) : ascii :=
  nth (N.to_nat n) (str "0123456789abcdef") "0"%char.

(** Two digits for each byte, the high one first. *)
Definition hexByte (c : ascii) : bytes :=
  [hexDigit (N_of_ascii c / 16); hexDigit (N_of_ascii c mod 16)].

(** [fmt.Sprintf("%x", s)] for a string [s]. *)
Definition Sprintf_x (s : bytes) : bytes := s ≫= hexByte.

Record Cache := { cacheDir : bytes }.

(** The last element of the path: [hashedName + ".cache"]. *)
Definition cacheFileName (docPath : bytes) : bytes :=
  Sprintf_x docPath ++ str ".cache".

(** [getCachePath]; [filepath_Join] is [filepath.Join]. *)
Definition getCachePath (filepath_Join : bytes -> bytes -> bytes)
    (c : Cache) (docPath : bytes) : bytes :=
  let hashedName := Sprintf_x docPath in
  filepath_Join (cacheDir c) (hashedName ++ str ".cache").

(** The value of a digit, and the byte of two digits. *)
Definition hexValue (d : ascii) : N :=
  let n := N_of_ascii d in
  if (n <? 58)%N then (n - 48)%N else (n - 87)%N.

Definition unhexByte (hi lo : ascii) : ascii :=
  ascii_of_N (hexValue hi * 16 + hexValue lo).

Lemma unhexByte_hexByte (c : ascii) :
  match hexByte c with
  | [hi; lo] => unhexByte hi lo = c
  | _ => False
  end.
Proof.
  destruct c as [[] [] [] [] [] [] [] []]; vm_compute; reflexivity.
Qed.

Lemma hexByte_no_separator (c : ascii) :
  Forall (fun d => d <> "/"%char /\ d <> "\"%char) (hexByte c).
Proof.
  destruct c as [[] [] [] [] [] [] [] []];
    apply (bool_decide_unpack _); vm_compute; reflexivity.
Qed.

Lemma Sprintf_x_inj (p q : bytes) : Sprintf_x p = Sprintf_x q -> p = q.
Proof.
  unfold Sprintf_x. revert q.
  induction p as [|c p IH]; intros [|c' q]; try done;
    rewrite ?bind_cons.
  pose proof (unhexByte_hexByte c) as Hc.
  pose proof (unhexByte_hexByte c') as Hc'. unfold hexByte in *.
  intros Heq. simpl in Heq. injection Heq as H1 H2 Hrest.
  f_equal; [|by apply IH]. by rewrite <- Hc, <- Hc', H1, H2.
Qed.

(** X18. Two document paths have the same cache file name only if they are
    the same path; the name is twice as long as the path plus the six bytes
    of [.cache]; and it holds no path separator, so the file is an entry of
    the cache directory itself. *)
Theorem cacheFileName_spec :
  (forall p q, cacheFileName p = cacheFileName q -> p = q)
  /\ (forall p, len (cacheFileName p) = 2 * len p + 6)
  /\ (forall p,
        Forall (fun d => d <> "/"%char /\ d <> "\"%char) (cacheFileName p))
  /\ (forall filepath_Join c p,
        getCachePath filepath_Join c p
        = filepath_Join (cacheDir c) (cacheFileName p)).
Proof.
  unfold cacheFileName. split; [|split; [|split]].
  - intros p q Heq%app_inv_tail. by apply Sprintf_x_inj.
  - intros p. unfold len, Sprintf_x. rewrite length_app.
    induction p as [|c p IH]; [done|].
    rewrite bind_cons, length_app in *. simpl in *. lia.
  - intros p. apply Forall_app. split.
    + unfold Sprintf_x. induction p as [|c p IH]; [constructor|].
      rewrite bind_cons. apply Forall_app. split; [|done].
      apply hexByte_no_separator.
    + apply (bool_decide_unpack _). vm_compute. reflexivity.
  - done.
Qed.

End cache.

(** ** pkg/analyzer: the analysis of one document *)

Module analyzer.
Import Go F64.

(** The interface [scorer.Scorer]. *)
Class Scorer (S : Type) := {
  Scorer_Score : S -> bytes -> scorer.Document -> float64;
  Scorer_ProcessDocument : S -> scorer.Document -> S
}.

(** Its one implementation. *)
#[global] Instance BM25 `{GoMapRange} : Scorer scorer.BM25Scorer := {|
  Scorer_Score := scorer.Score;
  Scorer_ProcessDocument := scorer.ProcessDocument
|}.

Record Config := {
  MinScore : float64;
  DryRun : bool;
  SingleFile : bytes;
  TargetDir : bytes;
  CacheDir : bytes;
  ParserConfig : markdown.ParserConfig
}.

(** The analyzer; its file cache plays no part in the analysis of one
    document and is left out.  The field [scorer] of the source is
    [scorer_] here. *)
Record Analyzer (S : Type) := {
  parser : markdown.Parser;
  scorer_ : S;
  config : Config;
  docs : gmap bytes scorer.Document
}.
Arguments parser {S}.
Arguments scorer_ {S}.
Arguments config {S}.
Arguments docs {S}.

Section analysis.
Context `{GoSort} `{GoMapRange} {S : Type} `{Scorer S}.

(** [os.ReadFile]: the content of the file at a path, if it can be read. *)
Variable ReadFile : bytes -> option bytes.

(** [wordOccurrences[occ.Word] = append(wordOccurrences[occ.Word], occ)] *)
Definition groupByWord (occurrences : list markdown.WordOccurrence)
  : gmap bytes (list markdown.WordOccurrence) :=
  fold_left
    (fun wordOccurrences occ =>
       <[markdown.Word occ :=
           default [] (wordOccurrences !! markdown.Word occ) ++ [occ]]>
         wordOccurrences)
    occurrences ∅.

(** The body of the loop over [wordOccurrences], on [bestOccurrence] and
    [maxFreq].  [&occs[0]] is the head of a group; no group is empty. *)
Definition bestStep (targetDoc : scorer.Document)
    (st : option markdown.WordOccurrence * Z)
    (kv : bytes * list markdown.WordOccurrence)
  : option markdown.WordOccurrence * Z :=
  match scorer.WordFreq targetDoc !! kv.1 with
  | Some freq => if st.2 <? freq then (head kv.2, freq) else st
  | None => st
  end.

Definition bestOccurrence
    (wordOccurrences : gmap bytes (list markdown.WordOccurrence))
    (targetDoc : scorer.Document) : option markdown.WordOccurrence :=
  (fold_left (bestStep targetDoc) (range wordOccurrences) (None, 0)).1.

(** The suggestion one target document gives rise to, if any. *)
Definition suggestionFor (a : Analyzer S) (doc : scorer.Document)
    (content : bytes)
    (wordOccurrences : gmap bytes (list markdown.WordOccurrence))
    (targetPath : bytes) (targetDoc : scorer.Document)
  : option scorer.LinkSuggestion :=
  if bool_decide (targetPath = scorer.Path doc) then None
  else
    let score := Scorer_Score (scorer_ a) content targetDoc in
    if ge score (MinScore (config a)) then
      match bestOccurrence wordOccurrences targetDoc with
      | Some occ =>
          Some {| scorer.SourcePath := scorer.Path doc;
                  scorer.TargetPath := targetPath;
                  scorer.LinkScore := score;
                  scorer.WordToLink := markdown.Word occ;
                  scorer.Position := markdown.Position occ;
                  scorer.Context := markdown.Context occ |}
      | None => None
      end
    else None.

(** Only a suggestion with a higher score replaces the one at its
    position. *)
Definition keepBest (positionSuggestions : gmap Z scorer.LinkSuggestion)
    (suggestion : scorer.LinkSuggestion) : gmap Z scorer.LinkSuggestion :=
  match positionSuggestions !! scorer.Position suggestion with
  | Some existing =>
      if gt (scorer.LinkScore suggestion) (scorer.LinkScore existing)
      then <[scorer.Position suggestion := suggestion]> positionSuggestions
      else positionSuggestions
  | None => <[scorer.Position suggestion := suggestion]> positionSuggestions
  end.

(** The body of the loop over the target documents. *)
Definition targetStep (a : Analyzer S) (doc : scorer.Document)
    (content : bytes)
    (wordOccurrences : gmap bytes (list markdown.WordOccurrence))
    (positionSuggestions : gmap Z scorer.LinkSuggestion)
    (kv : bytes * scorer.Document) : gmap Z scorer.LinkSuggestion :=
  match suggestionFor a doc content wordOccurrences kv.1 kv.2 with
  | Some suggestion => keepBest positionSuggestions suggestion
  | None => positionSuggestions
  end.

(** The map [positionSuggestions] after the loop over the targets. *)
Definition positionSuggestions (a : Analyzer S) (doc : scorer.Document)
    (content : bytes) : gmap Z scorer.LinkSuggestion :=
  let occurrences := markdown.FindWordOccurrences (parser a) content 3 in
  let wordOccurrences := groupByWord occurrences in
  fold_left (targetStep a doc content wordOccurrences) (range (docs a)) ∅.

(** [analyzeSingleDocument]: [None] is the error of a file that cannot be
    read. *)
Definition analyzeSingleDocument (a : Analyzer S) (doc : scorer.Document)
  : option (list scorer.LinkSuggestion) :=
  match ReadFile (scorer.Path doc) with
  | None => None
  | Some content => Some ((range (positionSuggestions a doc content)).*2)
  end.

(** *** The groups of occurrences *)

(** The group of a word is the occurrences of that word, in their order. *)
Lemma groupByWord_lookup (occurrences : list markdown.WordOccurrence) w :
  groupByWord occurrences !! w
  = match filter (fun o => markdown.Word o = w) occurrences with
    | [] => None
    | l => Some l
    end.
Proof.
  unfold groupByWord.
  induction occurrences as [|occ occurrences IH] using rev_ind; [done|].
  rewrite fold_left_app, filter_app. cbn [fold_left].
  destruct (decide (markdown.Word occ = w)) as [<-|Hne].
  - rewrite lookup_insert_eq, IH, filter_cons_True, filter_nil by done.
    by destruct (filter _ occurrences).
  - rewrite lookup_insert_ne, IH, filter_cons_False, filter_nil,
      app_nil_r by done. done.
Qed.

Lemma groupByWord_elem (occurrences : list markdown.WordOccurrence) o :
  o ∈ occurrences ->
  groupByWord occurrences !! markdown.Word o
  = Some (filter (fun o' => markdown.Word o' = markdown.Word o) occurrences).
Proof.
  intros Ho. rewrite groupByWord_lookup.
  assert (o ∈ filter (fun o' => markdown.Word o' = markdown.Word o)
            occurrences) as Hin by by apply list_elem_of_filter.
  set (l := filter _ occurrences) in *.
  destruct l; [by apply elem_of_nil in Hin|done].
Qed.

Lemma range_lookup {K} `{Countable K} {V} (m : gmap K V) k v :
  (k, v) ∈ range m <-> m !! k = Some v.
Proof. rewrite range_perm. apply elem_of_map_to_list. Qed.

(** *** The most frequent term *)

Lemma fold_bestStep targetDoc
    (l : list (bytes * list markdown.WordOccurrence)) st :
  let r := fold_left (bestStep targetDoc) l st in
  st.2 <= r.2
  /\ (forall kv f, kv ∈ l ->
        scorer.WordFreq targetDoc !! kv.1 = Some f -> f <= r.2)
  /\ (r = st
      \/ exists kv, kv ∈ l
           /\ scorer.WordFreq targetDoc !! kv.1 = Some r.2
           /\ r.1 = head kv.2 /\ st.2 < r.2).
Proof.
  revert st. induction l as [|kv l IH]; intros st; cbn [fold_left].
  - split; [lia|]. split; [|by left]. by intros kv f ?%elem_of_nil.
  - destruct (IH (bestStep targetDoc st kv)) as (Hle & Hmax & Hfrom).
    clear IH. set (r := fold_left _ l _) in *.
    assert (st.2 <= (bestStep targetDoc st kv).2
            /\ forall f, scorer.WordFreq targetDoc !! kv.1 = Some f ->
                 f <= (bestStep targetDoc st kv).2) as [Hst Hkv].
    { unfold bestStep. destruct (scorer.WordFreq targetDoc !! kv.1) as [f|];
        [|by split; [lia|]].
      destruct (Z.ltb_spec st.2 f); simpl; split; try lia;
        intros ? [= <-]; lia. }
    split; [lia|]. split.
    + intros kv' f [->|Hin]%elem_of_cons Hf.
      * specialize (Hkv _ Hf). lia.
      * by apply (Hmax kv').
    + destruct Hfrom as [Hr|(kv' & Hin & Hf & Hhd & Hlt)].
      * rewrite Hr. unfold bestStep.
        destruct (scorer.WordFreq targetDoc !! kv.1) as [f|] eqn:Hf;
          [|by left].
        destruct (Z.ltb_spec st.2 f); [|by left].
        right. exists kv. split; [by left|]. by simpl.
      * right. exists kv'. split; [by right|]. repeat split; try done. lia.
Qed.

(** The term of the chosen occurrence is a term of the source that the
    target's table has, with a positive count that no other such term
    exceeds; the occurrence is the first one of that term. *)
Lemma bestOccurrence_spec (occurrences : list markdown.WordOccurrence)
    targetDoc occ :
  bestOccurrence (groupByWord occurrences) targetDoc = Some occ ->
  exists freq,
    scorer.WordFreq targetDoc !! markdown.Word occ = Some freq
    /\ 0 < freq
    /\ (forall o f, o ∈ occurrences ->
          scorer.WordFreq targetDoc !! markdown.Word o = Some f -> f <= freq)
    /\ head (filter (fun o => markdown.Word o = markdown.Word occ)
               occurrences) = Some occ.
Proof.
  unfold bestOccurrence. intros Hbest.
  destruct (fold_bestStep targetDoc (range (groupByWord occurrences))
              (None, 0)) as (_ & Hmax & Hfrom).
  set (r := fold_left _ _ _) in *.
  destruct Hfrom as [Hr|([w occs] & Hin & Hf & Hhd & Hlt)];
    [by rewrite Hr in Hbest|].
  apply range_lookup in Hin. rewrite groupByWord_lookup in Hin.
  simpl in *. rewrite Hbest in Hhd.
  assert (occs = filter (fun o => markdown.Word o = w) occurrences) as Hoccs
    by (destruct (filter _ occurrences); congruence).
  assert (markdown.Word occ = w) as Hw.
  { assert (occ ∈ occs) as Hocc
      by (destruct occs; [done|]; injection Hhd as ->; left).
    rewrite Hoccs in Hocc. by apply list_elem_of_filter in Hocc as [? _]. }
  exists r.2. rewrite Hw. split; [done|]. split; [done|]. split.
  - intros o f Ho Hof.
    apply (Hmax (markdown.Word o,
                 filter (fun o' => markdown.Word o' = markdown.Word o)
                   occurrences)); [|done].
    apply range_lookup. by apply groupByWord_elem.
  - by rewrite <- Hoccs.
Qed.

(** *** One suggestion per position *)

Lemma suggestionFor_inv a doc content wo targetPath targetDoc sg :
  suggestionFor a doc content wo targetPath targetDoc = Some sg ->
  targetPath <> scorer.Path doc
  /\ ge (Scorer_Score (scorer_ a) content targetDoc) (MinScore (config a))
     = true
  /\ exists occ,
       bestOccurrence wo targetDoc = Some occ
       /\ sg = {| scorer.SourcePath := scorer.Path doc;
                  scorer.TargetPath := targetPath;
                  scorer.LinkScore :=
                    Scorer_Score (scorer_ a) content targetDoc;
                  scorer.WordToLink := markdown.Word occ;
                  scorer.Position := markdown.Position occ;
                  scorer.Context := markdown.Context occ |}.
Proof.
  unfold suggestionFor. case_bool_decide; [done|].
  destruct (ge _ _); [|done].
  destruct (bestOccurrence wo targetDoc) as [occ|]; [|done].
  intros [= <-]. eauto.
Qed.

Lemma targetStep_source a doc content wo ps kv :
  kv.1 = scorer.Path doc -> targetStep a doc content wo ps kv = ps.
Proof.
  intros Hkv. unfold targetStep, suggestionFor.
  by rewrite bool_decide_eq_true_2.
Qed.

Lemma targetStep_fresh a doc content wo ps kv occ :
  kv.1 <> scorer.Path doc ->
  ge (Scorer_Score (scorer_ a) content kv.2) (MinScore (config a)) = true ->
  bestOccurrence wo kv.2 = Some occ ->
  ps !! markdown.Position occ = None ->
  targetStep a doc content wo ps kv
  = <[markdown.Position occ :=
        {| scorer.SourcePath := scorer.Path doc;
           scorer.TargetPath := kv.1;
           scorer.LinkScore := Scorer_Score (scorer_ a) content kv.2;
           scorer.WordToLink := markdown.Word occ;
           scorer.Position := markdown.Position occ;
           scorer.Context := markdown.Context occ |}]> ps.
Proof.
  intros Hkv Hge Hbest Hps. unfold targetStep, suggestionFor.
  rewrite bool_decide_eq_false_2, Hge, Hbest by done.
  unfold keepBest. cbn [scorer.Position]. by rewrite Hps.
Qed.

Lemma keepBest_spec ps sg :
  (forall p x, keepBest ps sg !! p = Some x ->
     (x = sg /\ p = scorer.Position sg) \/ ps !! p = Some x)
  /\ (exists x, keepBest ps sg !! scorer.Position sg = Some x
        /\ gt (scorer.LinkScore sg) (scorer.LinkScore x) = false)
  /\ (forall p x, ps !! p = Some x ->
        exists x', keepBest ps sg !! p = Some x'
          /\ gt (scorer.LinkScore x) (scorer.LinkScore x') = false).
Proof.
  unfold keepBest.
  destruct (ps !! scorer.Position sg) as [existing|] eqn:He;
    [destruct (gt _ _) eqn:Hgt|].
  - split; [|split].
    + intros p x. rewrite lookup_insert. case_decide; [|by right].
      intros [= <-]. by left.
    + exists sg. by rewrite lookup_insert_eq, gt_irrefl.
    + intros p x Hx. rewrite lookup_insert. case_decide as Hp.
      * exists sg. split; [done|]. rewrite <- Hp, He in Hx.
        injection Hx as <-. by apply gt_asym.
      * exists x. by rewrite gt_irrefl.
  - split; [by right|]. split; [by exists existing|].
    intros p x Hx. exists x. by rewrite gt_irrefl.
  - split; [|split].
    + intros p x. rewrite lookup_insert. case_decide; [|by right].
      intros [= <-]. by left.
    + exists sg. by rewrite lookup_insert_eq, gt_irrefl.
    + intros p x Hx. rewrite lookup_insert. case_decide as Hp.
      * rewrite <- Hp, He in Hx. done.
      * exists x. by rewrite gt_irrefl.
Qed.

Lemma fold_targetStep a doc content wo
    (l : list (bytes * scorer.Document)) ps0 :
  (forall p x, ps0 !! p = Some x -> scorer.LinkScore x <> NaN) ->
  let ps := fold_left (targetStep a doc content wo) l ps0 in
  (forall p x, ps !! p = Some x ->
     ps0 !! p = Some x
     \/ (scorer.Position x = p
         /\ exists kv, kv ∈ l
              /\ suggestionFor a doc content wo kv.1 kv.2 = Some x))
  /\ (forall p x, ps0 !! p = Some x ->
        exists x', ps !! p = Some x'
          /\ gt (scorer.LinkScore x) (scorer.LinkScore x') = false)
  /\ (forall kv c, kv ∈ l ->
        suggestionFor a doc content wo kv.1 kv.2 = Some c ->
        exists x', ps !! scorer.Position c = Some x'
          /\ gt (scorer.LinkScore c) (scorer.LinkScore x') = false).
Proof.
  revert ps0. induction l as [|kv l IH]; intros ps0 Hok; cbn [fold_left].
  - split; [by left|]. split.
    + intros p x Hx. exists x. by rewrite gt_irrefl.
    + by intros kv c ?%elem_of_nil.
  - set (ps1 := targetStep a doc content wo ps0 kv).
    assert (forall p x, ps1 !! p = Some x ->
              (ps0 !! p = Some x
               \/ (scorer.Position x = p
                   /\ suggestionFor a doc content wo kv.1 kv.2 = Some x))
              /\ scorer.LinkScore x <> NaN) as Hps1.
    { intros p x. unfold ps1, targetStep.
      destruct (suggestionFor a doc content wo kv.1 kv.2) as [sg|] eqn:Hsg.
      - intros [[-> ->]|Hx]%keepBest_spec.
        + split; [by right|].
          apply suggestionFor_inv in Hsg as (_ & Hge & occ & _ & ->).
          by apply ge_not_NaN in Hge.
        + split; [by left|]. by apply (Hok p).
      - intros Hx. split; [by left|]. by apply (Hok p). }
    assert (forall p x, ps0 !! p = Some x ->
              exists x', ps1 !! p = Some x'
                /\ gt (scorer.LinkScore x) (scorer.LinkScore x') = false)
      as Hmono.
    { intros p x Hx. unfold ps1, targetStep.
      destruct (suggestionFor a doc content wo kv.1 kv.2) as [sg|].
      - by apply keepBest_spec.
      - exists x. by rewrite gt_irrefl. }
    destruct (IH ps1) as (HA & HB & HC); [intros p x Hx; by apply (Hps1 p)|].
    split; [|split].
    + intros p x [Hx|(Hp & kv' & Hin & Hsg)]%HA.
      * destruct (Hps1 _ _ Hx) as [[?|[? ?]] _]; [by left|].
        right. split; [done|]. exists kv. split; [by left|done].
      * right. split; [done|]. exists kv'. split; [by right|done].
    + intros p x Hx. destruct (Hmono _ _ Hx) as (x1 & Hx1 & Hg1).
      destruct (HB _ _ Hx1) as (x' & Hx' & Hg').
      exists x'. split; [done|].
      eapply gt_negtrans; [|exact Hg1|exact Hg']. by apply (Hps1 p).
    + intros kv' c [->|Hin]%elem_of_cons Hc; [|by apply (HC kv')].
      assert (exists x1, ps1 !! scorer.Position c = Some x1
                /\ gt (scorer.LinkScore c) (scorer.LinkScore x1) = false)
        as (x1 & Hx1 & Hg1).
      { unfold ps1, targetStep. rewrite Hc.
        by destruct (keepBest_spec ps0 c) as (_ & Hmid & _). }
      destruct (HB _ _ Hx1) as (x' & Hx' & Hg').
      exists x'. split; [done|].
      eapply gt_negtrans; [|exact Hg1|exact Hg']. by apply (Hps1 _ _ Hx1).
Qed.

Lemma fmap_snd_position (l : list (Z * scorer.LinkSuggestion)) :
  Forall (fun kv => scorer.Position kv.2 = kv.1) l ->
  scorer.Position <$> l.*2 = l.*1.
Proof.
  induction 1 as [|kv l Hkv _ IH]; [done|]. cbn [fmap list_fmap].
  by rewrite Hkv, <- IH.
Qed.

(** C9, as the code has it.  Whatever order the runtime visits the maps in,
    the suggestions of one document have distinct byte positions; each one
    comes from a target document other than the source whose score reaches
    the threshold, links the first occurrence of a term of the source whose
    count in the target's table is positive and is the highest among the
    terms of the source, and no target competing for the same position has
    a higher score.  Which of several terms of equal count, or targets of
    equal score, is kept depends on the visiting order. *)
Theorem analyzeSingleDocument_spec (a : Analyzer S) (doc : scorer.Document) :
  match analyzeSingleDocument a doc with
  | None => ReadFile (scorer.Path doc) = None
  | Some suggestions =>
      exists content,
        ReadFile (scorer.Path doc) = Some content
        /\ let occurrences :=
             markdown.FindWordOccurrences (parser a) content 3 in
           NoDup (scorer.Position <$> suggestions)
           /\ (forall sg, sg ∈ suggestions ->
                exists targetDoc freq occ,
                  docs a !! scorer.TargetPath sg = Some targetDoc
                  /\ scorer.TargetPath sg <> scorer.Path doc
                  /\ scorer.LinkScore sg
                     = Scorer_Score (scorer_ a) content targetDoc
                  /\ ge (scorer.LinkScore sg) (MinScore (config a)) = true
                  /\ scorer.WordFreq targetDoc !! scorer.WordToLink sg
                     = Some freq
                  /\ 0 < freq
                  /\ (forall o f, o ∈ occurrences ->
                        scorer.WordFreq targetDoc !! markdown.Word o = Some f
                        -> f <= freq)
                  /\ head (filter
                             (fun o => markdown.Word o = scorer.WordToLink sg)
                             occurrences) = Some occ
                  /\ scorer.Position sg = markdown.Position occ
                  /\ scorer.Context sg = markdown.Context occ)
           /\ (forall targetPath targetDoc c,
                docs a !! targetPath = Some targetDoc ->
                suggestionFor a doc content (groupByWord occurrences)
                  targetPath targetDoc = Some c ->
                exists sg, sg ∈ suggestions
                  /\ scorer.Position sg = scorer.Position c
                  /\ gt (scorer.LinkScore c) (scorer.LinkScore sg) = false)
  end.
Proof.
  unfold analyzeSingleDocument.
  destruct (ReadFile (scorer.Path doc)) as [content|]; [|done].
  exists content. split; [done|]. unfold positionSuggestions. cbv zeta.
  set (occurrences := markdown.FindWordOccurrences (parser a) content 3).
  destruct (fold_targetStep a doc content (groupByWord occurrences)
              (range (docs a)) ∅) as (HA & _ & HC);
    [intros p x; by rewrite lookup_empty|].
  set (ps := fold_left _ _ _) in *.
  assert (forall p x, ps !! p = Some x ->
            scorer.Position x = p
            /\ exists kv, kv ∈ range (docs a)
                 /\ suggestionFor a doc content (groupByWord occurrences)
                      kv.1 kv.2 = Some x) as Hps.
  { intros p x [Hx|?]%HA; [by rewrite lookup_empty in Hx|done]. }
  split; [|split].
  - rewrite (range_perm _ _ ps), fmap_snd_position.
    + apply NoDup_fst_map_to_list.
    + apply Forall_forall. intros [p x] Hpx%elem_of_map_to_list.
      by apply Hps.
  - intros sg ([p x] & -> & Hpx)%list_elem_of_fmap.
    apply range_lookup in Hpx. destruct (Hps _ _ Hpx)
      as (_ & [tp td] & Hkv & Hsg).
    apply range_lookup in Hkv. simpl in *.
    apply suggestionFor_inv in Hsg as (Hne & Hge & occ & Hbest & ->).
    apply bestOccurrence_spec in Hbest as (freq & Hf & Hpos & Hmax & Hhd).
    exists td, freq, occ. simpl. by repeat split.
  - intros tp td c Htd Hc.
    destruct (HC (tp, td) c) as (x & Hx & Hg); [by apply range_lookup|done|].
    exists x. split; [|split; [by apply Hps in Hx as [? _]|done]].
    apply list_elem_of_fmap. exists (scorer.Position c, x).
    split; [done|]. by apply range_lookup.
Qed.

End analysis.

(** *** Two runs on one corpus *)

(** Two files: the source "s.md" and the target "t.md", whose table has both
    bigrams of the source once. *)
Definition exampleParser : markdown.Parser :=
  markdown.NewParser markdown.plainParagraph
    {| markdown.MinNGram := 2; markdown.MaxNGram := 2 |}.

Definition sourceText : bytes := str "alpha bravo charlie".

Definition targetText : bytes := str "bravo charlie alpha bravo".

Definition sourceDoc : scorer.Document := {|
  scorer.Path := str "s.md";
  scorer.Content := [];
  scorer.WordFreq :=
    @markdown.ParseContent insertionSortRuntime exampleParser sourceText
|}.

Definition targetDoc : scorer.Document := {|
  scorer.Path := str "t.md";
  scorer.Content := [];
  scorer.WordFreq :=
    @markdown.ParseContent insertionSortRuntime exampleParser targetText
|}.

Definition exampleFiles (path : bytes) : option bytes :=
  if bool_decide (path = str "s.md") then Some sourceText
  else if bool_decide (path = str "t.md") then Some targetText
  else None.

(** The scorer after [loadDocuments] has walked the two files. *)
Definition exampleCorpus : scorer.BM25Scorer :=
  @scorer.processAll rangeForward (scorer.NewBM25Scorer 2)
    [sourceDoc; targetDoc].

Definition exampleDocs : gmap bytes scorer.Document :=
  <[str "s.md" := sourceDoc]> (<[str "t.md" := targetDoc]> ∅).

Definition exampleAnalyzer : Analyzer scorer.BM25Scorer := {|
  parser := exampleParser;
  scorer_ := exampleCorpus;
  config := {| MinScore := Fin 0.3; DryRun := true; SingleFile := [];
               TargetDir := str "."; CacheDir := str ".cache";
               ParserConfig := {| markdown.MinNGram := 2;
                                  markdown.MaxNGram := 2 |} |};
  docs := exampleDocs
|}.

(** The linked term and its position, for each suggestion of a run. *)
Definition choice (run : option (list scorer.LinkSuggestion))
  : option (list (bytes * Z)) :=
  match run with
  | Some suggestions =>
      Some ((fun sg => (scorer.WordToLink sg, scorer.Position sg))
              <$> suggestions)
  | None => None
  end.

Lemma ln_four_thirds : (1 / 4 < ln (1 + (1 - 1 + 0.5) / (1 + 0.5)))%R.
Proof.
  apply exp_lt_inv. rewrite exp_ln by lra.
  pose proof (exp_ineq1 (- (1 / 4)) ltac:(lra)) as Hexp.
  rewrite exp_Ropp in Hexp.
  assert (0 < exp (1 / 4))%R as Hpos by apply exp_pos.
  apply (Rmult_lt_compat_r (exp (1 / 4))) in Hexp; [|done].
  rewrite Rinv_l in Hexp by lra. lra.
Qed.

(** The IDF of a term of the source: cached when the source, the first
    document, was processed. *)
Lemma example_idf t :
  scorer.WordFreq sourceDoc !! t = Some 1 ->
  exists r0,
    scorer.idf exampleCorpus !! t = Some (Fin r0) /\ (1 / 4 < r0)%R.
Proof.
  intros Ht. unfold exampleCorpus.
  change (@scorer.processAll rangeForward (scorer.NewBM25Scorer 2)
            [sourceDoc; targetDoc])
    with (@scorer.processAll rangeForward
            (@scorer.ProcessDocument rangeForward (scorer.NewBM25Scorer 2)
               sourceDoc) [targetDoc]).
  eexists. split.
  - apply scorer.idf_cached. rewrite scorer.ProcessDocument_idf.
    change (scorer.idf (scorer.NewBM25Scorer 2) !! t) with (@None float64).
    rewrite bool_decide_eq_true_2.
    + f_equal. apply (scorer.newIDF_real _ t).
    + apply scorer.df_pos. exists sourceDoc. split; [left|]. by rewrite Ht.
  - cbv zeta.
    assert (scorer.df (scorer.docs (scorer.NewBM25Scorer 2) ++ [sourceDoc]) t
            = 1) as ->.
    { unfold scorer.df. simpl.
      rewrite filter_cons_True by (rewrite Ht; eauto). done. }
    change (len (scorer.docs (scorer.NewBM25Scorer 2) ++ [sourceDoc]))
      with 1.
    apply ln_four_thirds.
Qed.

(** The source text scores the target above the threshold 0.3. *)
Lemma example_score :
  ge (scorer.Score exampleCorpus sourceText targetDoc) (Fin 0.3) = true.
Proof.
  destruct (example_idf (str "alpha bravo")) as (r1 & Hv1 & Hr1);
    [by vm_compute|].
  destruct (example_idf (str "bravo charlie")) as (r2 & Hv2 & Hr2);
    [by vm_compute|].
  pose proof (@scorer.corpusOK_processAll rangeForward 2
                [sourceDoc; targetDoc]) as (Hk & Hb & _ & Havg).
  fold exampleCorpus in Hk, Hb, Havg.
  destruct (@scorer.processAll_fields rangeForward (scorer.NewBM25Scorer 2)
              [sourceDoc; targetDoc]) as (Hdocs & _ & _ & Hmax).
  fold exampleCorpus in Hdocs, Hmax.
  change (scorer.docs (scorer.NewBM25Scorer 2) ++ [sourceDoc; targetDoc])
    with [sourceDoc; targetDoc] in Hdocs.
  change (scorer.maxNGram (scorer.NewBM25Scorer 2)) with 2 in Hmax.
  rewrite Hdocs in Havg. specialize (Havg ltac:(done)).
  replace (scorer.totalLength [sourceDoc; targetDoc]) with 5 in Havg
    by (vm_compute; reflexivity).
  change (len [sourceDoc; targetDoc]) with 2 in Havg.
  rewrite scorer.Score_sum, Hmax.
  replace (scorer.queryNGrams (Fields (ToLower sourceText)) 2)
    with [str "alpha"; str "bravo"; str "charlie"; str "alpha bravo";
          str "bravo charlie"] by (vm_compute; reflexivity).
  cbn [omap list_omap]. unfold scorer.contribution.
  replace (scorer.WordFreq targetDoc !! str "alpha") with (@None Z)
    by (vm_compute; reflexivity).
  replace (scorer.WordFreq targetDoc !! str "bravo") with (@None Z)
    by (vm_compute; reflexivity).
  replace (scorer.WordFreq targetDoc !! str "charlie") with (@None Z)
    by (vm_compute; reflexivity).
  replace (scorer.WordFreq targetDoc !! str "alpha bravo") with (Some 1)
    by (vm_compute; reflexivity).
  replace (scorer.WordFreq targetDoc !! str "bravo charlie") with (Some 1)
    by (vm_compute; reflexivity).
  rewrite Hv1, Hv2, Hk, Hb, Havg.
  replace (scorer.tableLen targetDoc) with 3 by (vm_compute; reflexivity).
  replace (len (Fields (str "alpha bravo"))) with 2
    by (vm_compute; reflexivity).
  replace (len (Fields (str "bravo charlie"))) with 2
    by (vm_compute; reflexivity).
  unfold of_int, scorer.fsum.
  rewrite !scorer.termScore_real by lra. cbn [fold_left]. rewrite !add_Fin.
  simpl. destruct (Rle_dec _ _) as [|Hn]; [done|]. exfalso. apply Hn. lra.
Qed.

(** C9, as the claim states it, fails: the two bigrams of the source have
    the same count in the target's table, and the run that visits
    "alpha bravo" first links it at position 0, while the run that visits
    "bravo charlie" first links that one at position 6. *)
Lemma analysis_depends_on_map_order :
  choice (@analyzeSingleDocument insertionSortRuntime rangeForward _
            (@BM25 rangeForward) exampleFiles exampleAnalyzer sourceDoc)
  = Some [(str "alpha bravo", 0)]
  /\ choice (@analyzeSingleDocument insertionSortRuntime rangeBackward _
               (@BM25 rangeBackward) exampleFiles exampleAnalyzer sourceDoc)
     = Some [(str "bravo charlie", 6)].
Proof.
  split.
  - unfold analyzeSingleDocument.
    replace (exampleFiles (scorer.Path sourceDoc)) with (Some sourceText)
      by (vm_compute; reflexivity).
    unfold positionSuggestions. cbn [docs parser exampleAnalyzer].
    replace (@range rangeForward _ _ _ _ exampleDocs)
      with [(str "t.md", targetDoc); (str "s.md", sourceDoc)]
      by (vm_compute; reflexivity).
    cbn [fold_left]. set (wo := groupByWord _).
    rewrite (targetStep_fresh _ _ _ _ ∅ (str "t.md", targetDoc)
      {| markdown.Word := str "alpha bravo"; markdown.Position := 0;
         markdown.Context := str "alpha bravo charlie" |});
      [|vm_compute; congruence|apply example_score
       |vm_compute; reflexivity|done].
    rewrite targetStep_source by done.
    cbn [markdown.Position range rangeForward fst snd].
    rewrite insert_empty, map_to_list_singleton. reflexivity.
  - unfold analyzeSingleDocument.
    replace (exampleFiles (scorer.Path sourceDoc)) with (Some sourceText)
      by (vm_compute; reflexivity).
    unfold positionSuggestions. cbn [docs parser exampleAnalyzer].
    replace (@range rangeBackward _ _ _ _ exampleDocs)
      with [(str "s.md", sourceDoc); (str "t.md", targetDoc)]
      by (vm_compute; reflexivity).
    cbn [fold_left]. set (wo := groupByWord _).
    rewrite (targetStep_source _ _ _ _ ∅ (str "s.md", sourceDoc)) by done.
    rewrite (targetStep_fresh _ _ _ _ ∅ (str "t.md", targetDoc)
      {| markdown.Word := str "bravo charlie"; markdown.Position := 6;
         markdown.Context := str "alpha bravo charlie" |});
      [|vm_compute; congruence|apply example_score
       |vm_compute; reflexivity|done].
    cbn [markdown.Position range rangeBackward fst snd].
    rewrite insert_empty, map_to_list_singleton. reflexivity.
Qed.

(** *** The suggestions as a whole *)

Section suggestions.
Context `{GoSort} `{GoMapRange} {S : Type} `{Scorer S}.
Variable ReadFile : bytes -> option bytes.

(** What the loop over the targets leaves in the map: every entry is the
    suggestion of its own target document, at its own position. *)
Lemma positionSuggestions_entries (a : Analyzer S) (doc : scorer.Document)
    (content : bytes) p x :
  positionSuggestions a doc content !! p = Some x ->
  scorer.Position x = p
  /\ exists targetDoc,
       docs a !! scorer.TargetPath x = Some targetDoc
       /\ suggestionFor a doc content
            (groupByWord
               (markdown.FindWordOccurrences (parser a) content 3))
            (scorer.TargetPath x) targetDoc = Some x.
Proof.
  unfold positionSuggestions. cbv zeta.
  set (wo := groupByWord _).
  destruct (fold_targetStep a doc content wo (range (docs a)) ∅)
    as (HA & _ & _); [intros q y; by rewrite lookup_empty|].
  intros [Hx|(Hp & [tp td] & Hkv & Hsg)]%HA;
    [by rewrite lookup_empty in Hx|].
  split; [done|]. apply range_lookup in Hkv. simpl in Hsg.
  apply suggestionFor_inv in Hsg as Hinv.
  destruct Hinv as (_ & _ & occ & _ & Hx). rewrite Hx in *. simpl.
  by exists td.
Qed.

(** X19. The suggestions of one document name every target document at
    most once and name the document itself as their source; there are no
    more of them than documents in the corpus. *)
Theorem analyzeSingleDocument_targets (a : Analyzer S)
    (doc : scorer.Document) :
  match analyzeSingleDocument ReadFile a doc with
  | None => ReadFile (scorer.Path doc) = None
  | Some suggestions =>
      NoDup (scorer.TargetPath <$> suggestions)
      /\ Forall (fun sg => scorer.SourcePath sg = scorer.Path doc)
           suggestions
      /\ (length suggestions <= size (docs a))%nat
  end.
Proof.
  unfold analyzeSingleDocument.
  destruct (ReadFile (scorer.Path doc)) as [content|]; [|done].
  set (ps := positionSuggestions a doc content).
  assert (forall px, px ∈ range ps ->
    scorer.Position px.2 = px.1
    /\ exists targetDoc,
         docs a !! scorer.TargetPath px.2 = Some targetDoc
         /\ suggestionFor a doc content
              (groupByWord
                 (markdown.FindWordOccurrences (parser a) content 3))
              (scorer.TargetPath px.2) targetDoc = Some px.2) as Hps.
  { intros [p x] Hpx%range_lookup. by apply positionSuggestions_entries. }
  assert (NoDup (scorer.TargetPath <$> (range ps).*2)) as Hnodup.
  { rewrite <- list_fmap_compose. apply NoDup_fmap_2_strong.
    - intros [p x] [p' x'] Hpx Hpx' Heq. simpl in Heq.
      destruct (Hps _ Hpx) as (Hp & td & Htd & Hx).
      destruct (Hps _ Hpx') as (Hp' & td' & Htd' & Hx'). simpl in *.
      rewrite Heq, Htd' in Htd. injection Htd as <-.
      rewrite Heq, Hx' in Hx. injection Hx as <-. congruence.
    - rewrite range_perm. apply NoDup_map_to_list. }
  split; [done|]. split.
  - apply Forall_forall. intros sg ([p x] & -> & Hpx)%list_elem_of_fmap.
    destruct (Hps _ Hpx) as (_ & td & _ & Hx). simpl in *.
    by apply suggestionFor_inv in Hx as (_ & _ & occ & _ & ->).
  - rewrite <- (length_fmap scorer.TargetPath).
    rewrite <- (length_map_to_list (docs a)).
    rewrite <- (length_fmap fst (map_to_list (docs a))).
    apply submseteq_length, NoDup_submseteq; [done|].
    intros tp (sg & -> & ([p x] & -> & Hpx)%list_elem_of_fmap)
      %list_elem_of_fmap.
    destruct (Hps _ Hpx) as (_ & td & Htd & _). simpl in *.
    apply list_elem_of_fmap. exists (scorer.TargetPath x, td).
    split; [done|]. by apply elem_of_map_to_list.
Qed.

Lemma range_empty {K} `{Countable K} {V} : range (∅ : gmap K V) = [].
Proof.
  apply Permutation_nil_r. by rewrite range_perm, map_to_list_empty.
Qed.

(** X20. A document in which the tokenizer finds no occurrence gets no
    suggestion, whatever the corpus holds. *)
Theorem analyzeSingleDocument_no_occurrences (a : Analyzer S)
    (doc : scorer.Document) (content : bytes) :
  ReadFile (scorer.Path doc) = Some content ->
  markdown.FindWordOccurrences (parser a) content 3 = [] ->
  analyzeSingleDocument ReadFile a doc = Some [].
Proof.
  intros Hread Hnone. unfold analyzeSingleDocument. rewrite Hread.
  assert (positionSuggestions a doc content = ∅) as ->;
    [|by rewrite range_empty].
  unfold positionSuggestions. rewrite Hnone. cbv zeta.
  cbn [groupByWord fold_left].
  generalize (range (docs a)). intros l.
  induction l as [|kv l IH]; [done|]. cbn [fold_left].
  assert (targetStep a doc content ∅ ∅ kv = ∅) as ->; [|done].
  unfold targetStep, suggestionFor, bestOccurrence.
  rewrite range_empty. simpl.
  destruct (bool_decide _); [done|]. by destruct (ge _ _).
Qed.

End suggestions.

Lemma analyzeSingleDocument_no_occurrences_witness :
  let read (path : bytes) := Some (str " 42 is it ") in
  read (scorer.Path sourceDoc) = Some (str " 42 is it ")
  /\ @markdown.FindWordOccurrences insertionSortRuntime
       (parser exampleAnalyzer) (str " 42 is it ") 3 = []
  /\ @analyzeSingleDocument insertionSortRuntime rangeForward _
       (@BM25 rangeForward) read exampleAnalyzer sourceDoc = Some [].
Proof.
  intros read.
  assert (@markdown.FindWordOccurrences insertionSortRuntime
            exampleParser (str " 42 is it ") 3 = []) as Hnone
    by (vm_compute; reflexivity).
  split; [reflexivity|]. split; [exact Hnone|].
  apply (@analyzeSingleDocument_no_occurrences insertionSortRuntime
           rangeForward _ (@BM25 rangeForward) read exampleAnalyzer
           sourceDoc (str " 42 is it ") eq_refl Hnone).
Defined.

(** *** Loading the corpus *)

(** One call of the function given to [filepath.Walk]: the path, whether it
    is a directory, and whether the walk reports an error for it. *)
Record WalkEntry := {
  entryPath : bytes;
  entryIsDir : bool;
  entryErr : bool
}.

Section corpus.
Context `{GoSort} `{GoMapRange} {S : Type} `{Scorer S}.

(** [os.ReadFile] *)
Variable ReadFile : bytes -> option bytes.

(** [filepath.Walk(root, fn)]: the calls of [fn], in order, as long as [fn]
    returns no error. *)
Variable filepath_Walk : bytes -> list WalkEntry.

(** [cache.Get]: [None] is an error, [Some None] no fresh entry. *)
Variable cache_Get : bytes -> option (option (gmap bytes Z)).

(** [cache.Set]: whether the entry could be written. *)
Variable cache_Set : bytes -> gmap bytes Z -> bool.

(** The table of a file: from the cache, or parsed and then cached. *)
Definition wordFreqOf (p : markdown.Parser) (path : bytes)
  : option (gmap bytes Z) :=
  cached ← cache_Get path;
  match cached with
  | Some wordFreq => Some wordFreq
  | None =>
      content ← ReadFile path;
      let wordFreq := markdown.ParseContent p content in
      if cache_Set path wordFreq then Some wordFreq else None
  end.

(** The document of a file; its [Content] is never set. *)
Definition documentOf (p : markdown.Parser) (path : bytes)
  : option scorer.Document :=
  wordFreq ← wordFreqOf p path;
  Some {| scorer.Path := path; scorer.Content := [];
          scorer.WordFreq := wordFreq |}.

(** The files the walk keeps. *)
Definition isMarkdownFile (e : WalkEntry) : bool :=
  negb (entryIsDir e || negb (HasSuffix (ToLower (entryPath e)) (str ".md"))).

(** The function given to [filepath.Walk]; [None] is an error. *)
Definition walkFn (a : Analyzer S) (e : WalkEntry) : option (Analyzer S) :=
  if entryErr e then None
  else if entryIsDir e || negb (HasSuffix (ToLower (entryPath e)) (str ".md"))
  then Some a
  else
    doc ← documentOf (parser a) (entryPath e);
    Some {| parser := parser a;
            scorer_ := Scorer_ProcessDocument (scorer_ a) doc;
            config := config a;
            docs := <[entryPath e := doc]> (docs a) |}.

(** [loadDocuments]: the walk stops at the first error. *)
Definition loadDocuments (a : Analyzer S) : option (Analyzer S) :=
  fold_left (fun r e => a ← r; walkFn a e)
    (filepath_Walk (TargetDir (config a))) (Some a).

(** [Analyze], with the analyzer it leaves behind; what it prints is left
    out. *)
Definition Analyze (a : Analyzer S)
  : option (Analyzer S * list scorer.LinkSuggestion) :=
  a ← loadDocuments a;
  if negb (bool_decide (SingleFile (config a) = [])) then
    doc ← docs a !! SingleFile (config a);
    suggestions ← analyzeSingleDocument ReadFile a doc;
    Some (a, suggestions)
  else
    suggestions ←
      fold_left
        (fun r kv =>
           suggestions ← r;
           docSuggestions ← analyzeSingleDocument ReadFile a kv.2;
           Some (suggestions ++ docSuggestions))
        (range (docs a)) (Some []);
    Some (a, suggestions).

(** An entry at which the walk stops. *)
Definition entryFails (p : markdown.Parser) (e : WalkEntry) : bool :=
  entryErr e
  || (isMarkdownFile e && bool_decide (documentOf p (entryPath e) = None)).

Lemma fold_walkFn_None (l : list WalkEntry) :
  fold_left (fun r e => a ← r; walkFn a e) l None = None.
Proof. by induction l. Qed.

Lemma walkFn_fields a e a' :
  walkFn a e = Some a' -> parser a' = parser a /\ config a' = config a.
Proof.
  unfold walkFn. destruct (entryErr e); [done|].
  destruct (_ || _); [by intros [= <-]|].
  destruct (documentOf _ _); [|done]. by intros [= <-].
Qed.

Lemma walkFn_None a e :
  walkFn a e = None <-> entryFails (parser a) e = true.
Proof.
  unfold walkFn, entryFails, isMarkdownFile.
  destruct (entryErr e); [done|]. destruct (_ || _); [done|]. simpl.
  destruct (documentOf (parser a) (entryPath e)); simpl;
    split; try done; by case_bool_decide.
Qed.

(** What a successful walk leaves behind, entry by entry. *)
Lemma fold_walkFn (l : list WalkEntry) (a a' : Analyzer S) :
  fold_left (fun r e => a ← r; walkFn a e) l (Some a) = Some a' ->
  parser a' = parser a /\ config a' = config a
  /\ exists ds,
       Forall2 (fun e d => documentOf (parser a) (entryPath e) = Some d)
         (filter (fun e => isMarkdownFile e = true) l) ds
       /\ scorer_ a' = fold_left Scorer_ProcessDocument ds (scorer_ a)
       /\ docs a'
          = fold_left (fun m d => <[scorer.Path d := d]> m) ds (docs a).
Proof.
  revert a. induction l as [|e l IH]; intros a.
  - intros [= <-]. repeat split; try done. by exists [].
  - cbn [fold_left]. simpl. destruct (walkFn a e) as [a1|] eqn:Hstep;
      [|by rewrite fold_walkFn_None].
    intros (Hp & Hc & ds & Hds & Hsc & Hdocs)%IH.
    destruct (walkFn_fields _ _ _ Hstep) as [Hp1 Hc1].
    rewrite Hp1 in *. rewrite Hc1 in *. split; [done|]. split; [done|].
    revert Hstep. unfold walkFn. rewrite filter_cons. unfold isMarkdownFile.
    destruct (entryErr e); [done|].
    destruct (entryIsDir e || _) eqn:Hmd; simpl.
    + intros [= <-]. by exists ds.
    + destruct (documentOf (parser a) (entryPath e)) as [d|] eqn:Hd;
        [|done]. simpl. intros [= <-]. simpl in *.
      assert (scorer.Path d = entryPath e) as Hpath.
      { unfold documentOf in Hd. destruct (wordFreqOf _ _); [|done].
        by injection Hd as <-. }
      exists (d :: ds). split; [by constructor|]. simpl.
      by rewrite Hpath.
Qed.

Lemma fold_walkFn_error (l : list WalkEntry) (a : Analyzer S) :
  fold_left (fun r e => a ← r; walkFn a e) l (Some a) = None
  <-> Exists (fun e => entryFails (parser a) e = true) l.
Proof.
  revert a. induction l as [|e l IH]; intros a.
  - split; [done|by intros ?%Exists_nil].
  - cbn [fold_left]. simpl. rewrite Exists_cons, <- walkFn_None.
    destruct (walkFn a e) as [a1|] eqn:Hstep.
    + destruct (walkFn_fields _ _ _ Hstep) as [<- _]. rewrite IH.
      split; [by right|]. by intros [?|?].
    + rewrite fold_walkFn_None. split; [by left|done].
Qed.

(** X21. [loadDocuments] fails exactly when the walk reports an error or
    a markdown file has no table: its cache entry cannot be checked, or it
    has none and the file cannot be read or the new entry cannot be
    written.  Otherwise it keeps the parser and the configuration, feeds
    the ranker the document of every walked markdown file, once and in walk
    order, and stores each document under its path. *)
Theorem loadDocuments_spec (a : Analyzer S) :
  let walk := filepath_Walk (TargetDir (config a)) in
  match loadDocuments a with
  | None => Exists (fun e => entryFails (parser a) e = true) walk
  | Some a' =>
      Forall (fun e => entryFails (parser a) e = false) walk
      /\ parser a' = parser a /\ config a' = config a
      /\ exists ds,
           Forall2 (fun e d => documentOf (parser a) (entryPath e) = Some d)
             (filter (fun e => isMarkdownFile e = true) walk) ds
           /\ scorer_ a' = fold_left Scorer_ProcessDocument ds (scorer_ a)
           /\ docs a'
              = fold_left (fun m d => <[scorer.Path d := d]> m) ds (docs a)
  end.
Proof.
  intros walk. unfold loadDocuments. fold walk.
  destruct (fold_left _ walk (Some a)) as [a'|] eqn:Hload.
  - split; [|by apply fold_walkFn].
    apply Forall_forall. intros e He.
    destruct (entryFails (parser a) e) eqn:Hfail; [|done].
    assert (Exists (fun e => entryFails (parser a) e = true) walk) as Hex
      by (apply Exists_exists; eauto).
    apply fold_walkFn_error in Hex. congruence.
  - by apply fold_walkFn_error.
Qed.

(** Every document is stored under its own path. *)
Definition keyedByPath (m : gmap bytes scorer.Document) : Prop :=
  forall k d, m !! k = Some d -> scorer.Path d = k.

Lemma fold_insert_keyed (ds : list scorer.Document) m :
  keyedByPath m ->
  keyedByPath (fold_left (fun m d => <[scorer.Path d := d]> m) ds m).
Proof.
  revert m. induction ds as [|d ds IH]; intros m Hm; [done|].
  apply IH. intros k d'. rewrite lookup_insert. case_decide; [|apply Hm].
  by intros [= <-].
Qed.

Lemma loadDocuments_keyed (a a' : Analyzer S) :
  loadDocuments a = Some a' -> keyedByPath (docs a) -> keyedByPath (docs a').
Proof.
  intros (_ & _ & ds & _ & _ & ->)%fold_walkFn. apply fold_insert_keyed.
Qed.

Lemma analyzeSingleDocument_sources (a : Analyzer S) doc suggestions :
  analyzeSingleDocument ReadFile a doc = Some suggestions ->
  Forall (fun sg =>
    scorer.SourcePath sg = scorer.Path doc
    /\ scorer.TargetPath sg <> scorer.Path doc
    /\ is_Some (docs a !! scorer.TargetPath sg)) suggestions.
Proof.
  unfold analyzeSingleDocument.
  destruct (ReadFile (scorer.Path doc)) as [content|]; [|done].
  intros [= <-]. apply Forall_forall.
  intros sg ([p x] & -> & Hpx%range_lookup)%list_elem_of_fmap.
  apply positionSuggestions_entries in Hpx as (_ & td & Htd & Hx).
  simpl. apply suggestionFor_inv in Hx as Hinv.
  destruct Hinv as (Hne & _ & occ & _ & Heq).
  split; [by rewrite Heq|]. split; [done|]. by rewrite Htd.
Qed.

(** X22. Starting from documents stored under their own paths, as the
    empty map of a new analyzer is, every suggestion [Analyze] returns
    links two different loaded documents; in single-file mode its source
    is that file. *)
Theorem Analyze_suggestions (a a' : Analyzer S)
    (suggestions : list scorer.LinkSuggestion) :
  keyedByPath (docs a) ->
  Analyze a = Some (a', suggestions) ->
  Forall (fun sg =>
    scorer.SourcePath sg <> scorer.TargetPath sg
    /\ is_Some (docs a' !! scorer.SourcePath sg)
    /\ is_Some (docs a' !! scorer.TargetPath sg)
    /\ (SingleFile (config a) <> [] ->
        scorer.SourcePath sg = SingleFile (config a))) suggestions.
Proof.
  intros Hkeyed. unfold Analyze.
  destruct (loadDocuments a) as [a1|] eqn:Hload; [|done]. simpl.
  pose proof (loadDocuments_keyed _ _ Hload Hkeyed) as Hk1.
  apply fold_walkFn in Hload as (_ & Hcfg & _). rewrite Hcfg.
  assert (forall k doc l, docs a1 !! k = Some doc ->
    analyzeSingleDocument ReadFile a1 doc = Some l ->
    Forall (fun sg =>
      scorer.SourcePath sg <> scorer.TargetPath sg
      /\ is_Some (docs a1 !! scorer.SourcePath sg)
      /\ is_Some (docs a1 !! scorer.TargetPath sg)
      /\ scorer.SourcePath sg = k) l) as Hone.
  { intros k doc l Hdoc Hl%analyzeSingleDocument_sources.
    eapply Forall_impl; [exact Hl|]. intros sg (Hsrc & Hne & Htgt). simpl.
    rewrite Hsrc, (Hk1 _ _ Hdoc).
    split; [rewrite <- (Hk1 _ _ Hdoc); congruence|].
    split; [by rewrite Hdoc|]. by split. }
  case_bool_decide as Hsingle; simpl.
  - assert (forall kv, kv ∈ range (docs a1) ->
              docs a1 !! kv.1 = Some kv.2) as Hl
      by (intros [k v]; apply range_lookup).
    revert Hl. generalize (range (docs a1)). intros l Hl.
    assert (forall acc r,
      Forall (fun sg =>
        scorer.SourcePath sg <> scorer.TargetPath sg
        /\ is_Some (docs a1 !! scorer.SourcePath sg)
        /\ is_Some (docs a1 !! scorer.TargetPath sg)) acc ->
      fold_left
        (fun r kv =>
           suggestions ← r;
           docSuggestions ← analyzeSingleDocument ReadFile a1 kv.2;
           Some (suggestions ++ docSuggestions)) l (Some acc) = Some r ->
      Forall (fun sg =>
        scorer.SourcePath sg <> scorer.TargetPath sg
        /\ is_Some (docs a1 !! scorer.SourcePath sg)
        /\ is_Some (docs a1 !! scorer.TargetPath sg)) r) as Hall.
    { induction l as [|[k doc] l IH]; intros acc r Hacc;
        [by intros [= <-]|].
      cbn [fold_left]. simpl.
      destruct (analyzeSingleDocument ReadFile a1 doc) as [ds|] eqn:Hds;
        simpl.
      - apply IH.
        + intros kv Hin. apply Hl. by right.
        + apply Forall_app. split; [done|].
          assert (docs a1 !! k = Some doc) as Hdoc
            by (apply (Hl (k, doc)); left).
          eapply Forall_impl; [exact (Hone _ _ _ Hdoc Hds)|].
          by intros sg (? & ? & ? & _).
      - clear. induction l as [|kv l IH]; [done|]. apply IH. }
    destruct (fold_left _ l (Some [])) as [r|] eqn:Hfold; [|done].
    simpl. intros [= <- <-].
    eapply Forall_impl; [exact (Hall _ _ (Forall_nil_2 _) Hfold)|].
    intros sg (? & ? & ?). by repeat split.
  - destruct (docs a1 !! SingleFile (config a)) as [doc|] eqn:Hdoc;
      [|done]. simpl.
    destruct (analyzeSingleDocument ReadFile a1 doc) as [l|] eqn:Hl;
      [|done]. simpl. intros [= <- <-].
    eapply Forall_impl; [exact (Hone _ _ _ Hdoc Hl)|].
    intros sg (? & ? & ? & ?). by repeat split.
Qed.

End corpus.

(** A ranker that keeps no statistics and scores every document alike, and
    an analyzer that uses it: enough to run the walk and the analysis on two
    files. *)
Definition flatScorer : Scorer unit := {|
  Scorer_Score := fun _ _ _ => PInf;
  Scorer_ProcessDocument := fun s _ => s
|}.

Definition flatAnalyzer : Analyzer unit := {|
  parser := exampleParser;
  scorer_ := tt;
  config := {| MinScore := NInf; DryRun := false; SingleFile := [];
               TargetDir := str "."; CacheDir := str ".cache";
               ParserConfig := {| markdown.MinNGram := 2;
                                  markdown.MaxNGram := 2 |} |};
  docs := ∅
|}.

Definition twoFiles (root : bytes) : list WalkEntry :=
  [ {| entryPath := root; entryIsDir := true; entryErr := false |};
    {| entryPath := str "s.md"; entryIsDir := false; entryErr := false |};
    {| entryPath := str "t.md"; entryIsDir := false; entryErr := false |} ].

Lemma Analyze_suggestions_witness :
  let run :=
    @Analyze insertionSortRuntime rangeForward unit flatScorer exampleFiles
      twoFiles (fun _ => Some None) (fun _ _ => true) flatAnalyzer in
  keyedByPath (docs flatAnalyzer)
  /\ exists a' suggestions,
       run = Some (a', suggestions)
       /\ Forall (fun sg =>
            scorer.SourcePath sg <> scorer.TargetPath sg
            /\ is_Some (docs a' !! scorer.SourcePath sg)
            /\ is_Some (docs a' !! scorer.TargetPath sg)
            /\ (SingleFile (config flatAnalyzer) <> [] ->
                scorer.SourcePath sg = SingleFile (config flatAnalyzer)))
            suggestions.
Proof.
  intros run.
  assert (keyedByPath (docs flatAnalyzer)) as Hkeyed by (by intros k d).
  split; [exact Hkeyed|].
  destruct run as [[a' suggestions]|] eqn:Hrun;
    [|vm_compute in Hrun; discriminate].
  exists a', suggestions. split; [reflexivity|].
  apply (@Analyze_suggestions insertionSortRuntime rangeForward unit
           flatScorer exampleFiles twoFiles (fun _ => Some None)
           (fun _ _ => true) flatAnalyzer a' suggestions Hkeyed Hrun).
Defined.

(** *** Writing the links *)

(** The files, as [os.ReadFile] and [os.WriteFile] see them.  A write that
    succeeds is read back, and a write leaves the files at other paths as
    they were; two paths that name one file are outside this contract. *)
Class GoFiles := {
  Files : Type;
  os_ReadFile : Files -> bytes -> option bytes;
  os_WriteFile : Files -> bytes -> bytes -> Files * bool;
  os_WriteFile_read fs path data fs' :
    os_WriteFile fs path data = (fs', true) ->
    os_ReadFile fs' path = Some data;
  os_WriteFile_other fs path data fs' ok other :
    os_WriteFile fs path data = (fs', ok) -> other <> path ->
    os_ReadFile fs' other = os_ReadFile fs other
}.

(** Files in memory, where every write succeeds. *)
Program Definition memoryFiles : GoFiles := {|
  Files := gmap bytes bytes;
  os_ReadFile fs path := fs !! path;
  os_WriteFile fs path data := (<[path := data]> fs, true)
|}.
Next Obligation. intros fs path data fs' [= <-]. apply lookup_insert_eq. Qed.
Next Obligation.
  intros fs path data fs' ok other [= <- _] Hne. by apply lookup_insert_ne.
Qed.

(** The loop of [ApplyChanges]: the files it leaves, and whether it
    returned no error. *)
Fixpoint applyAll `{GoFiles} (fs : Files)
    (suggestions : list scorer.LinkSuggestion) : Files * bool :=
  match suggestions with
  | [] => (fs, true)
  | suggestion :: rest =>
      match os_ReadFile fs (scorer.SourcePath suggestion) with
      | None => (fs, false)
      | Some content =>
          match markdown.InsertLink content (scorer.WordToLink suggestion)
                  (scorer.TargetPath suggestion) (scorer.Position suggestion)
          with
          | inl _ => (fs, false)
          | inr newContent =>
              let r :=
                os_WriteFile fs (scorer.SourcePath suggestion) newContent in
              if r.2 then applyAll r.1 rest else (r.1, false)
          end
      end
  end.

Definition ApplyChanges `{GoFiles} {S : Type} (a : Analyzer S) (fs : Files)
    (suggestions : list scorer.LinkSuggestion) : Files * bool :=
  if DryRun (config a) then (fs, true) else applyAll fs suggestions.

Lemma applyAll_other `{GoFiles} (fs : Files)
    (l : list scorer.LinkSuggestion) (other : bytes) :
  other ∉ scorer.SourcePath <$> l ->
  os_ReadFile (applyAll fs l).1 other = os_ReadFile fs other.
Proof.
  revert fs. induction l as [|sg l IH]; intros fs Hother; [done|].
  rewrite fmap_cons, not_elem_of_cons in Hother. destruct Hother as [Hne Hl].
  cbn [applyAll]. destruct (os_ReadFile fs (scorer.SourcePath sg)); [|done].
  destruct (markdown.InsertLink _ _ _ _) as [?|newContent]; [done|].
  destruct (os_WriteFile fs (scorer.SourcePath sg) newContent)
    as [fs1 ok] eqn:Hw. cbn [fst snd].
  pose proof (os_WriteFile_other _ _ _ _ _ other Hw Hne) as Hsame.
  destruct ok; [|done]. by rewrite IH.
Qed.

(** X23. [ApplyChanges] changes no file but the sources of the
    suggestions, whether it fails or not, and a dry run changes none and
    returns no error. *)
Theorem ApplyChanges_frame `{GoFiles} {S : Type} (a : Analyzer S)
    (fs : Files) (suggestions : list scorer.LinkSuggestion) :
  (forall other,
     other ∈ scorer.SourcePath <$> suggestions
     \/ os_ReadFile (ApplyChanges a fs suggestions).1 other
        = os_ReadFile fs other)
  /\ (DryRun (config a) = true -> ApplyChanges a fs suggestions = (fs, true)).
Proof.
  unfold ApplyChanges. split.
  - intros other.
    destruct (decide (other ∈ scorer.SourcePath <$> suggestions));
      [by left|right].
    destruct (DryRun (config a)); [done|]. by apply applyAll_other.
  - by intros ->.
Qed.

(** X24. When the suggestions have pairwise different sources and
    [ApplyChanges] returns no error, every source file holds in the end
    what [InsertLink] makes of its content at the start. *)
Theorem ApplyChanges_distinct_sources `{GoFiles} {S : Type}
    (a : Analyzer S) (fs fs' : Files)
    (suggestions : list scorer.LinkSuggestion) :
  DryRun (config a) = false ->
  NoDup (scorer.SourcePath <$> suggestions) ->
  ApplyChanges a fs suggestions = (fs', true) ->
  Forall (fun sg =>
    exists content newContent,
      os_ReadFile fs (scorer.SourcePath sg) = Some content
      /\ markdown.InsertLink content (scorer.WordToLink sg)
           (scorer.TargetPath sg) (scorer.Position sg) = inr newContent
      /\ os_ReadFile fs' (scorer.SourcePath sg) = Some newContent)
    suggestions.
Proof.
  unfold ApplyChanges. intros ->. revert fs.
  induction suggestions as [|sg l IH]; intros fs Hnodup Hrun; [done|].
  rewrite fmap_cons in Hnodup. apply NoDup_cons in Hnodup as [Hsg Hl].
  cbn [applyAll] in Hrun.
  destruct (os_ReadFile fs (scorer.SourcePath sg)) as [content|] eqn:Hread;
    [|done].
  destruct (markdown.InsertLink _ _ _ _) as [?|newContent] eqn:Hlink;
    [done|].
  destruct (os_WriteFile fs (scorer.SourcePath sg) newContent)
    as [fs1 ok] eqn:Hw. cbn [fst snd] in Hrun. destruct ok; [|done].
  constructor.
  - exists content, newContent. split; [done|]. split; [done|].
    rewrite <- (os_WriteFile_read _ _ _ _ Hw).
    replace fs' with (applyAll fs1 l).1 by by rewrite Hrun.
    by apply applyAll_other.
  - specialize (IH fs1 Hl Hrun). rewrite Forall_forall in IH.
    apply Forall_forall. intros sg' Hin.
    destruct (IH _ Hin) as (c & n & Hc & Hn & Hfinal).
    exists c, n. split; [|done].
    rewrite <- Hc. symmetry.
    apply (os_WriteFile_other _ _ _ _ _ _ Hw).
    intros Heq. apply Hsg. rewrite <- Heq.
    apply list_elem_of_fmap. by exists sg'.
Qed.

Lemma ApplyChanges_distinct_sources_witness :
  let sg path word target pos :=
    {| scorer.SourcePath := str path; scorer.TargetPath := str target;
       scorer.LinkScore := PInf; scorer.Context := [];
       scorer.WordToLink := str word; scorer.Position := pos |} in
  let fs : gmap bytes bytes :=
    <[str "s.md" := str "This is a test document"]>
      (<[str "t.md" := str "Another document"]> ∅) in
  let l := [sg "s.md" "test" "t.md" 10; sg "t.md" "document" "s.md" 8] in
  let r := @ApplyChanges memoryFiles unit flatAnalyzer fs l in
  DryRun (config flatAnalyzer) = false
  /\ NoDup (scorer.SourcePath <$> l)
  /\ r = (r.1, true)
  /\ r.1 !! str "s.md" = Some (str "This is a [test](t.md) document")
  /\ Forall (fun sg =>
       exists content newContent,
         fs !! scorer.SourcePath sg = Some content
         /\ markdown.InsertLink content (scorer.WordToLink sg)
              (scorer.TargetPath sg) (scorer.Position sg) = inr newContent
         /\ r.1 !! scorer.SourcePath sg = Some newContent) l.
Proof.
  intros sg fs l r.
  assert (NoDup (scorer.SourcePath <$> l)) as Hnodup
    by (apply (bool_decide_unpack _); vm_compute; reflexivity).
  assert (r = (r.1, true)) as Hrun by (vm_compute; reflexivity).
  split; [reflexivity|]. split; [exact Hnodup|]. split; [exact Hrun|].
  split; [vm_compute; reflexivity|].
  apply (@ApplyChanges_distinct_sources memoryFiles unit flatAnalyzer fs r.1
           l eq_refl Hnodup Hrun).
Defined.

(** X25. Two suggestions for one file whose spans do not overlap, both
    valid for the content as it is, are applied without error when the one
    at the later position comes first and the writes succeed; the file then
    holds both links. *)
Theorem ApplyChanges_later_first `{GoFiles} {S : Type} (a : Analyzer S)
    (fs : Files) (sg1 sg2 : scorer.LinkSuggestion) (content r1 r2 : bytes) :
  DryRun (config a) = false ->
  scorer.SourcePath sg2 = scorer.SourcePath sg1 ->
  os_ReadFile fs (scorer.SourcePath sg1) = Some content ->
  markdown.InsertLink content (scorer.WordToLink sg1)
    (scorer.TargetPath sg1) (scorer.Position sg1) = inr r1 ->
  markdown.InsertLink content (scorer.WordToLink sg2)
    (scorer.TargetPath sg2) (scorer.Position sg2) = inr r2 ->
  scorer.Position sg1 + len (scorer.WordToLink sg1) <= scorer.Position sg2 ->
  (forall fs data, (os_WriteFile fs (scorer.SourcePath sg1) data).2 = true) ->
  exists r,
    markdown.InsertLink r2 (scorer.WordToLink sg1) (scorer.TargetPath sg1)
      (scorer.Position sg1) = inr r
    /\ (ApplyChanges a fs [sg2; sg1]).2 = true
    /\ os_ReadFile (ApplyChanges a fs [sg2; sg1]).1 (scorer.SourcePath sg1)
       = Some r.
Proof.
  intros Hdry Hsame Hread H1 H2 Hle Hwrite.
  destruct (markdown.InsertLink_spans _ _ _ _ _ _ _ _ _ H1 H2 Hle)
    as (b & m & t & Hp1 & _ & _ & _ & Hr2).
  assert (markdown.InsertLink r2 (scorer.WordToLink sg1)
            (scorer.TargetPath sg1) (scorer.Position sg1)
          = inr (b ++ markdown.linkText (scorer.WordToLink sg1)
                        (scorer.TargetPath sg1)
                   ++ m ++ markdown.linkText (scorer.WordToLink sg2)
                             (scorer.TargetPath sg2) ++ t)) as Hr.
  { rewrite Hr2, <- Hp1. apply markdown.InsertLink_at.
    unfold markdown.linkText. intros Hnil%(f_equal length).
    rewrite !length_app in Hnil. simpl in Hnil. lia. }
  eexists. split; [exact Hr|].
  unfold ApplyChanges. rewrite Hdry. cbn [applyAll].
  rewrite Hsame, Hread, H2.
  destruct (os_WriteFile fs (scorer.SourcePath sg1) r2) as [fs1 ok] eqn:Hw1.
  pose proof (Hwrite fs r2) as Hok1. rewrite Hw1 in Hok1. simpl in Hok1.
  subst ok. cbn [fst snd].
  rewrite (os_WriteFile_read _ _ _ _ Hw1), Hr.
  destruct (os_WriteFile fs1 (scorer.SourcePath sg1) _) as [fs2 ok] eqn:Hw2.
  pose proof (Hwrite fs1
    (b ++ markdown.linkText (scorer.WordToLink sg1) (scorer.TargetPath sg1)
       ++ m ++ markdown.linkText (scorer.WordToLink sg2)
                 (scorer.TargetPath sg2) ++ t)) as Hok2.
  rewrite Hw2 in Hok2. simpl in Hok2. subst ok. cbn [fst snd].
  split; [done|]. by apply (os_WriteFile_read _ _ _ _ Hw2).
Qed.

Lemma ApplyChanges_later_first_witness :
  let sg word target pos :=
    {| scorer.SourcePath := str "s.md"; scorer.TargetPath := str target;
       scorer.LinkScore := PInf; scorer.Context := [];
       scorer.WordToLink := str word; scorer.Position := pos |} in
  let content := str "This is a test document" in
  let fs : gmap bytes bytes := <[str "s.md" := content]> ∅ in
  let sg1 := sg "test" "a.md" 10 in
  let sg2 := sg "document" "b.md" 15 in
  markdown.InsertLink content (str "test") (str "a.md") 10
    = inr (str "This is a [test](a.md) document")
  /\ markdown.InsertLink content (str "document") (str "b.md") 15
    = inr (str "This is a test [document](b.md)")
  /\ exists r,
       markdown.InsertLink (str "This is a test [document](b.md)")
         (str "test") (str "a.md") 10 = inr r
       /\ (@ApplyChanges memoryFiles unit flatAnalyzer fs [sg2; sg1]).2 = true
       /\ (@ApplyChanges memoryFiles unit flatAnalyzer fs [sg2; sg1]).1
            !! str "s.md" = Some r.
Proof.
  intros sg content fs sg1 sg2.
  assert (markdown.InsertLink content (str "test") (str "a.md") 10
          = inr (str "This is a [test](a.md) document")) as H1
    by (vm_compute; reflexivity).
  assert (markdown.InsertLink content (str "document") (str "b.md") 15
          = inr (str "This is a test [document](b.md)")) as H2
    by (vm_compute; reflexivity).
  split; [exact H1|]. split; [exact H2|].
  apply (@ApplyChanges_later_first memoryFiles unit flatAnalyzer fs sg1 sg2
           content _ _ eq_refl eq_refl eq_refl H1 H2).
  - vm_compute. discriminate.
  - reflexivity.
Defined.

(** *** The ranker on parsed documents *)

(** X26. For a document whose table comes from [ParseContent], as
    [loadDocuments] builds it when the cache has no entry, the score is a
    finite number that is not negative, in every corpus, and it differs
    from 0 exactly when some generated term of the query is in the table
    and in the IDF map. *)
Theorem Score_parsed_document `{GoSort} `{GoMapRange} (maxN : Z)
    (ds : list scorer.Document) (query : bytes) (p : markdown.Parser)
    (path content : bytes) :
  let s := scorer.processAll (scorer.NewBM25Scorer maxN) ds in
  let doc := {| scorer.Path := path; scorer.Content := [];
                scorer.WordFreq := markdown.ParseContent p content |} in
  (exists r, scorer.Score s query doc = Fin r /\ (0 <= r)%R)
  /\ (scorer.Score s query doc <> Fin 0 <->
      exists term,
        term ∈ scorer.queryNGrams (Fields (ToLower query)) (scorer.maxNGram s)
        /\ is_Some (scorer.WordFreq doc !! term)
        /\ is_Some (scorer.idf s !! term)).
Proof.
  intros s doc.
  assert (map_Forall (fun _ tf => 0 <= tf) (scorer.WordFreq doc)) as Hdoc.
  { intros t n Hn%markdown.ParseContent_positive. lia. }
  destruct (scorer.Score_sign maxN ds query doc Hdoc) as [Hnn Hpos].
  fold s in Hnn, Hpos. split; [exact Hnn|]. split.
  - intros Hne.
    destruct (decide (Exists (fun term =>
      is_Some (scorer.WordFreq doc !! term)
      /\ is_Some (scorer.idf s !! term))
      (scorer.queryNGrams (Fields (ToLower query)) (scorer.maxNGram s))))
      as [Hex|Hnone].
    + apply Exists_exists in Hex as (term & Hin & Ht). by exists term.
    + exfalso. apply Hne. rewrite scorer.Score_sum.
      rewrite scorer.no_contribution; [done|].
      apply Forall_forall. intros term Hin.
      destruct (scorer.WordFreq doc !! term) eqn:Hw; [|by left].
      destruct (scorer.idf s !! term) eqn:Hi; [|by right].
      exfalso. apply Hnone. apply Exists_exists. exists term.
      rewrite Hw, Hi. eauto.
  - intros (term & Hin & [tf Htf] & Hidf).
    destruct Hpos as (r & Hr & Hrpos).
    + exists term, tf. repeat split; try done.
      by apply markdown.ParseContent_positive in Htf.
    + rewrite Hr. intros [= E]. lra.
Qed.

End analyzer.
